(** * d3-gantt: configuration merge, time-domain inference and layout

    A shallow embedding of the d3-gantt widget (d3.ganttChart, and its
    predecessor d3.ganttDiagram with d3.ganttDiagram.util.extend).

    - [JS]: the fragment of JavaScript the widget relies on: values, plain
      objects and arrays in a shared store, property reads and writes,
      for-in enumeration and Array.prototype.sort.
    - [JQuery]: jQuery.extend(true, target, options), the deep merge used
      by d3.ganttChart.init.
    - [D3]: the pieces of D3 version 4 the widget calls: the clamped time
      scale, the band scale and interval.range.
    - [GanttDiagram]: the earlier widget, whose init merges with the
      shallow util.extend.
    - [GanttChart]: the current widget (init, draw and the helpers).
    - [Tree] and [Located]: configuration trees by value, and the trees a
      store holds, in which the statements about the merge are written.

    Numbers are exact rationals ([Q]); timestamps are integers (the time
    value of a Date, in milliseconds). *)

From Stdlib Require Import ZArith QArith Qminmax Lia Lqa String List Permutation Sorted.
From stdpp Require Import base list strings.

Open Scope Q_scope.

(* ===================================================================== *)
(** ** JavaScript values, objects and the store                           *)
(* ===================================================================== *)

Module JS.

(** Locations of objects in the store. *)
Abbreviation loc := nat (only parsing).

(** A value is a primitive, a Date (by its time value), an opaque callable
    such as a d3 interval (identity and declared arity), or a reference
    to a plain object or an array in the store. A Date and a callable are
    objects in the code; the widget reads them and never changes one, and
    here they are values: two references to one Date are not told apart.
    The store holds plain objects and arrays only, and what is stated of
    objects shared or copied is stated of those. *)
Inductive value : Type :=
| VUndefined
| VNull
| VBool (b : bool)
| VNumber (q : Q)
| VString (s : string)
| VDate (t : Z)
| VFunction (id arity : nat)
| VRef (l : loc).
Arguments VRef l%_nat.
Arguments VFunction (id arity)%_nat.

(** Property keys: names, and array indices. *)
Inductive key : Type :=
| KName (s : string)
| KIndex (i : nat).

#[global] Instance key_eq_dec : EqDecision key.
Proof. solve_decision. Defined.

(** A plain object keeps its own enumerable properties in insertion order;
    an array keeps its elements (a hole reads as undefined). *)
Inductive object : Type :=
| Plain (props : list (key * value))
| Array (elems : list value).

(** The store: the object at location [l] is the [l]-th entry. *)
Abbreviation heap := (list object) (only parsing).

Inductive error : Type := TypeError.

(** The outcome of a call: a normal return, a thrown exception, or
    recursion deeper than the fuel given to the model. *)
Inductive completion (A : Type) : Type :=
| Normal (a : A)
| Throw (e : error)
| OutOfFuel.
Arguments Normal {A} a.
Arguments Throw {A} e.
Arguments OutOfFuel {A}.

#[global] Instance completion_ret : MRet completion := fun A a => Normal a.

#[global] Instance completion_bind : MBind completion := fun A B f c =>
  match c with
  | Normal a => f a
  | Throw e => Throw e
  | OutOfFuel => OutOfFuel
  end.

(** *** Properties *)

Fixpoint lookup_prop (k : key) (ps : list (key * value)) : option value :=
  match ps with
  | [] => None
  | (k', v) :: ps' => if decide (k = k') then Some v else lookup_prop k ps'
  end.

(** [o[k] = v] on a plain object: an existing property keeps its place, a
    new one is appended. *)
Fixpoint update_prop (k : key) (v : value) (ps : list (key * value))
  : list (key * value) :=
  match ps with
  | [] => [(k, v)]
  | (k', v') :: ps' =>
      if decide (k = k') then (k, v) :: ps' else (k', v') :: update_prop k v ps'
  end.

(** [a[i] = v] on an array: beyond the end the array grows. *)
Definition array_set (i : nat) (v : value) (elems : list value) : list value :=
  if (i <? length elems)%nat then <[i := v]> elems
  else elems ++ replicate (i - length elems) VUndefined ++ [v].

Definition length_key : key := KName "length".

Definition get_own (o : object) (k : key) : value :=
  match o, k with
  | Plain ps, _ => default VUndefined (lookup_prop k ps)
  | Array vs, KIndex i => default VUndefined (vs !! i)
  | Array vs, KName s =>
      if decide (k = length_key) then VNumber (inject_Z (Z.of_nat (length vs)))
      else VUndefined
  end.

Definition set_own (k : key) (v : value) (o : object) : object :=
  match o, k with
  | Plain ps, _ => Plain (update_prop k v ps)
  | Array vs, KIndex i => Array (array_set i v vs)
  | Array vs, KName _ => Array vs
  end.

Definition own_keys (o : object) : list key :=
  match o with
  | Plain ps => map fst ps
  | Array vs => map KIndex (seq 0 (length vs))
  end.

Definition string_at (s : string) (i : nat) : value :=
  match String.get i s with
  | Some c => VString (String c EmptyString)
  | None => VUndefined
  end.

(** [v[k]] for a value that is neither undefined nor null. *)
Definition get (h : heap) (v : value) (k : key) : value :=
  match v with
  | VRef l => match h !! l with Some o => get_own o k | None => VUndefined end
  | VString s =>
      match k with
      | KIndex i => string_at s i
      | KName _ =>
          if decide (k = length_key)
          then VNumber (inject_Z (Z.of_nat (String.length s)))
          else VUndefined
      end
  | VFunction _ arity =>
      if decide (k = length_key) then VNumber (inject_Z (Z.of_nat arity))
      else VUndefined
  | _ => VUndefined
  end.

(** The keys [for (name in v)] visits. *)
Definition enumerate (h : heap) (v : value) : list key :=
  match v with
  | VRef l => match h !! l with Some o => own_keys o | None => [] end
  | VString s => map KIndex (seq 0 (String.length s))
  | _ => []
  end.

(** [l[k] = v]: the object at [l] is updated in place. *)
Definition write (h : heap) (l : loc) (k : key) (v : value) : heap :=
  match h !! l with
  | Some o => <[l := set_own k v o]> h
  | None => h
  end.

(** A fresh object. *)
Definition alloc (h : heap) (o : object) : heap * loc := (h ++ [o], length h).

Definition is_nullish (v : value) : bool :=
  match v with VUndefined | VNull => true | _ => false end.

Definition is_undefined (v : value) : bool :=
  match v with VUndefined => true | _ => false end.

Definition same_ref (l : loc) (v : value) : bool :=
  match v with VRef l' => Nat.eqb l l' | _ => false end.

(** *** Numbers *)

(** ToNumber on the values the widget subtracts: [None] is NaN. Strings,
    objects and functions are taken as NaN. *)
Definition to_number (v : value) : option Q :=
  match v with
  | VNumber q => Some q
  | VDate t => Some (inject_Z t)
  | VNull => Some 0
  | VBool b => Some (if b then 1 else 0)
  | _ => None
  end.

(** [a - b]. *)
Definition minus (a b : value) : option Q :=
  match to_number a, to_number b with
  | Some x, Some y => Some (x - y)
  | _, _ => None
  end.

(** *** Array.prototype.sort *)

(** The comparator decides that [a] may stay before [b] when its result is
    not positive (NaN counts as 0). *)
Definition stays_before {A} (cmp : A -> A -> option Q) (a b : A) : bool :=
  match cmp a b with
  | Some d => Qle_bool d 0
  | None => true
  end.

Fixpoint insert_sorted {A} (cmp : A -> A -> option Q) (x : A) (l : list A) : list A :=
  match l with
  | [] => [x]
  | y :: l' =>
      if stays_before cmp x y then x :: y :: l' else y :: insert_sorted cmp x l'
  end.

(** A stable sort: for a consistent comparator the result of a stable sort
    is determined, so the insertion sort stands for the engine's. *)
Fixpoint sort {A} (cmp : A -> A -> option Q) (l : list A) : list A :=
  match l with
  | [] => []
  | x :: l' => insert_sorted cmp x (sort cmp l')
  end.

Fixpoint foldM {A S} (f : S -> A -> option S) (l : list A) (s : S) : option S :=
  match l with
  | [] => Some s
  | a :: l' => match f s a with Some s' => foldM f l' s' | None => None end
  end.

End JS.

Import JS.

(* ===================================================================== *)
(** ** jQuery.extend(true, target, options)                               *)
(* ===================================================================== *)

Module JQuery.

(** What jQuery recurses into: a plain object ([false]) or an array
    ([true]); anything else is copied by value or by reference. *)
Definition container_kind (h : heap) (v : value) : option bool :=
  match v with
  | VRef l =>
      match h !! l with
      | Some (Plain _) => Some false
      | Some (Array _) => Some true
      | None => None
      end
  | _ => None
  end.

Definition empty_container (is_array : bool) : object :=
  if is_array then Array [] else Plain [].

(** [clone]: the target's own value when it has the kind of [copy],
    otherwise a fresh empty array or object. *)
Definition choose_clone (h : heap) (is_array : bool) (src : value) : heap * loc :=
  match src with
  | VRef s =>
      if decide (container_kind h src = Some is_array) then (h, s)
      else alloc h (empty_container is_array)
  | _ => alloc h (empty_container is_array)
  end.

(** One turn of [for (name in options)] with [deep] set:
<<
    copy = options[name];
    if (target === copy) continue;
    if (deep && copy && (isPlainObject(copy) || (copyIsArray = isArray(copy)))) {
      src = target[name];
      clone = (same kind) ? src : (copyIsArray ? [] : {});
      target[name] = jQuery.extend(deep, clone, copy);
    } else if (copy !== undefined) {
      target[name] = copy;
    }
>> *)
Definition extend_step (rec : heap -> loc -> value -> option heap)
    (target : loc) (options : value) (h : heap) (name : key) : option heap :=
  let copy := get h options name in
  if same_ref target copy then Some h
  else
    match container_kind h copy with
    | Some is_array =>
        let src := get h (VRef target) name in
        let '(h1, clone) := choose_clone h is_array src in
        match rec h1 clone copy with
        | Some h2 => Some (write h2 target name (VRef clone))
        | None => None
        end
    | None =>
        if is_undefined copy then Some h else Some (write h target name copy)
    end.

(** The deep extend of [target] by one [options] argument. It returns
    [target] itself, so only the store is returned; [None] when the
    nesting of [options] exceeds [fuel]. *)
Fixpoint extend (fuel : nat) (h : heap) (target : loc) (options : value)
  : option heap :=
  match fuel with
  | O => None
  | S fuel' =>
      if is_nullish options then Some h
      else foldM (extend_step (extend fuel') target options)
                 (enumerate h options) h
  end.

End JQuery.

(* ===================================================================== *)
(** ** The widget's objects                                               *)
(* ===================================================================== *)

(** The fields of a widget object ([this]) held in the store. *)
Record widget : Type := {
  defaultParameters : loc;
  params : value
}.

Definition data_key : key := KName "data".
Definition start_key : key := KName "start".
Definition end_key : key := KName "end".
Definition startTime_key : key := KName "startTime".
Definition endTime_key : key := KName "endTime".

(** [function(a, b) { return a.end - b.end; }] and its twin on [start]. *)
Definition compare_by (field : key) (h : heap) (a b : value) : option Q :=
  minus (get h a field) (get h b field).

(** The time-domain block of init (the same text in every version):
<<
    if (this.params.data.length > 0) {
      this.params.data.sort(function(a, b) { return a.end - b.end; });
      this.params.endTime = this.params.data[this.params.data.length - 1].end;
      this.params.data.sort(function(a, b) { return a.start - b.start; });
      this.params.startTime = this.params.data[0].start;
    }
>>
    [p] is the object [this.params] refers to. Reading a property of
    undefined or null throws, and so does calling the missing [sort] of a
    value that is not an array. *)
Definition determine_time_domain (h : heap) (p : loc) : completion heap :=
  let data := get h (VRef p) data_key in
  if is_nullish data then Throw TypeError
  else
    match data with
    | VRef d =>
        match h !! d with
        | Some (Array elems) =>
            match elems with
            | [] => Normal h
            | _ :: _ =>
                if existsb is_nullish elems then Throw TypeError
                else
                  let by_end := sort (compare_by end_key h) elems in
                  let h1 := <[d := Array by_end]> h in
                  let h2 := write h1 p endTime_key
                              (get h1 (List.last by_end VUndefined) end_key) in
                  let by_start := sort (compare_by start_key h2) by_end in
                  let h3 := <[d := Array by_start]> h2 in
                  Normal (write h3 p startTime_key
                            (get h3 (hd VUndefined by_start) start_key))
            end
        | _ =>
            match to_number (get h data length_key) with
            | Some n => if Qle_bool n 0 then Normal h else Throw TypeError
            | None => Normal h
            end
        end
    | _ =>
        match to_number (get h data length_key) with
        | Some n => if Qle_bool n 0 then Normal h else Throw TypeError
        | None => Normal h
        end
    end.

(* ===================================================================== *)
(** ** d3.ganttDiagram (the earlier widget) and util.extend               *)
(* ===================================================================== *)

Module GanttDiagram.

(** One turn of [for (a in obj) { result[a] = obj[a]; }]. *)
Definition copy_step (obj : value) (result : loc) (h : heap) (a : key) : heap :=
  write h result a (get h obj a).

(** d3.ganttDiagram.util.extend:
<<
    var result = {};
    for (var a1 in obj1) { result[a1] = obj1[a1]; }
    for (var a2 in obj2) { result[a2] = obj2[a2]; }
    return result;
>> *)
Definition extend (h : heap) (obj1 obj2 : value) : heap * loc :=
  let '(h0, result) := alloc h (Plain []) in
  let h1 := fold_left (copy_step obj1 result) (enumerate h0 obj1) h0 in
  let h2 := fold_left (copy_step obj2 result) (enumerate h1 obj2) h1 in
  (h2, result).

(** d3.ganttDiagram.init. *)
Definition init (h : heap) (this : widget) (user : value)
  : completion (heap * widget) :=
  let '(h1, result) := extend h (VRef (defaultParameters this)) user in
  h2 ← determine_time_domain h1 result;
  mret (h2, {| defaultParameters := defaultParameters this;
               params := VRef result |}).

End GanttDiagram.

(* ===================================================================== *)
(** ** d3.ganttChart.init                                                  *)
(* ===================================================================== *)

Module GanttChartInit.

Definition timeMinute_every_15 : value := VFunction 0 1.

(** The store right after the script is loaded: d3.ganttChart's
    [defaultParameters] literal at location 0, its arrays and nested
    objects behind it. [now] is the value of [new Date()] at load time. *)
Definition defaults_store (now : Z) : heap :=
  [ Plain [ (KName "node", VString "#gantt");
            (KName "width", VNumber 200);
            (KName "height", VNumber 200);
            (KName "activities", VRef 1);
            (KName "data", VRef 2);
            (KName "endTime", VDate now);
            (KName "startTime", VDate now);
            (KName "yAxis", VRef 3);
            (KName "xAxis", VRef 4) ];
    Array [];
    Array [];
    Plain [ (KName "width", VNumber 15);
            (KName "dynamicHeight", VBool true);
            (KName "elementHeight", VNumber 50) ];
    Plain [ (KName "height", VNumber 35);
            (KName "dynamicWidth", VBool true);
            (KName "tickDistance", VNumber 50);
            (KName "interval", timeMinute_every_15);
            (KName "label", VRef 5) ];
    Plain [ (KName "format", VString "%H:%M");
            (KName "rotation", VNumber (-90));
            (KName "dx", VString "-1em");
            (KName "dy", VString "-1em") ] ].

(** d3.ganttChart before init. *)
Definition ganttChart : widget :=
  {| defaultParameters := 0%nat; params := VUndefined |}.

(** [this.params = $.extend(true, this.defaultParameters, params)]: the
    target of the deep extend is the defaults object itself, and jQuery
    returns its target. *)
Definition init (fuel : nat) (h : heap) (this : widget) (user : value)
  : completion (heap * widget) :=
  match JQuery.extend fuel h (defaultParameters this) user with
  | None => OutOfFuel
  | Some h1 =>
      h2 ← determine_time_domain h1 (defaultParameters this);
      mret (h2, {| defaultParameters := defaultParameters this;
                   params := VRef (defaultParameters this) |})
  end.

End GanttChartInit.

(* ===================================================================== *)
(** ** D3 version 4: scales and intervals                                 *)
(* ===================================================================== *)

Module D3.

Definition Qltb (x y : Q) : bool := negb (Qle_bool y x).

(** *** d3.scaleTime().domain([d0, d1]).range([r0, r1]).clamp(true) *)

(** [deinterpolateLinear(a, b)]:
    [(b -= a) ? function(x) { return (x - a) / b; } : constant(b)]. *)
Definition deinterpolateLinear (a b x : Q) : Q :=
  if Qeq_bool (b - a) 0 then b - a else (x - a) / (b - a).

(** [deinterpolateClamp]: [x <= a ? 0 : x >= b ? 1 : d(x)]. *)
Definition deinterpolateClamp (a b x : Q) : Q :=
  if Qle_bool x a then 0
  else if Qle_bool b x then 1
  else deinterpolateLinear a b x.

(** [interpolateNumber(a, b)]: [function(t) { return a + (b - a) * t; }]. *)
Definition interpolateNumber (a b t : Q) : Q := a + (b - a) * t.

(** [bimap]: a descending domain is mapped through the reversed pairs. *)
Definition bimap (d0 d1 r0 r1 x : Q) : Q :=
  if Qltb d1 d0
  then interpolateNumber r1 r0 (deinterpolateClamp d1 d0 x)
  else interpolateNumber r0 r1 (deinterpolateClamp d0 d1 x).

(** The clamped time scale applied to a timestamp. *)
Definition scaleTime (d0 d1 : Z) (r0 r1 : Q) (x : Z) : Q :=
  bimap (inject_Z d0) (inject_Z d1) r0 r1 (inject_Z x).

(** *** d3.scaleBand().domain(names).range([r0, r1]) *)

(** The ordinal domain keeps the first occurrence of every name. *)
Fixpoint add_names (domain names : list string) : list string :=
  match names with
  | [] => domain
  | d :: rest =>
      if decide (d ∈ domain) then add_names domain rest
      else add_names (domain ++ [d]) rest
  end.

Definition ordinal_domain (names : list string) : list string :=
  add_names [] names.

Record band : Type := {
  domain : list string;
  ordinalRange : list Q;
  step : Q;
  bandwidth : Q
}.

Definition nat_Q (n : nat) : Q := inject_Z (Z.of_nat n).

(** [rescale] with paddingInner = paddingOuter = 0, align = 0.5 and no
    rounding:
<<
    var n = domain().length, reverse = range[1] < range[0],
        start = range[reverse - 0], stop = range[1 - reverse];
    step = (stop - start) / Math.max(1, n - paddingInner + paddingOuter * 2);
    start += (stop - start - step * (n - paddingInner)) * align;
    bandwidth = step * (1 - paddingInner);
    var values = sequence(n).map(function(i) { return start + step * i; });
    return ordinalRange(reverse ? values.reverse() : values);
>> *)
Definition scaleBand (names : list string) (r0 r1 : Q) : band :=
  let dom := ordinal_domain names in
  let n := nat_Q (length dom) in
  let reverse := Qltb r1 r0 in
  let start := if reverse then r1 else r0 in
  let stop := if reverse then r0 else r1 in
  let stp := (stop - start) / Qmax 1 (n - 0 + 0 * 2) in
  let start' := start + (stop - start - stp * (n - 0)) * (1 # 2) in
  let values := map (fun i => start' + stp * nat_Q i) (seq 0 (length dom)) in
  {| domain := dom;
     ordinalRange := if reverse then rev values else values;
     step := stp;
     bandwidth := stp * (1 - 0) |}.

Fixpoint index_of (d : string) (l : list string) : option nat :=
  match l with
  | [] => None
  | x :: l' => if decide (d = x) then Some 0%nat else S <$> index_of d l'
  end.

(** Applying the scale: a name outside the domain yields undefined
    ([None]), the band scale having [unknown(undefined)]:
    [range[(i - 1) % range.length]] with [i] the 1-based index. *)
Definition band_apply (b : band) (d : string) : option Q :=
  match index_of d (domain b) with
  | None => None
  | Some i => ordinalRange b !! (i mod length (ordinalRange b))%nat
  end.

(** *** Intervals *)

(** A d3 interval as the widget uses it: [interval.range(start, stop)]. *)
Record interval : Type := { range : Z -> Z -> list Z }.

(** [newInterval(floori, offseti).range(start, stop)]:
<<
    start = interval.ceil(start);
    if (!(start < stop)) return range;
    do range.push(new Date(+start));
    while (offseti(start, 1), floori(start), start < stop)
>>
    with [ceil(d) = floori(offseti(floori(d - 1), 1))]. *)
Fixpoint range_loop (floori : Z -> Z) (offseti : Z -> Z -> Z)
    (fuel : nat) (start stop : Z) : list Z :=
  match fuel with
  | O => []
  | S fuel' =>
      start ::
      (let next := floori (offseti start 1%Z) in
       if (next <? stop)%Z then range_loop floori offseti fuel' next stop else [])
  end.

(** d3.timeMillisecond.every(k) for an integer [k > 0]: floor to a
    multiple of [k], step by [k]. Every turn advances by [k], so
    [(stop - first) / k + 1] turns are enough. *)
Definition timeMillisecond_every (k : Z) : interval :=
  let floori := fun t => (t / k * k)%Z in
  let offseti := fun t n => (t + n * k)%Z in
  {| range := fun start stop =>
       let first := floori (offseti (floori (start - 1)%Z) 1%Z) in
       if (first <? stop)%Z
       then range_loop floori offseti
              (S (Z.to_nat ((stop - first) / k))) first stop
       else [] |}.

End D3.

(* ===================================================================== *)
(** ** d3.ganttChart: parameters and drawing                              *)
(* ===================================================================== *)

Module GanttChart.

Record activity_t : Type := {
  name : string;
  description : option string
}.

(** A data point. [fillColor] and [strokeColor] may be absent. *)
Record element : Type := {
  activity : string;
  text : string;
  start : Z;
  end_ : Z;
  fillColor : option string;
  strokeColor : option string
}.

Module Label.
Record t : Type := { format : string; rotation : Q; dx : string; dy : string }.
End Label.

Module XAxis.
Record t : Type := {
  height : Q;
  dynamicWidth : bool;
  tickDistance : Q;
  interval : D3.interval;
  label : Label.t
}.
End XAxis.

Module YAxis.
Record t : Type := {
  width : Q;
  dynamicHeight : bool;
  elementHeight : Q
}.
End YAxis.

(** [this.params] once init has resolved it. *)
Record parameters : Type := {
  node : string;
  width : Q;
  height : Q;
  activities : list activity_t;
  data : list element;
  endTime : Z;
  startTime : Z;
  yAxis : YAxis.t;
  xAxis : XAxis.t
}.

Definition set_height (v : Q) (p : parameters) : parameters :=
  {| node := node p; width := width p; height := v;
     activities := activities p; data := data p;
     endTime := endTime p; startTime := startTime p;
     yAxis := yAxis p; xAxis := xAxis p |}.

Definition set_width (v : Q) (p : parameters) : parameters :=
  {| node := node p; width := v; height := height p;
     activities := activities p; data := data p;
     endTime := endTime p; startTime := startTime p;
     yAxis := yAxis p; xAxis := xAxis p |}.

Definition set_elementHeight (v : Q) (p : parameters) : parameters :=
  {| node := node p; width := width p; height := height p;
     activities := activities p; data := data p;
     endTime := endTime p; startTime := startTime p;
     yAxis := {| YAxis.width := YAxis.width (yAxis p);
                 YAxis.dynamicHeight := YAxis.dynamicHeight (yAxis p);
                 YAxis.elementHeight := v |};
     xAxis := xAxis p |}.

(** The opening block of draw:
<<
    if (this.params.yAxis.dynamicHeight) {
      this.params.height = this.params.yAxis.elementHeight * this.params.activities.length;
    }
    if (this.params.xAxis.dynamicWidth) {
      var numberOfTicks = this.params.xAxis.interval.range(this.params.startTime, this.params.endTime).length;
      this.params.width = this.params.xAxis.tickDistance * numberOfTicks;
    }
>> *)
Definition numberOfTicks (p : parameters) : nat :=
  length (D3.range (XAxis.interval (xAxis p)) (startTime p) (endTime p)).

Definition computeDimensions (p : parameters) : parameters :=
  let p1 :=
    if YAxis.dynamicHeight (yAxis p)
    then set_height (YAxis.elementHeight (yAxis p) * D3.nat_Q (length (activities p))) p
    else p in
  if XAxis.dynamicWidth (xAxis p1)
  then set_width (XAxis.tickDistance (xAxis p1) * D3.nat_Q (numberOfTicks p1)) p1
  else p1.

Definition xAxisScale (p : parameters) : Z -> Q :=
  D3.scaleTime (startTime p) (endTime p) 0 (width p).

Definition yAxisScale (p : parameters) : D3.band :=
  D3.scaleBand (map name (activities p)) 0 (height p).

(** ['translate(' + x + ', ' + y + ')'], kept as its two coordinates; an
    undefined [y] is [None]. *)
Record translate : Type := { tx : Q; ty : option Q }.

Definition elementTranslate (p : parameters) (elem : element) : translate :=
  {| tx := xAxisScale p (start elem);
     ty := D3.band_apply (yAxisScale p) (activity elem) |}.

Definition elementWidth (p : parameters) (elem : element) : Q :=
  xAxisScale p (end_ elem) - xAxisScale p (start elem).

Definition elementLabelTranslate (p : parameters) (elem : element) : translate :=
  {| tx := elementWidth p elem / 2;
     ty := Some (D3.bandwidth (yAxisScale p) / 2) |}.

(** [if (elem.fillColor) return elem.fillColor;]: an absent or empty
    colour sets no attribute. *)
Definition truthy_string (c : option string) : option string :=
  match c with
  | Some s => if decide (s = EmptyString) then None else Some s
  | None => None
  end.

(** What draw hands to the rendering layer. *)
Record xAxisDrawing : Type := {
  xSvgWidth : Q;
  xSvgHeight : Q;
  xTransform : translate;
  xScale : Z -> Q;
  xTicks : D3.interval;
  xTickFormat : string;
  xLabelDx : string;
  xLabelDy : string;
  xLabelRotation : Q
}.

Record yAxisDrawing : Type := {
  ySvgWidth : Q;
  ySvgHeight : Q;
  yTransform : translate;
  yScale : D3.band
}.

Record elementDrawing : Type := {
  transform : translate;
  fill : option string;
  stroke : option string;
  rectHeight : Q;
  rectWidth : Q;
  labelTransform : translate;
  labelText : string
}.

Record drawing : Type := {
  xAxisSvg : xAxisDrawing;
  yAxisSvg : yAxisDrawing;
  containerHeight : Q;
  containerWidth : Q;
  containerLeft : Q;
  chartWidth : Q;
  chartHeight : Q;
  elements : list elementDrawing
}.

(** drawXAxis: the svg, and the scale, tick interval and label settings
    given to d3.axisBottom. *)
Definition drawXAxis (p : parameters) : xAxisDrawing :=
  {| xSvgWidth := width p + YAxis.width (yAxis p);
     xSvgHeight := height p + XAxis.height (xAxis p);
     xTransform := {| tx := YAxis.width (yAxis p); ty := Some (height p) |};
     xScale := xAxisScale p;
     xTicks := XAxis.interval (xAxis p);
     xTickFormat := Label.format (XAxis.label (xAxis p));
     xLabelDx := Label.dx (XAxis.label (xAxis p));
     xLabelDy := Label.dy (XAxis.label (xAxis p));
     xLabelRotation := Label.rotation (XAxis.label (xAxis p)) |}.

(** drawYAxis stores the band width of the row scale back into the
    parameters:
    [this.params.yAxis.elementHeight = this.yAxisScale().bandwidth();] *)
Definition drawYAxis (p : parameters) : parameters * yAxisDrawing :=
  let scale := yAxisScale p in
  (set_elementHeight (D3.bandwidth scale) p,
   {| ySvgWidth := YAxis.width (yAxis p);
      ySvgHeight := height p;
      yTransform := {| tx := YAxis.width (yAxis p) - 1; ty := Some 0 |};
      yScale := scale |}).

Definition drawElement (p : parameters) (elem : element) : elementDrawing :=
  {| transform := elementTranslate p elem;
     fill := truthy_string (fillColor elem);
     stroke := truthy_string (strokeColor elem);
     rectHeight := YAxis.elementHeight (yAxis p);
     rectWidth := elementWidth p elem;
     labelTransform := elementLabelTranslate p elem;
     labelText := text elem |}.

(** draw: the dimensions, the two axes, then one group per data point.
    It returns the parameters as it leaves them. Nothing in it throws. *)
Definition draw (p : parameters) : completion (parameters * drawing) :=
  let p1 := computeDimensions p in
  let xa := drawXAxis p1 in
  let '(p2, ya) := drawYAxis p1 in
  mret (p2,
        {| xAxisSvg := xa;
           yAxisSvg := ya;
           containerHeight := height p2;
           containerWidth := width p2;
           containerLeft := YAxis.width (yAxis p2);
           chartWidth := width p2;
           chartHeight := height p2;
           elements := map (drawElement p2) (data p2) |}).

End GanttChart.

(* ===================================================================== *)
(** ** The deep extend on values                                          *)
(* ===================================================================== *)

(** Configuration trees by value, and jQuery's deep extend read on them:
    the same loop as [JQuery.extend], on trees that carry no object
    identity. It says what the merged configuration holds; which objects
    hold it is the business of the store model. *)
Set Warnings "-register-all".

Module Tree.

Inductive tree : Type :=
| Leaf (v : value)
| Object (fields : list (key * tree))
| Arr (elems : list tree).

Definition undefined : tree := Leaf VUndefined.

Fixpoint lookup_field (k : key) (fs : list (key * tree)) : option tree :=
  match fs with
  | [] => None
  | (k', t) :: fs' => if decide (k = k') then Some t else lookup_field k fs'
  end.

Fixpoint update_field (k : key) (t : tree) (fs : list (key * tree))
  : list (key * tree) :=
  match fs with
  | [] => [(k, t)]
  | (k', t') :: fs' =>
      if decide (k = k') then (k, t) :: fs' else (k', t') :: update_field k t fs'
  end.

Definition arr_set (i : nat) (t : tree) (elems : list tree) : list tree :=
  if (i <? length elems)%nat then <[i := t]> elems
  else elems ++ replicate (i - length elems) undefined ++ [t].

(** An own enumerable property, [None] when there is none. *)
Definition field (t : tree) (k : key) : option tree :=
  match t, k with
  | Object fs, _ => lookup_field k fs
  | Arr ts, KIndex i => ts !! i
  | _, _ => None
  end.

(** [t[k]]. *)
Definition tget (t : tree) (k : key) : tree := default undefined (field t k).

(** [t[k] = c]. *)
Definition tset (k : key) (c : tree) (t : tree) : tree :=
  match t, k with
  | Object fs, _ => Object (update_field k c fs)
  | Arr ts, KIndex i => Arr (arr_set i c ts)
  | _, _ => t
  end.

Definition same_kind (a b : tree) : bool :=
  match a, b with
  | Object _, Object _ => true
  | Arr _, Arr _ => true
  | _, _ => false
  end.

Definition empty_like (c : tree) : tree :=
  match c with Arr _ => Arr [] | _ => Object [] end.

(** [clone]: the target's value when it has the kind of [copy], otherwise
    an empty array or object. *)
Definition clone_for (src copy : tree) : tree :=
  if same_kind src copy then src else empty_like copy.

Fixpoint extend (target options : tree) {struct options} : tree :=
  match options with
  | Leaf (VString s) =>
      fold_left (fun t i => tset (KIndex i) (Leaf (string_at s i)) t)
                (seq 0 (String.length s)) target
  | Leaf _ => target
  | Object fs =>
      (fix loop (fs : list (key * tree)) (t : tree) : tree :=
         match fs with
         | [] => t
         | (name, copy) :: rest =>
             loop rest
               match copy with
               | Leaf v => if is_undefined v then t else tset name copy t
               | _ => tset name (extend (clone_for (tget t name) copy) copy) t
               end
         end) fs target
  | Arr cs =>
      (fix loop (i : nat) (cs : list tree) (t : tree) : tree :=
         match cs with
         | [] => t
         | copy :: rest =>
             loop (S i) rest
               match copy with
               | Leaf v => if is_undefined v then t else tset (KIndex i) copy t
               | _ => tset (KIndex i)
                        (extend (clone_for (tget t (KIndex i)) copy) copy) t
               end
         end) 0%nat cs target
  end.

(** One turn of the loop. *)
Definition merge_into (name : key) (copy : tree) (t : tree) : tree :=
  match copy with
  | Leaf v => if is_undefined v then t else tset name copy t
  | _ => tset name (extend (clone_for (tget t name) copy) copy) t
  end.

(** The turns over the elements of an array, from index [i] on. *)
Fixpoint merge_elems (i : nat) (cs : list tree) (t : tree) : tree :=
  match cs with
  | [] => t
  | copy :: rest => merge_elems (S i) rest (merge_into (KIndex i) copy t)
  end.

(** What a key of the result holds, from what the target and the options
    hold under it. *)
Definition merged (src copy : tree) : tree :=
  match copy with
  | Leaf v => if is_undefined v then src else copy
  | _ => extend (clone_for src copy) copy
  end.

Definition tget_path (t : tree) (p : list key) : tree := fold_left tget p t.

Definition is_container (t : tree) : Prop :=
  match t with Leaf _ => False | _ => True end.

(** Keys a container stores: any key on an object, indices on an array. *)
Definition stores (t : tree) (k : key) : Prop :=
  match t, k with
  | Object _, _ => True
  | Arr _, KIndex _ => True
  | _, _ => False
  end.

(** Objects have one value per key. *)
Fixpoint wf (t : tree) : Prop :=
  match t with
  | Leaf _ => True
  | Object fs =>
      NoDup (map fst fs) /\
      (fix all (fs : list (key * tree)) : Prop :=
         match fs with [] => True | (_, c) :: rest => wf c /\ all rest end) fs
  | Arr cs =>
      (fix all (cs : list tree) : Prop :=
         match cs with [] => True | c :: rest => wf c /\ all rest end) cs
  end.

(** The options leave the path [p] of the target alone: they hold nothing
    defined at its first key, or a container of the target's kind that
    leaves the rest of the path alone. *)
Inductive spared : tree -> tree -> list key -> Prop :=
| spared_here O D k rest :
    tget O k = undefined -> spared O D (k :: rest)
| spared_below O D k rest :
    same_kind (tget D k) (tget O k) = true ->
    spared (tget O k) (tget D k) rest ->
    spared O D (k :: rest).

End Tree.

(* ===================================================================== *)
(** ** Vocabulary of the statements                                       *)
(* ===================================================================== *)

Definition date_of (v : value) : Z := match v with VDate t => t | _ => 0%Z end.

(** The timestamps an element of the data array carries. *)
Definition start_of (h : heap) (v : value) : Z := date_of (get h v start_key).
Definition end_of (h : heap) (v : value) : Z := date_of (get h v end_key).
Definition span_of (h : heap) (v : value) : Z * Z := (start_of h v, end_of h v).

(** A data point: an object whose [start] and [end] are dates. *)
Definition is_event (h : heap) (v : value) : Prop :=
  (exists s, get h v start_key = VDate s) /\ (exists e, get h v end_key = VDate e).

(** Minimum and maximum of a non-empty list. *)
Fixpoint minimum_of (l : list Z) : Z :=
  match l with
  | [] => 0%Z
  | [x] => x
  | x :: l' => Z.min x (minimum_of l')
  end.

Fixpoint maximum_of (l : list Z) : Z :=
  match l with
  | [] => 0%Z
  | [x] => x
  | x :: l' => Z.max x (maximum_of l')
  end.

Definition is_minimum (m : Z) (l : list Z) : Prop :=
  m ∈ l /\ Forall (fun x => (m <= x)%Z) l.

Definition is_maximum (m : Z) (l : list Z) : Prop :=
  m ∈ l /\ Forall (fun x => (x <= m)%Z) l.

Definition ascending {A} (kf : A -> Q) (l : list A) : Prop :=
  StronglySorted (fun a b => kf a <= kf b) l.

(** On the list [l] the comparator is the difference of the keys [kf]. *)
Definition keyed {A} (cmp : A -> A -> option Q) (kf : A -> Q) (l : list A) : Prop :=
  forall a b, a ∈ l -> b ∈ l -> cmp a b = Some (kf a - kf b).

Definition values_of (o : object) : list value :=
  match o with
  | Plain ps => map snd ps
  | Array vs => vs
  end.

(** No object refers to a location outside the store. *)
Definition well_formed (h : heap) : Prop :=
  forall l o l', h !! l = Some o -> VRef l' ∈ values_of o -> (l' < length h)%nat.

(** The objects of a region refer to objects of the region only. *)
Definition closed (h : heap) (R : nat -> Prop) : Prop :=
  forall l o l', R l -> h !! l = Some o -> VRef l' ∈ values_of o -> R l'.

(** What the deep extend keeps from turn to turn, for a region [R] that
    holds its target: the store only grows, objects outside [R] stay as
    they are in [h0], and [R] stays closed. *)
Record frame_inv (h0 : heap) (R : nat -> Prop) (h : heap) : Prop := {
  inv_length : (length h0 <= length h)%nat;
  inv_frame : forall l, ~ R l -> h !! l = h0 !! l;
  inv_wf : well_formed h;
  inv_closed : closed h R
}.

Definition refs_of (o : object) : list nat :=
  omap (fun v => match v with VRef l => Some l | _ => None end) (values_of o).

(** The checks behind [well_formed] and [closed], for a given store. *)
Definition well_formedb (h : heap) : bool :=
  forallb (fun o => forallb (fun l => (l <? length h)%nat) (refs_of o)) h.

Definition closedb (h : heap) (R : nat -> bool) : bool :=
  forallb (fun lo => negb (R lo.1) || forallb R (refs_of lo.2))
          (combine (seq 0 (length h)) h).

Definition names_of (p : GanttChart.parameters) : list string :=
  map GanttChart.name (GanttChart.activities p).

(** The parameters as draw leaves them. *)
Definition after_draw (p : GanttChart.parameters) : GanttChart.parameters :=
  (GanttChart.drawYAxis (GanttChart.computeDimensions p)).1.

(** *** Reading [this.params] off the store

    The typed parameters that draw works on, as the object of the store
    holds them; [intervals] gives the d3 interval behind a callable. *)
Definition as_number (v : value) : option Q :=
  match v with VNumber q => Some q | _ => None end.

Definition as_string (v : value) : option string :=
  match v with VString s => Some s | _ => None end.

Definition as_bool (v : value) : option bool :=
  match v with VBool b => Some b | _ => None end.

Definition as_date (v : value) : option Z :=
  match v with VDate t => Some t | _ => None end.

Definition as_elems (h : heap) (v : value) : option (list value) :=
  match v with
  | VRef l => match h !! l with Some (Array vs) => Some vs | _ => None end
  | _ => None
  end.

Definition as_interval (intervals : nat -> D3.interval) (v : value)
  : option D3.interval :=
  match v with VFunction id _ => Some (intervals id) | _ => None end.

Definition read_activity (h : heap) (v : value) : option GanttChart.activity_t :=
  n ← as_string (get h v (KName "name"));
  Some {| GanttChart.name := n;
          GanttChart.description := as_string (get h v (KName "description")) |}.

Definition read_element (h : heap) (v : value) : option GanttChart.element :=
  a ← as_string (get h v (KName "activity"));
  t ← as_string (get h v (KName "text"));
  s ← as_date (get h v start_key);
  e ← as_date (get h v end_key);
  Some {| GanttChart.activity := a; GanttChart.text := t;
          GanttChart.start := s; GanttChart.end_ := e;
          GanttChart.fillColor := as_string (get h v (KName "fillColor"));
          GanttChart.strokeColor := as_string (get h v (KName "strokeColor")) |}.

Definition read_label (h : heap) (v : value) : option GanttChart.Label.t :=
  f ← as_string (get h v (KName "format"));
  r ← as_number (get h v (KName "rotation"));
  x ← as_string (get h v (KName "dx"));
  y ← as_string (get h v (KName "dy"));
  Some {| GanttChart.Label.format := f; GanttChart.Label.rotation := r;
          GanttChart.Label.dx := x; GanttChart.Label.dy := y |}.

Definition read_xAxis (intervals : nat -> D3.interval) (h : heap) (v : value)
  : option GanttChart.XAxis.t :=
  ht ← as_number (get h v (KName "height"));
  dw ← as_bool (get h v (KName "dynamicWidth"));
  td ← as_number (get h v (KName "tickDistance"));
  iv ← as_interval intervals (get h v (KName "interval"));
  lb ← read_label h (get h v (KName "label"));
  Some {| GanttChart.XAxis.height := ht; GanttChart.XAxis.dynamicWidth := dw;
          GanttChart.XAxis.tickDistance := td; GanttChart.XAxis.interval := iv;
          GanttChart.XAxis.label := lb |}.

Definition read_yAxis (h : heap) (v : value) : option GanttChart.YAxis.t :=
  w ← as_number (get h v (KName "width"));
  dh ← as_bool (get h v (KName "dynamicHeight"));
  eh ← as_number (get h v (KName "elementHeight"));
  Some {| GanttChart.YAxis.width := w; GanttChart.YAxis.dynamicHeight := dh;
          GanttChart.YAxis.elementHeight := eh |}.

Definition read_parameters (intervals : nat -> D3.interval) (h : heap) (p : value)
  : option GanttChart.parameters :=
  nd ← as_string (get h p (KName "node"));
  w ← as_number (get h p (KName "width"));
  ht ← as_number (get h p (KName "height"));
  acts ← as_elems h (get h p (KName "activities")) ≫= mapM (read_activity h);
  dt ← as_elems h (get h p data_key) ≫= mapM (read_element h);
  e ← as_date (get h p endTime_key);
  s ← as_date (get h p startTime_key);
  y ← read_yAxis h (get h p (KName "yAxis"));
  x ← read_xAxis intervals h (get h p (KName "xAxis"));
  Some {| GanttChart.node := nd; GanttChart.width := w; GanttChart.height := ht;
          GanttChart.activities := acts; GanttChart.data := dt;
          GanttChart.endTime := e; GanttChart.startTime := s;
          GanttChart.yAxis := y; GanttChart.xAxis := x |}.
(* ===================================================================== *)
(** ** Trees of the store                                                 *)
(* ===================================================================== *)

(** What the store holds at a value when it holds a tree there: every
    plain object and array of the tree at a location of its own. It links
    [JQuery.extend], which works on the store, to [Tree.extend]. *)
Module Located.

(** Configuration trees with the locations of their objects. *)
Inductive ltree : Type :=
| LLeaf (v : value)
| LObject (l : nat) (fs : list (key * ltree))
| LArr (l : nat) (ts : list ltree).

(** The value that stands for the tree: a leaf itself, a reference to a
    container. *)
Definition lvalue (t : ltree) : value :=
  match t with
  | LLeaf v => v
  | LObject l _ => VRef l
  | LArr l _ => VRef l
  end.

(** The tree by value. *)
Fixpoint erase (t : ltree) : Tree.tree :=
  match t with
  | LLeaf v => Tree.Leaf v
  | LObject _ fs => Tree.Object (map (fun kc => (kc.1, erase kc.2)) fs)
  | LArr _ ts => Tree.Arr (map erase ts)
  end.

(** The locations of the objects of the tree, the root's first. *)
Fixpoint locs (t : ltree) : list nat :=
  match t with
  | LLeaf _ => []
  | LObject l fs => l :: concat (map (fun kc => locs kc.2) fs)
  | LArr l ts => l :: concat (map locs ts)
  end.

(** The nesting of containers. *)
Fixpoint depth (t : ltree) : nat :=
  match t with
  | LLeaf _ => 0
  | LObject _ fs => S (foldr Nat.max 0%nat (map (fun kc => depth kc.2) fs))
  | LArr _ ts => S (foldr Nat.max 0%nat (map depth ts))
  end.

(** Keys and subtrees, in the order [for (name in t)] visits them. *)
Definition entries (t : ltree) : list (key * ltree) :=
  match t with
  | LLeaf _ => []
  | LObject _ fs => fs
  | LArr _ ts => imap (fun i c => (KIndex i, c)) ts
  end.

(** The store [h] holds the tree: a leaf is no reference; the object at
    the location of a container holds, key by key, the values of the
    subtrees. *)
Inductive rep (h : heap) : ltree -> Prop :=
| rep_leaf v : (forall l, v <> VRef l) -> rep h (LLeaf v)
| rep_object l fs :
    h !! l = Some (Plain (map (fun kc => (kc.1, lvalue kc.2)) fs)) ->
    NoDup (map fst fs) ->
    Forall (fun kc => rep h kc.2) fs ->
    rep h (LObject l fs)
| rep_arr l ts :
    h !! l = Some (Array (map lvalue ts)) ->
    Forall (rep h) ts ->
    rep h (LArr l ts).

(** A plain object or an array. *)
Definition is_cont (t : ltree) : Prop :=
  match t with LLeaf _ => False | _ => True end.

(** The location of a container. *)
Definition root (t : ltree) : nat :=
  match t with LLeaf _ => 0%nat | LObject l _ => l | LArr l _ => l end.

Fixpoint llookup (k : key) (fs : list (key * ltree)) : option ltree :=
  match fs with
  | [] => None
  | (k', c) :: fs' => if decide (k = k') then Some c else llookup k fs'
  end.

(** The child under a key. *)
Definition lfield (t : ltree) (k : key) : option ltree :=
  match t, k with
  | LObject _ fs, _ => llookup k fs
  | LArr _ ts, KIndex i => ts !! i
  | _, _ => None
  end.

(** [t[k] = c] on the tree, as [write] does it on the store. *)
Fixpoint lupdate (k : key) (c : ltree) (fs : list (key * ltree)) : list (key * ltree) :=
  match fs with
  | [] => [(k, c)]
  | (k', c') :: fs' =>
      if decide (k = k') then (k, c) :: fs' else (k', c') :: lupdate k c fs'
  end.

Definition larr_set (i : nat) (c : ltree) (ts : list ltree) : list ltree :=
  if (i <? length ts)%nat then <[i := c]> ts
  else ts ++ replicate (i - length ts) (LLeaf VUndefined) ++ [c].

Definition lset (k : key) (c : ltree) (t : ltree) : ltree :=
  match t, k with
  | LObject l fs, _ => LObject l (lupdate k c fs)
  | LArr l ts, KIndex i => LArr l (larr_set i c ts)
  | _, _ => t
  end.

(** A fresh empty container at [l]. *)
Definition lempty (is_array : bool) (l : nat) : ltree :=
  if is_array then LArr l [] else LObject l [].

(** The keys a container stores under: any for a plain object, indices
    for an array. *)
Definition lstores (t : ltree) (k : key) : Prop :=
  match t, k with
  | LObject _ _, _ => True
  | LArr _ _, KIndex _ => True
  | _, _ => False
  end.

(** The locations under the key [k] of [t]. *)
Definition old_locs (t : ltree) (k : key) : list nat :=
  match lfield t k with Some old => locs old | None => [] end.

(** The immediate subtrees. *)
Definition children (t : ltree) : list ltree :=
  match t with
  | LLeaf _ => []
  | LObject _ fs => map snd fs
  | LArr _ ts => ts
  end.

(** The kind of a located tree, as [container_kind] reads it. *)
Definition lkind (t : ltree) : option bool :=
  match t with
  | LLeaf _ => None
  | LObject _ _ => Some false
  | LArr _ _ => Some true
  end.

(** What a run of the deep extend on the target [T] leaves: the store [h']
    holds [T'] at the location of [T], nothing outside [T] is touched, and
    [T'] is built from the objects of [T] and fresh ones. *)
Definition extends_to (h : heap) (T : ltree) (h' : heap) (T' : ltree) : Prop :=
  rep h' T' /\ root T' = root T /\ lkind T' = lkind T /\
  (length h <= length h')%nat /\
  (forall l, (l < length h)%nat -> l ∉ locs T -> h' !! l = h !! l) /\
  (forall x, x ∈ locs T' -> x ∈ locs T \/ (length h <= x)%nat) /\
  (forall x, x ∈ locs T' -> (x < length h')%nat) /\
  NoDup (locs T').

(** The deep extend with fuel [n] computes [Tree.extend] on every target
    and options that are trees of the store, apart from each other. *)
Definition refines_at (n : nat) : Prop :=
  forall h T O,
    rep h T -> rep h O -> lkind T = lkind O -> is_cont O ->
    NoDup (locs T) ->
    (forall x, x ∈ locs T -> (x < length h)%nat) ->
    (forall x, x ∈ locs O -> (x < length h)%nat /\ x ∉ locs T) ->
    (depth O <= n)%nat ->
    exists h' T',
      JQuery.extend n h (root T) (lvalue O) = Some h' /\
      erase T' = Tree.extend (erase T) (erase O) /\
      extends_to h T h' T'.

(** The tree the store holds at a value, read down to [fuel] levels. *)
Fixpoint tree_at (fuel : nat) (h : heap) (v : value) : ltree :=
  match fuel with
  | O => LLeaf v
  | S n =>
      match v with
      | VRef l =>
          match h !! l with
          | Some (Plain ps) => LObject l (map (fun kv => (kv.1, tree_at n h kv.2)) ps)
          | Some (Array vs) => LArr l (map (tree_at n h) vs)
          | None => LLeaf v
          end
      | _ => LLeaf v
      end
  end.

End Located.

Import Located.


(* ===================================================================== *)
(** ** The chart of the README                                            *)
(* ===================================================================== *)

Module Readme.

Open Scope string_scope.

(** 2016-06-06 hh:mm, as a time value. *)
Definition at_time (hh mm : Z) : Z := (1465171200000 + (hh * 60 + mm) * 60000)%Z.

Definition timeHour_every_1 : value := VFunction 1 1.

Definition event_object (activity text fill : string) (s e : Z) : object :=
  Plain [ (KName "activity", VString activity);
          (KName "text", VString text);
          (KName "fillColor", VString fill);
          (KName "start", VDate s);
          (KName "end", VDate e) ].

(** The d3 intervals behind the callables of the store: every 15 minutes
    (the default) and every hour (d3.timeHour.every(1) in a zone of whole
    hours). *)
Definition intervals (id : nat) : D3.interval :=
  match id with
  | 1%nat => D3.timeMillisecond_every 3600000
  | _ => D3.timeMillisecond_every 900000
  end.

(** The store when the README calls [gantt.init({...})]: the defaults at
    locations 0 to 5, the argument at 6, its activities at 7 to 10, its
    data at 11 to 15, its xAxis and yAxis at 16 and 17. *)
Definition store : heap :=
  (GanttChartInit.defaults_store 1465160000000 ++
   [ Plain [ (KName "node", VString "#gantt-chart");
             (KName "activities", VRef 7);
             (KName "data", VRef 11);
             (KName "xAxis", VRef 16);
             (KName "yAxis", VRef 17) ];
     Array [VRef 8; VRef 9; VRef 10];
     Plain [ (KName "name", VString "John");
             (KName "description", VString "John's schedule") ];
     Plain [ (KName "name", VString "Bob") ];
     Plain [ (KName "name", VString "Jane");
             (KName "description", VString "Jane's schedule") ];
     Array [VRef 12; VRef 13; VRef 14; VRef 15];
     event_object "John" "Work" "rgb(200, 200, 200)" (at_time 7 0) (at_time 15 0);
     event_object "Jane" "Work" "rgb(200, 100, 100)" (at_time 9 0) (at_time 17 30);
     event_object "Bob" "School" "rgb(200, 200, 100)" (at_time 8 0) (at_time 14 30);
     event_object "Bob" "Soccer" "rgb(200, 200, 100)" (at_time 15 0) (at_time 16 30);
     Plain [ (KName "interval", timeHour_every_1) ];
     Plain [ (KName "width", VNumber 50) ] ])%list.

Definition argument : value := VRef 6.
Definition callers_data : loc := 11%nat.

(** The trees [store] holds at the defaults and at the argument. *)
Definition defaults_tree : ltree := Eval vm_compute in tree_at 3 store (VRef 0).
Definition argument_tree : ltree := Eval vm_compute in tree_at 3 store argument.

(** The region of the defaults in [store]: the six objects of the
    literal, and whatever is allocated later. *)
Definition in_defaults_region (l : nat) : bool := (l <? 6)%nat || (18 <=? l)%nat.
Definition defaults_region (l : nat) : Prop := in_defaults_region l = true.

(** The store when init has returned. *)
Definition store_after_init : heap :=
  Eval vm_compute in
    match GanttChartInit.init 4 store GanttChartInit.ganttChart argument with
    | Normal (h, _) => h
    | _ => []
    end.

(** A later call on the same widget, with one data point only: its
    argument, data array and data point, behind [store_after_init]. *)
Definition second_argument_objects : list object :=
  [ Plain [ (KName "data", VRef 26) ];
    Array [VRef 27];
    event_object "Jane" "Lunch" "rgb(200, 100, 100)" (at_time 12 0) (at_time 13 0) ].

Import GanttChart.

Definition element_of (a t fill : string) (s e : Z) : element :=
  {| activity := a; text := t; start := s; end_ := e;
     fillColor := Some fill; strokeColor := None |}.

(** [this.params] of the README's chart after init. *)
Definition parameters_after_init : parameters :=
  {| node := "#gantt-chart";
     width := 200;
     height := 200;
     activities := [ {| name := "John"; description := Some "John's schedule" |};
                     {| name := "Bob"; description := None |};
                     {| name := "Jane"; description := Some "Jane's schedule" |} ];
     data := [ element_of "John" "Work" "rgb(200, 200, 200)" (at_time 7 0) (at_time 15 0);
               element_of "Bob" "School" "rgb(200, 200, 100)" (at_time 8 0) (at_time 14 30);
               element_of "Jane" "Work" "rgb(200, 100, 100)" (at_time 9 0) (at_time 17 30);
               element_of "Bob" "Soccer" "rgb(200, 200, 100)" (at_time 15 0) (at_time 16 30) ];
     endTime := at_time 17 30;
     startTime := at_time 7 0;
     yAxis := {| YAxis.width := 50; YAxis.dynamicHeight := true;
                 YAxis.elementHeight := 50 |};
     xAxis := {| XAxis.height := 35; XAxis.dynamicWidth := true;
                 XAxis.tickDistance := 50;
                 XAxis.interval := intervals 1;
                 XAxis.label := {| Label.format := "%H:%M"; Label.rotation := -90;
                                   Label.dx := "-1em"; Label.dy := "-1em" |} |} |}.

Definition with_data (d : list element) (p : parameters) : parameters :=
  {| node := node p; width := width p; height := height p;
     activities := activities p; data := d;
     endTime := endTime p; startTime := startTime p;
     yAxis := yAxis p; xAxis := xAxis p |}.

(** The same chart with a data point of an activity that is not listed. *)
Definition stray : element := element_of "Zed" "Travel" "rgb(100, 100, 100)" (at_time 10 0) (at_time 11 0).

Definition parameters_with_stray : parameters :=
  with_data (stray :: data parameters_after_init) parameters_after_init.

(** A chart of fixed width 200 whose data all lie at one instant. *)
Definition parameters_one_instant : parameters :=
  {| node := "#gantt-chart";
     width := 200;
     height := 200;
     activities := activities parameters_after_init;
     data := [ element_of "John" "Work" "rgb(200, 200, 200)"
                 (at_time 7 0) (at_time 7 0) ];
     endTime := at_time 7 0;
     startTime := at_time 7 0;
     yAxis := yAxis parameters_after_init;
     xAxis := {| XAxis.height := 35; XAxis.dynamicWidth := false;
                 XAxis.tickDistance := 50;
                 XAxis.interval := D3.timeMillisecond_every 3600000;
                 XAxis.label := XAxis.label (xAxis parameters_after_init) |} |}.

(** The objects of the merge examples, defaults and arguments of
    [$.extend(true, defaults, argument)]:
<<
    0: {yAxis: {width: 15, dynamicHeight: true}}     2: {yAxis: {width: 50}}
    4: {width: 200, activities: ['John', 'Bob']}     6: {activities: ['Jane']}
    8: {yAxis: [50]}                                10: {width: undefined}
>> *)
Definition merge_store : heap :=
  [ Plain [ (KName "yAxis", VRef 1) ];
    Plain [ (KName "width", VNumber 15); (KName "dynamicHeight", VBool true) ];
    Plain [ (KName "yAxis", VRef 3) ];
    Plain [ (KName "width", VNumber 50) ];
    Plain [ (KName "width", VNumber 200); (KName "activities", VRef 5) ];
    Array [ VString "John"; VString "Bob" ];
    Plain [ (KName "activities", VRef 7) ];
    Array [ VString "Jane" ];
    Plain [ (KName "yAxis", VRef 9) ];
    Array [ VNumber 50 ];
    Plain [ (KName "width", VUndefined) ] ].

(** The trees the store holds at 0 and at 2. *)
Definition defaults_yAxis : ltree :=
  LObject 0 [ (KName "yAxis",
               LObject 1 [ (KName "width", LLeaf (VNumber 15));
                           (KName "dynamicHeight", LLeaf (VBool true)) ]) ].

Definition overrides_yAxis : ltree :=
  LObject 2 [ (KName "yAxis", LObject 3 [ (KName "width", LLeaf (VNumber 50)) ]) ].

End Readme.
(* ===================================================================== *)
(** ** Further vocabulary                                                 *)
(* ===================================================================== *)

(** The value lives in the store: a reference points to one of its
    objects. *)
Definition in_store (h : heap) (v : value) : Prop :=
  forall l, v = VRef l -> (l < length h)%nat.

(* ===================================================================== *)
(** ** A diagram of the earlier widget                                    *)
(* ===================================================================== *)

Module DiagramSample.

Open Scope string_scope.

(** The store when a page calls [init] of d3.ganttDiagram: the
    [defaultParameters] literal at 0 with its arrays and nested objects
    at 1 to 5, [diagramParameters] at 6, then the argument
<<
    {node: '#gantt-chart', activities: [...], data: [...], xAxis: {height: 40}}
>>
    at 7 with its activities at 8 to 11, its data at 12 to 16 and its
    xAxis at 17, and a second argument [{data: undefined}] at 18. *)
Definition store : heap :=
  [ Plain [ (KName "node", VString "#gantt");
            (KName "width", VNumber 200);
            (KName "height", VNumber 200);
            (KName "activities", VRef 1);
            (KName "data", VRef 2);
            (KName "endTime", VDate 1465160000000);
            (KName "startTime", VDate 1465160000000);
            (KName "yAxis", VRef 3);
            (KName "xAxis", VRef 4) ];
    Array [];
    Array [];
    Plain [ (KName "width", VNumber 15) ];
    Plain [ (KName "height", VNumber 35);
            (KName "interval", GanttChartInit.timeMinute_every_15);
            (KName "label", VRef 5) ];
    Plain [ (KName "format", VString "%H:%M");
            (KName "rotation", VNumber (-90));
            (KName "dx", VString "-1em");
            (KName "dy", VString "-1em") ];
    Plain [ (KName "elementHeight", VNumber 10) ];
    Plain [ (KName "node", VString "#gantt-chart");
            (KName "activities", VRef 8);
            (KName "data", VRef 12);
            (KName "xAxis", VRef 17) ];
    Array [VRef 9; VRef 10; VRef 11];
    Plain [ (KName "name", VString "John");
            (KName "description", VString "John's schedule") ];
    Plain [ (KName "name", VString "Bob") ];
    Plain [ (KName "name", VString "Jane");
            (KName "description", VString "Jane's schedule") ];
    Array [VRef 13; VRef 14; VRef 15; VRef 16];
    Readme.event_object "John" "Work" "rgb(200, 200, 200)"
      (Readme.at_time 7 0) (Readme.at_time 15 0);
    Readme.event_object "Jane" "Work" "rgb(200, 100, 100)"
      (Readme.at_time 9 0) (Readme.at_time 17 30);
    Readme.event_object "Bob" "School" "rgb(200, 200, 100)"
      (Readme.at_time 8 0) (Readme.at_time 14 30);
    Readme.event_object "Bob" "Soccer" "rgb(200, 200, 100)"
      (Readme.at_time 15 0) (Readme.at_time 16 30);
    Plain [ (KName "height", VNumber 40) ];
    Plain [ (KName "data", VUndefined) ] ].

(** d3.ganttDiagram before init. *)
Definition ganttDiagram : widget :=
  {| defaultParameters := 0%nat; params := VUndefined |}.

End DiagramSample.

(* ===================================================================== *)
(** ** More trees of the merge examples                                   *)
(* ===================================================================== *)

Module MergeSample.

(** The trees [Readme.merge_store] holds at 4 and at 6:
    [{width: 200, activities: ['John', 'Bob']}] and
    [{activities: ['Jane']}]. *)
Definition defaults_activities : ltree :=
  Eval vm_compute in tree_at 3 Readme.merge_store (VRef 4).

Definition overrides_activities : ltree :=
  Eval vm_compute in tree_at 3 Readme.merge_store (VRef 6).

End MergeSample.

(* ===================================================================== *)
(** ** A call of init with a data point that is null                      *)
(* ===================================================================== *)

Module NullSample.

Open Scope string_scope.

(** The defaults of d3.ganttChart at 0 to 5, then the argument
    [{data: [{...}, null]}] at 6, its array at 7 and its data point at 8. *)
Definition store : heap :=
  (GanttChartInit.defaults_store 1465160000000 ++
   [ Plain [ (KName "data", VRef 7) ];
     Array [VRef 8; VNull];
     Readme.event_object "John" "Work" "rgb(200, 200, 200)"
       (Readme.at_time 7 0) (Readme.at_time 15 0) ])%list.

Definition defaults_tree : ltree := Eval vm_compute in tree_at 3 store (VRef 0).
Definition argument_tree : ltree := Eval vm_compute in tree_at 3 store (VRef 6).

End NullSample.

(* ===================================================================== *)
(** ** d3.ganttChart: the tooltips of the y axis                          *)
(* ===================================================================== *)

Module Tooltips.

Import GanttChart.

(** The text the mousemove handler of initTooltips gives the tooltip for
    the datum [d] of a tick of the y axis:
<<
    .text(activities.find(function(x) { return x.name == d; }).description)
>>
    [find] yields undefined when no activity matches, and reading a
    property of undefined raises a TypeError; a missing description is
    [None]. *)
Definition mousemove_text (p : parameters) (d : string) : completion (option string) :=
  match List.find (fun x => bool_decide (name x = d)) (activities p) with
  | Some x => Normal (description x)
  | None => Throw TypeError
  end.

(** The data of the ticks [d3.axisLeft().scale(yAxisScale)] draws: the
    domain of the band scale. *)
Definition tick_data (p : parameters) : list string :=
  D3.domain (yAxisScale p).

End Tooltips.

(* ===================================================================== *)
(** ** Variations of the README's chart                                   *)
(* ===================================================================== *)

Module ChartSamples.

Import GanttChart.

Open Scope string_scope.

Definition with_activities (a : list activity_t) (p : parameters) : parameters :=
  {| node := node p; width := width p; height := height p;
     activities := a; data := data p;
     endTime := endTime p; startTime := startTime p;
     yAxis := yAxis p; xAxis := xAxis p |}.

Definition with_yAxis (y : YAxis.t) (p : parameters) : parameters :=
  {| node := node p; width := width p; height := height p;
     activities := activities p; data := data p;
     endTime := endTime p; startTime := startTime p;
     yAxis := y; xAxis := xAxis p |}.

(** The chart of the README with John listed a second time, after Jane. *)
Definition repeated : parameters :=
  with_activities
    (activities Readme.parameters_after_init ++
     [ {| name := "John"; description := Some "John again" |} ])
    Readme.parameters_after_init.

(** The chart of the README with [yAxis.dynamicHeight: false]: its height
    is the default 200. *)
Definition fixed : parameters :=
  with_yAxis {| YAxis.width := 50; YAxis.dynamicHeight := false;
                YAxis.elementHeight := 50 |}
    Readme.parameters_after_init.

(** The same chart with no activity. *)
Definition no_activity : parameters := with_activities [] fixed.

(** The same chart with a data point of an activity that is not listed. *)
Definition fixed_with_stray : parameters :=
  Readme.with_data (Readme.stray :: data fixed) fixed.

(** The chart of the README with a domain of one instant, 07:00. *)
Definition one_instant : parameters :=
  {| node := node Readme.parameters_after_init;
     width := 200; height := 200;
     activities := activities Readme.parameters_after_init;
     data := data Readme.parameters_one_instant;
     endTime := Readme.at_time 7 0;
     startTime := Readme.at_time 7 0;
     yAxis := yAxis Readme.parameters_after_init;
     xAxis := xAxis Readme.parameters_after_init |}.

End ChartSamples.


(* ===================================================================== *)
(** ** Array.prototype.sort                                               *)
(* ===================================================================== *)

Section SortFacts.
Context {A : Type} (cmp : A -> A -> option Q) (kf : A -> Q).

Lemma insert_sorted_perm x l : Permutation (insert_sorted cmp x l) (x :: l).
Proof.
  induction l as [|y l IH]; simpl; [reflexivity|].
  destruct (stays_before cmp x y); [reflexivity|].
  rewrite IH. apply perm_swap.
Qed.

Lemma sort_perm l : Permutation (sort cmp l) l.
Proof.
  induction l as [|x l IH]; simpl; [reflexivity|].
  rewrite insert_sorted_perm. by constructor.
Qed.

Lemma sort_length l : length (sort cmp l) = length l.
Proof. apply Permutation_length, sort_perm. Qed.

Lemma stays_before_keyed a b :
  cmp a b = Some (kf a - kf b) ->
  stays_before cmp a b = true <-> kf a <= kf b.
Proof.
  intros E. unfold stays_before. rewrite E, Qle_bool_iff. split; intros; lra.
Qed.

Lemma insert_sorted_ascending x l :
  keyed cmp kf (x :: l) -> ascending kf l -> ascending kf (insert_sorted cmp x l).
Proof.
  intros K S. induction S as [|y l S IH F]; simpl.
  - repeat constructor.
  - assert (Kxy : cmp x y = Some (kf x - kf y)).
    { apply K; [left | right; left]. }
    destruct (stays_before cmp x y) eqn:E.
    + apply stays_before_keyed in E; [|done].
      constructor; [by constructor|].
      constructor; [done|].
      eapply Forall_impl; [exact F|]. simpl. intros; lra.
    + assert (kf y <= kf x).
      { destruct (Qlt_le_dec (kf y) (kf x)) as [?|Hle]; [lra|].
        apply (stays_before_keyed _ _ Kxy) in Hle. congruence. }
      constructor.
      * apply IH. intros a b Ha Hb. apply K.
        -- apply elem_of_cons in Ha as [->|Ha]; [left | right; by right].
        -- apply elem_of_cons in Hb as [->|Hb]; [left | right; by right].
      * apply Forall_forall. intros z Hz.
        rewrite insert_sorted_perm in Hz.
        apply elem_of_cons in Hz as [->|Hz]; [done|].
        rewrite Forall_forall in F. by apply F.
Qed.

Lemma sort_ascending l : keyed cmp kf l -> ascending kf (sort cmp l).
Proof.
  induction l as [|x l IH]; intros K; simpl; [constructor|].
  apply insert_sorted_ascending.
  - intros a b Ha Hb. apply K.
    + apply elem_of_cons in Ha as [->|Ha]; [left|right; by rewrite <- (sort_perm l)].
    + apply elem_of_cons in Hb as [->|Hb]; [left|right; by rewrite <- (sort_perm l)].
  - apply IH. intros a b Ha Hb. apply K; by right.
Qed.

Lemma ascending_hd d l x : ascending kf l -> x ∈ l -> kf (hd d l) <= kf x.
Proof.
  intros S Hx. destruct S as [|y l S F]; [by apply elem_of_nil in Hx|].
  simpl. apply elem_of_cons in Hx as [->|Hx]; [lra|].
  rewrite Forall_forall in F. by apply F.
Qed.

Lemma ascending_last d l x : ascending kf l -> x ∈ l -> kf x <= kf (List.last l d).
Proof.
  intros S. revert x. induction S as [|y l S IH F]; intros x Hx.
  - by apply elem_of_nil in Hx.
  - destruct l as [|z l'].
    + apply list_elem_of_singleton in Hx as ->. simpl. lra.
    + change (List.last (y :: z :: l') d) with (List.last (z :: l') d).
      apply elem_of_cons in Hx as [->|Hx]; [|by apply IH].
      assert (kf y <= kf z) by (by inversion F).
      assert (kf z <= kf (List.last (z :: l') d)) by (apply IH; left).
      lra.
Qed.
End SortFacts.
Lemma minimum_of_spec l : l <> [] -> is_minimum (minimum_of l) l.
Proof.
  induction l as [|x l IH]; [done|]. intros _.
  destruct l as [|y l'].
  - split; [left|]. repeat constructor. simpl; lia.
  - destruct IH as [Hin Hall]; [done|].
    change (minimum_of (x :: y :: l')) with (Z.min x (minimum_of (y :: l'))).
    split.
    + destruct (Z.min_spec x (minimum_of (y :: l'))) as [[_ ->]|[_ ->]]; [left|by right].
    + constructor; [lia|]. eapply Forall_impl; [exact Hall|]. simpl. lia.
Qed.

Lemma maximum_of_spec l : l <> [] -> is_maximum (maximum_of l) l.
Proof.
  induction l as [|x l IH]; [done|]. intros _.
  destruct l as [|y l'].
  - split; [left|]. repeat constructor. simpl; lia.
  - destruct IH as [Hin Hall]; [done|].
    change (maximum_of (x :: y :: l')) with (Z.max x (maximum_of (y :: l'))).
    split.
    + destruct (Z.max_spec x (maximum_of (y :: l'))) as [[_ ->]|[_ ->]]; [by right|left].
    + constructor; [lia|]. eapply Forall_impl; [exact Hall|]. simpl. lia.
Qed.

Lemma is_minimum_unique m m' l l' :
  Permutation l l' -> is_minimum m l -> is_minimum m' l' -> m = m'.
Proof.
  intros P [Hin Hall] [Hin' Hall'].
  rewrite Forall_forall in Hall, Hall'.
  rewrite <- P in Hin'. rewrite P in Hin.
  specialize (Hall _ Hin'). specialize (Hall' _ Hin). lia.
Qed.

Lemma is_maximum_unique m m' l l' :
  Permutation l l' -> is_maximum m l -> is_maximum m' l' -> m = m'.
Proof.
  intros P [Hin Hall] [Hin' Hall'].
  rewrite Forall_forall in Hall, Hall'.
  rewrite <- P in Hin'. rewrite P in Hin.
  specialize (Hall _ Hin'). specialize (Hall' _ Hin). lia.
Qed.

Lemma minimum_of_perm l l' : Permutation l l' -> minimum_of l = minimum_of l'.
Proof.
  intros P. destruct l as [|x l].
  - by apply Permutation_nil in P as ->.
  - assert (l' <> []) by (intros ->; by apply Permutation_sym, Permutation_nil in P).
    eapply is_minimum_unique; [exact P| |]; by apply minimum_of_spec.
Qed.

Lemma maximum_of_perm l l' : Permutation l l' -> maximum_of l = maximum_of l'.
Proof.
  intros P. destruct l as [|x l].
  - by apply Permutation_nil in P as ->.
  - assert (l' <> []) by (intros ->; by apply Permutation_sym, Permutation_nil in P).
    eapply is_maximum_unique; [exact P| |]; by apply maximum_of_spec.
Qed.

Lemma last_elem_of {A} (l : list A) d : l <> [] -> List.last l d ∈ l.
Proof.
  induction l as [|x l IH]; [done|]. intros _.
  destruct l as [|y l']; [left|].
  change (List.last (x :: y :: l') d) with (List.last (y :: l') d).
  right. by apply IH.
Qed.

Lemma hd_elem_of {A} (l : list A) d : l <> [] -> hd d l ∈ l.
Proof. destruct l; [done|]. intros _. left. Qed.

Lemma perm_elem_of {A} (l l' : list A) x : Permutation l l' -> x ∈ l -> x ∈ l'.
Proof. intros P H. by rewrite <- P. Qed.

Section SortedEnds.
Context {A : Type} (cmp : A -> A -> option Q) (g : A -> Z).

Lemma sort_nonempty l : l <> [] -> sort cmp l <> [].
Proof.
  intros Hl E. apply (f_equal length) in E. rewrite sort_length in E.
  destruct l; [done|discriminate].
Qed.

Lemma sort_last_max l d :
  keyed cmp (fun a => inject_Z (g a)) l -> l <> [] ->
  g (List.last (sort cmp l) d) = maximum_of (map g l).
Proof.
  intros K Hl.
  eapply is_maximum_unique; [reflexivity| |apply maximum_of_spec; by destruct l].
  split.
  - apply list_elem_of_fmap. exists (List.last (sort cmp l) d). split; [done|].
    apply (perm_elem_of (sort cmp l)); [apply sort_perm|].
    by apply last_elem_of, sort_nonempty.
  - apply Forall_forall. intros z Hz.
    apply list_elem_of_fmap in Hz as (a & -> & Ha).
    rewrite Zle_Qle.
    apply (ascending_last (fun a => inject_Z (g a)) d (sort cmp l) a).
    + by apply sort_ascending.
    + apply (perm_elem_of l); [symmetry; apply sort_perm|done].
Qed.

Lemma sort_hd_min l d :
  keyed cmp (fun a => inject_Z (g a)) l -> l <> [] ->
  g (hd d (sort cmp l)) = minimum_of (map g l).
Proof.
  intros K Hl.
  eapply is_minimum_unique; [reflexivity| |apply minimum_of_spec; by destruct l].
  split.
  - apply list_elem_of_fmap. exists (hd d (sort cmp l)). split; [done|].
    apply (perm_elem_of (sort cmp l)); [apply sort_perm|].
    by apply hd_elem_of, sort_nonempty.
  - apply Forall_forall. intros z Hz.
    apply list_elem_of_fmap in Hz as (a & -> & Ha).
    rewrite Zle_Qle.
    apply (ascending_hd (fun a => inject_Z (g a)) d (sort cmp l) a).
    + by apply sort_ascending.
    + apply (perm_elem_of l); [symmetry; apply sort_perm|done].
Qed.
End SortedEnds.

Lemma sort_ext {A} (cmp cmp' : A -> A -> option Q) l :
  (forall a b, a ∈ l -> b ∈ l -> cmp a b = cmp' a b) -> sort cmp l = sort cmp' l.
Proof.
  induction l as [|x l IH]; intros E; simpl; [done|].
  rewrite <- IH by (intros; apply E; by right).
  assert (forall m, (forall b, b ∈ m -> b ∈ l) ->
                    insert_sorted cmp x m = insert_sorted cmp' x m) as Hins.
  { induction m as [|y m IHm]; intros Hm; simpl; [done|].
    unfold stays_before. rewrite (E x y) by (first [left | right; apply Hm; left]).
    rewrite IHm by (intros; apply Hm; by right). done. }
  apply Hins. intros b Hb. by apply (perm_elem_of (sort cmp l)); [apply sort_perm|].
Qed.


(* ===================================================================== *)
(** ** Reads and writes in the store                                      *)
(* ===================================================================== *)

Lemma lookup_update_prop_eq k v ps : lookup_prop k (update_prop k v ps) = Some v.
Proof.
  induction ps as [|[k' v'] ps IH]; simpl.
  - by rewrite decide_True.
  - destruct (decide (k = k')) as [->|Hne]; simpl.
    + by rewrite decide_True.
    + by rewrite decide_False.
Qed.

Lemma lookup_update_prop_ne k k' v ps :
  k <> k' -> lookup_prop k' (update_prop k v ps) = lookup_prop k' ps.
Proof.
  intros Hne. induction ps as [|[k0 v0] ps IH]; simpl.
  - by rewrite decide_False.
  - destruct (decide (k = k0)) as [->|Hne0]; simpl.
    + by rewrite !decide_False.
    + destruct (decide (k' = k0)); [done|apply IH].
Qed.

Lemma get_write_eq h l ps k v :
  h !! l = Some (Plain ps) -> get (write h l k v) (VRef l) k = v.
Proof.
  intros Hl. unfold write, get. rewrite Hl.
  rewrite list_lookup_insert_eq by (by eapply lookup_lt_Some).
  simpl. by rewrite lookup_update_prop_eq.
Qed.

Lemma get_write_ne_key h l ps k k' v x :
  h !! l = Some (Plain ps) -> k <> k' -> get (write h l k v) x k' = get h x k'.
Proof.
  intros Hl Hne. unfold write. rewrite Hl.
  destruct x; simpl; try done.
  destruct (decide (l = l0)) as [<-|Hll].
  - rewrite list_lookup_insert_eq by (by eapply lookup_lt_Some).
    rewrite Hl. simpl. by rewrite lookup_update_prop_ne.
  - by rewrite list_lookup_insert_ne.
Qed.

Lemma lookup_write_plain h l ps k v :
  h !! l = Some (Plain ps) -> write h l k v !! l = Some (Plain (update_prop k v ps)).
Proof.
  intros Hl. unfold write. rewrite Hl.
  by rewrite list_lookup_insert_eq by (by eapply lookup_lt_Some).
Qed.

Lemma lookup_write_ne h l l' k v : l <> l' -> write h l k v !! l' = h !! l'.
Proof.
  intros Hne. unfold write. destruct (h !! l); [|done].
  by rewrite list_lookup_insert_ne.
Qed.

Lemma get_store_array h d es es' x s :
  h !! d = Some (Array es) -> KName s <> length_key ->
  get (<[d := Array es']> h) x (KName s) = get h x (KName s).
Proof.
  intros Hd Hs. destruct x; simpl; try done.
  destruct (decide (d = l)) as [<-|Hne].
  - rewrite list_lookup_insert_eq by (by eapply lookup_lt_Some).
    rewrite Hd. simpl. by rewrite !decide_False.
  - by rewrite list_lookup_insert_ne.
Qed.


(* ===================================================================== *)
(** ** The time-domain block of init                                      *)
(* ===================================================================== *)

Lemma is_event_not_nullish h v : is_event h v -> is_nullish v = false.
Proof. intros [[s Hs] _]. by destruct v. Qed.

Lemma get_data_plain h p d :
  get h (VRef p) data_key = VRef d -> exists ps, h !! p = Some (Plain ps).
Proof.
  simpl. destruct (h !! p) as [[ps|vs]|]; [eauto|done|done].
Qed.

Lemma compare_by_events h field (gz : value -> Z) l :
  (forall v, v ∈ l -> get h v field = VDate (gz v)) ->
  keyed (compare_by field h) (fun a => inject_Z (gz a)) l.
Proof.
  intros H a b Ha Hb. unfold compare_by, minus.
  by rewrite (H a Ha), (H b Hb).
Qed.

Lemma is_event_start h v : is_event h v -> get h v start_key = VDate (start_of h v).
Proof. intros [[s Hs] _]. unfold start_of. by rewrite Hs. Qed.

Lemma is_event_end h v : is_event h v -> get h v end_key = VDate (end_of h v).
Proof. intros [_ [e He]]. unfold end_of. by rewrite He. Qed.

Lemma determine_time_domain_events h p d elems :
  get h (VRef p) data_key = VRef d ->
  h !! d = Some (Array elems) ->
  elems <> [] ->
  Forall (is_event h) elems ->
  exists h' sorted,
    determine_time_domain h p = Normal h' /\
    get h' (VRef p) startTime_key = VDate (minimum_of (map (start_of h) elems)) /\
    get h' (VRef p) endTime_key = VDate (maximum_of (map (end_of h) elems)) /\
    h' !! d = Some (Array sorted) /\
    Permutation sorted elems /\
    ascending (fun v => inject_Z (start_of h v)) sorted /\
    (forall v, get h' v start_key = get h v start_key) /\
    (forall v, get h' v end_key = get h v end_key) /\
    (forall l, l <> p -> l <> d -> h' !! l = h !! l).
Proof.
  intros Hdata Hd Hne Hev.
  destruct (get_data_plain _ _ _ Hdata) as [ps Hp].
  assert (Hpd : p <> d) by (intros ->; congruence).
  rewrite Forall_forall in Hev.
  unfold determine_time_domain. rewrite Hdata. simpl is_nullish. cbv iota.
  rewrite Hd. destruct elems as [|e0 es] eqn:Eelems; [done|]. rewrite <- Eelems in *.
  assert (existsb is_nullish elems = false) as ->.
  { apply not_true_is_false. intros Hex. apply existsb_exists in Hex as (v & Hv & Hn).
    apply list_elem_of_In in Hv. apply Hev, is_event_not_nullish in Hv. congruence. }
  set (by_end := sort (compare_by end_key h) elems).
  set (h1 := <[d := Array by_end]> h).
  set (h2 := write h1 p endTime_key (get h1 (List.last by_end VUndefined) end_key)).
  set (by_start := sort (compare_by start_key h2) by_end).
  set (h3 := <[d := Array by_start]> h2).
  assert (Hdlt : (d < length h)%nat) by (by eapply lookup_lt_Some).
  assert (H1p : h1 !! p = Some (Plain ps)).
  { unfold h1. by rewrite list_lookup_insert_ne. }
  assert (H1d : h1 !! d = Some (Array by_end)).
  { unfold h1. by rewrite list_lookup_insert_eq. }
  assert (H1get : forall v s, KName s <> length_key -> get h1 v (KName s) = get h v (KName s)).
  { intros. unfold h1. by eapply get_store_array. }
  assert (H2d : h2 !! d = Some (Array by_end)).
  { unfold h2. by rewrite lookup_write_ne. }
  pose proof (lookup_write_plain h1 p ps endTime_key
              (get h1 (List.last by_end VUndefined) end_key) H1p) as H2p.
  fold h2 in H2p.
  assert (H2get : forall v k, k <> endTime_key -> get h2 v k = get h1 v k).
  { intros. unfold h2. by eapply get_write_ne_key. }
  assert (H3p : h3 !! p = Some (Plain
            (update_prop endTime_key (get h1 (List.last by_end VUndefined) end_key) ps))).
  { unfold h3. by rewrite list_lookup_insert_ne. }
  assert (H3get : forall v s, KName s <> length_key -> get h3 v (KName s) = get h2 v (KName s)).
  { intros. unfold h3. by eapply get_store_array. }
  assert (Pend : Permutation by_end elems) by apply sort_perm.
  assert (Pstart : Permutation by_start elems).
  { unfold by_start. by rewrite sort_perm. }
  assert (Ebs : by_start = sort (compare_by start_key h) by_end).
  { apply sort_ext. intros a b _ _. unfold compare_by.
    unfold start_key. rewrite !H2get, !H1get; done. }
  exists (write h3 p startTime_key (get h3 (hd VUndefined by_start) start_key)), by_start.
  split; [done|].
  split.
  { erewrite get_write_eq by exact H3p.
    unfold start_key. rewrite H3get, H2get, H1get by done. fold start_key.
    rewrite is_event_start.
    2:{ apply Hev. apply (perm_elem_of by_start); [done|]. apply hd_elem_of.
        rewrite Ebs. apply sort_nonempty. by apply sort_nonempty. }
    f_equal. rewrite Ebs.
    rewrite (sort_hd_min _ (start_of h)).
    - apply minimum_of_perm. by apply Permutation_map.
    - apply compare_by_events. intros v Hv. apply is_event_start, Hev.
      by apply (perm_elem_of by_end).
    - by apply sort_nonempty. }
  split.
  { erewrite get_write_ne_key; [|exact H3p|done].
    unfold endTime_key. rewrite H3get by done. fold endTime_key.
    unfold h2. erewrite get_write_eq by exact H1p.
    unfold end_key. rewrite H1get by done. fold end_key.
    rewrite is_event_end.
    2:{ apply Hev. apply (perm_elem_of by_end); [done|].
        apply last_elem_of. by apply sort_nonempty. }
    f_equal. apply sort_last_max; [|done].
    apply compare_by_events. intros v Hv. by apply is_event_end, Hev. }
  split.
  { rewrite lookup_write_ne by done. unfold h3.
    rewrite list_lookup_insert_eq; [done|].
    unfold h2, write. rewrite H1p. rewrite length_insert. unfold h1. by rewrite length_insert. }
  split; [done|].
  split.
  { rewrite Ebs. apply sort_ascending.
    apply compare_by_events. intros v Hv. apply is_event_start, Hev.
    by apply (perm_elem_of by_end). }
  split; [|split].
  - intros v. erewrite get_write_ne_key; [|exact H3p|done].
    unfold start_key. by rewrite H3get, H2get, H1get.
  - intros v. erewrite get_write_ne_key; [|exact H3p|done].
    unfold end_key. by rewrite H3get, H2get, H1get.
  - intros l Hlp Hld. rewrite lookup_write_ne by done.
    unfold h3. rewrite list_lookup_insert_ne by done.
    unfold h2. rewrite lookup_write_ne by done.
    unfold h1. by rewrite list_lookup_insert_ne.
Qed.

(* ===================================================================== *)
(** ** What the deep extend leaves alone                                  *)
(* ===================================================================== *)

Section Frame.

Lemma elem_of_update_prop k v ps x :
  x ∈ map snd (update_prop k v ps) -> x = v \/ x ∈ map snd ps.
Proof.
  induction ps as [|[k' v'] ps IH]; simpl.
  - rewrite list_elem_of_singleton. auto.
  - destruct (decide (k = k')); simpl; rewrite !elem_of_cons.
    + intros [->|?]; auto.
    + intros [->|H]; auto. destruct (IH H); auto.
Qed.

Lemma elem_of_array_set i v vs x :
  x ∈ array_set i v vs -> x = v \/ x = VUndefined \/ x ∈ vs.
Proof.
  unfold array_set. destruct (i <? length vs)%nat.
  - intros H. apply list_elem_of_lookup in H as [j Hj].
    destruct (decide (i = j)) as [->|Hne].
    + destruct (decide (j < length vs)%nat).
      * rewrite list_lookup_insert_eq in Hj by done. injection Hj as <-. auto.
      * rewrite list_insert_ge in Hj by lia. right; right. by eapply list_elem_of_lookup_2.
    + rewrite list_lookup_insert_ne in Hj by done. right; right.
      by eapply list_elem_of_lookup_2.
  - rewrite !elem_of_app, list_elem_of_singleton.
    intros [?|[H|?]]; auto. apply elem_of_replicate in H as [-> _]. auto.
Qed.

Lemma values_of_set_own k v o x :
  x ∈ values_of (set_own k v o) -> x = v \/ x = VUndefined \/ x ∈ values_of o.
Proof.
  destruct o as [ps|vs], k as [s|i]; simpl.
  - intros H. apply elem_of_update_prop in H. tauto.
  - intros H. apply elem_of_update_prop in H. tauto.
  - auto.
  - apply elem_of_array_set.
Qed.

Lemma lookup_prop_elem_of k ps v : lookup_prop k ps = Some v -> v ∈ map snd ps.
Proof.
  induction ps as [|[k' v'] ps IH]; simpl; [done|].
  destruct (decide (k = k')).
  - intros [= ->]. left.
  - intros H. right. by apply IH.
Qed.

Lemma get_own_ref o k l : get_own o k = VRef l -> VRef l ∈ values_of o.
Proof.
  destruct o as [ps|vs], k as [s|i]; simpl.
  - destruct (lookup_prop (KName s) ps) eqn:E; simpl; [|done].
    intros ->. by eapply lookup_prop_elem_of.
  - destruct (lookup_prop (KIndex i) ps) eqn:E; simpl; [|done].
    intros ->. by eapply lookup_prop_elem_of.
  - by destruct (decide _).
  - destruct (vs !! i) eqn:E; simpl; [|done].
    intros ->. by eapply list_elem_of_lookup_2.
Qed.

Lemma get_ref h v k l :
  get h v k = VRef l -> exists l0 o, v = VRef l0 /\ h !! l0 = Some o /\ VRef l ∈ values_of o.
Proof.
  destruct v; simpl; try done.
  - destruct k; [by destruct (decide _)|]. unfold string_at. by destruct (String.get i s).
  - by destruct (decide _).
  - destruct (h !! l0) as [o|] eqn:E; [|done].
    intros H. exists l0, o. eauto using get_own_ref.
Qed.

Lemma length_write h l k v : length (write h l k v) = length h.
Proof. unfold write. destruct (h !! l); [by rewrite length_insert|done]. Qed.

Lemma lookup_write h l k v l' o :
  write h l k v !! l' = Some o ->
  (l' = l /\ exists o0, h !! l = Some o0 /\ o = set_own k v o0) \/ (h !! l' = Some o).
Proof.
  unfold write. destruct (h !! l) as [o0|] eqn:E; [|auto].
  destruct (decide (l = l')) as [<-|Hne].
  - rewrite list_lookup_insert_eq by (by eapply lookup_lt_Some).
    intros [= <-]. left. eauto.
  - rewrite list_lookup_insert_ne by done. auto.
Qed.

Lemma write_frame h l k v l' : l <> l' -> write h l k v !! l' = h !! l'.
Proof.
  intros Hne. unfold write. destruct (h !! l); [|done].
  by rewrite list_lookup_insert_ne.
Qed.

(** Storing into an object of the region a value that stays in the region. *)
Lemma write_preserves h R l k v :
  well_formed h -> closed h R -> R l ->
  (forall l', v = VRef l' -> R l' /\ (l' < length h)%nat) ->
  well_formed (write h l k v) /\ closed (write h l k v) R.
Proof.
  intros Hwf Hcl Hl Hv. split.
  - intros l1 o l' Hl1 Hin. rewrite length_write.
    apply lookup_write in Hl1 as [(-> & o0 & Ho0 & ->)|Hl1].
    + apply values_of_set_own in Hin as [Hin|[Hin|Hin]]; [|done|].
      * symmetry in Hin. by apply Hv in Hin as [_ ?].
      * by eapply Hwf.
    + by eapply Hwf.
  - intros l1 o l' HR Hl1 Hin.
    apply lookup_write in Hl1 as [(-> & o0 & Ho0 & ->)|Hl1].
    + apply values_of_set_own in Hin as [Hin|[Hin|Hin]]; [|done|].
      * symmetry in Hin. by apply Hv in Hin as [? _].
      * by eapply Hcl.
    + by eapply Hcl.
Qed.

Lemma alloc_preserves h R o :
  well_formed h -> closed h R -> (forall l', VRef l' ∉ values_of o) ->
  well_formed (h ++ [o]) /\ closed (h ++ [o]) R.
Proof.
  intros Hwf Hcl Ho. split.
  - intros l1 o1 l' Hl1 Hin. rewrite length_app. simpl.
    destruct (decide (l1 < length h)%nat).
    + rewrite lookup_app_l in Hl1 by done. specialize (Hwf _ _ _ Hl1 Hin). lia.
    + rewrite lookup_app_r in Hl1 by lia.
      destruct (l1 - length h)%nat; [|done]. injection Hl1 as <-. by apply Ho in Hin.
  - intros l1 o1 l' HR Hl1 Hin.
    destruct (decide (l1 < length h)%nat).
    + rewrite lookup_app_l in Hl1 by done. by eapply Hcl.
    + rewrite lookup_app_r in Hl1 by lia.
      destruct (l1 - length h)%nat; [|done]. injection Hl1 as <-. by apply Ho in Hin.
Qed.

Lemma container_kind_ref h v b : JQuery.container_kind h v = Some b -> exists l, v = VRef l /\ (l < length h)%nat.
Proof.
  destruct v; simpl; try done. destruct (h !! l) eqn:E; [|done].
  intros _. exists l. split; [done|]. by eapply lookup_lt_Some.
Qed.

Lemma container_kind_none_wf h v k l0 :
  well_formed h -> JQuery.container_kind h (get h v k) = None -> get h v k <> VRef l0.
Proof.
  intros Hwf Hnone Hget.
  destruct (get_ref _ _ _ _ Hget) as (l1 & o & -> & Hl1 & Hin).
  specialize (Hwf _ _ _ Hl1 Hin).
  rewrite Hget in Hnone. simpl in Hnone.
  apply lookup_lt_is_Some in Hwf as [o' Ho']. rewrite Ho' in Hnone. by destruct o'.
Qed.

Lemma frame_inv_refl h R : well_formed h -> closed h R -> frame_inv h R h.
Proof. by constructor. Qed.

Lemma frame_inv_trans h0 h1 h2 R :
  frame_inv h0 R h1 -> frame_inv h1 R h2 -> frame_inv h0 R h2.
Proof.
  intros [L1 F1 W1 C1] [L2 F2 W2 C2]. constructor; [lia| |done|done].
  intros l Hl. by rewrite F2, F1.
Qed.

Lemma foldM_inv {A S} (f : S -> A -> option S) (P : S -> Prop) l :
  forall s s', (forall s a s', P s -> f s a = Some s' -> P s') ->
  P s -> foldM f l s = Some s' -> P s'.
Proof.
  induction l as [|a l IH]; intros s s' Hf Hs; simpl.
  - by intros [= <-].
  - destruct (f s a) as [s1|] eqn:E; [|done]. eauto.
Qed.

Lemma extend_frame n : forall h target options h' (R : nat -> Prop),
  (forall l, (length h <= l)%nat -> R l) ->
  well_formed h -> closed h R -> R target ->
  JQuery.extend n h target options = Some h' ->
  frame_inv h R h'.
Proof.
  induction n as [|n IH]; intros h target options h' R Hfresh Hwf Hcl Ht; [done|].
  simpl. destruct (is_nullish options); [intros [= <-]; by apply frame_inv_refl|].
  apply (foldM_inv _ (fun hi => frame_inv h R hi)); [|by apply frame_inv_refl].
  intros hi name hi' Hinv. unfold JQuery.extend_step.
  destruct Hinv as [Li Fi Wi Ci].
  assert (Hfresh_i : forall l, (length hi <= l)%nat -> R l) by (intros; apply Hfresh; lia).
  destruct (same_ref target (get hi options name)); [intros [= <-]; by constructor|].
  destruct (JQuery.container_kind hi (get hi options name)) as [is_array|] eqn:Ekind.
  - destruct (JQuery.choose_clone hi is_array (get hi (VRef target) name))
      as [h1 clone] eqn:Eclone.
    assert (frame_inv hi R h1 /\ R clone /\ (clone < length h1)%nat) as ([L1 F1 W1 C1] & Rclone & Hclone).
    { unfold JQuery.choose_clone in Eclone.
      assert (frame_inv hi R (hi ++ [JQuery.empty_container is_array]) /\
              R (length hi) /\ (length hi < length (hi ++ [JQuery.empty_container is_array]))%nat) as Halloc.
      { destruct (alloc_preserves hi R (JQuery.empty_container is_array) Wi Ci) as [? ?].
        { intros l' Hin. destruct is_array; simpl in Hin; by apply elem_of_nil in Hin. }
        split; [|split; [by apply Hfresh_i|rewrite length_app; simpl; lia]].
        constructor; [rewrite length_app; lia| |done|done].
        intros l Hl. apply lookup_app_l.
        destruct (decide (l < length hi)%nat); [done|]. exfalso. apply Hl, Hfresh_i. lia. }
      destruct (get hi (VRef target) name) as [| | | | | | |s] eqn:Esrc;
        try (injection Eclone as <- <-; exact Halloc).
      destruct (decide _) as [Hk|Hk]; [|injection Eclone as <- <-; exact Halloc].
      injection Eclone as <- <-.
      split; [by apply frame_inv_refl|].
      apply container_kind_ref in Hk as (l & [= <-] & Hlt).
      split; [|done].
      destruct (get_ref _ _ _ _ Esrc) as (l1 & o & [= <-] & Hl1 & Hin).
      by eapply Ci. }
    destruct (JQuery.extend n h1 clone (get hi options name)) as [h2|] eqn:Erec; [|done].
    intros [= <-].
    apply (IH h1 clone _ h2 R) in Erec as [L2 F2 W2 C2]; try done.
    2:{ intros l Hl. apply Hfresh_i. lia. }
    destruct (write_preserves h2 R target name (VRef clone) W2 C2 Ht) as [W3 C3].
    { intros l' [= <-]. split; [done|lia]. }
    constructor; [rewrite length_write; lia| |done|done].
    intros l Hl. rewrite write_frame by (intros <-; done).
    by rewrite F2, F1, Fi.
  - destruct (is_undefined (get hi options name)); [intros [= <-]; by constructor|].
    intros [= <-].
    destruct (write_preserves hi R target name (get hi options name) Wi Ci Ht) as [W3 C3].
    { intros l' Hl'. exfalso. by eapply container_kind_none_wf. }
    constructor; [rewrite length_write; lia| |done|done].
    intros l Hl. rewrite write_frame by (intros <-; done). by apply Fi.
Qed.

End Frame.

Section InitFrame.

Lemma determine_time_domain_frame h p h' (R : nat -> Prop) :
  closed h R -> R p ->
  determine_time_domain h p = Normal h' ->
  forall l, ~ R l -> h' !! l = h !! l.
Proof.
  intros Hcl Hp. unfold determine_time_domain.
  destruct (is_nullish (get h (VRef p) data_key)); [done|].
  destruct (get h (VRef p) data_key) as [| | | | | | |d] eqn:Edata;
    try (destruct (to_number _) as [len|]; [destruct (Qle_bool len 0)|];
         intros [= <-]; done).
  assert (Rd : R d).
  { destruct (get_ref _ _ _ _ Edata) as (l1 & o & [= <-] & Hl1 & Hin). by eapply Hcl. }
  destruct (h !! d) as [[ps|[|e es]]|] eqn:Ed;
    try (destruct (to_number _) as [len|]; [destruct (Qle_bool len 0)|];
         intros [= <-]; done).
  { by intros [= <-]. }
  destruct (existsb _ _); [done|].
  intros [= <-] l Hl.
  assert (l <> p) by (by intros ->).
  assert (l <> d) by (by intros ->).
  rewrite write_frame by done.
  rewrite list_lookup_insert_ne by done.
  rewrite write_frame by done.
  by rewrite list_lookup_insert_ne.
Qed.

Lemma init_frame fuel h w user h' w' (R : nat -> Prop) :
  (forall l, (length h <= l)%nat -> R l) ->
  well_formed h -> closed h R -> R (defaultParameters w) ->
  GanttChartInit.init fuel h w user = Normal (h', w') ->
  params w' = VRef (defaultParameters w) /\
  forall l, ~ R l -> h' !! l = h !! l.
Proof.
  intros Hfresh Hwf Hcl Ht. unfold GanttChartInit.init.
  destruct (JQuery.extend fuel h (defaultParameters w) user) as [h1|] eqn:E; [|done].
  destruct (determine_time_domain h1 (defaultParameters w)) as [h2| |] eqn:E2; try done.
  simpl. intros [= <- <-]. split; [done|].
  apply (extend_frame _ _ _ _ _ R) in E as [L1 F1 W1 C1]; try done.
  intros l Hl. rewrite <- F1 by done.
  by eapply determine_time_domain_frame.
Qed.

End InitFrame.

(* ===================================================================== *)
(** ** util.extend and the init of d3.ganttDiagram                        *)
(* ===================================================================== *)

Section Shallow.

Lemma insert_snoc {A} (h : list A) (x y : A) : <[length h := x]> (h ++ [y]) = h ++ [x].
Proof.
  rewrite insert_app_r_alt by done. by rewrite Nat.sub_diag.
Qed.

Lemma get_app h x v k :
  (forall l, v = VRef l -> (l < length h)%nat) -> get (h ++ [x]) v k = get h v k.
Proof.
  intros Hv. destruct v; try done. simpl.
  by rewrite lookup_app_l by (by apply Hv).
Qed.

Lemma copy_step_snoc h o k rs :
  (o < length h)%nat ->
  GanttDiagram.copy_step (VRef o) (length h) (h ++ [Plain rs]) k =
  h ++ [Plain (update_prop k (get h (VRef o) k) rs)].
Proof.
  intros Ho. unfold GanttDiagram.copy_step, write.
  rewrite lookup_app_r by done. rewrite Nat.sub_diag. cbn [lookup list_lookup set_own].
  rewrite insert_snoc. rewrite (get_app h (Plain rs) (VRef o)); [done|].
  by intros ? [= <-].
Qed.

Lemma fold_copy_step h o keys : forall rs,
  (o < length h)%nat ->
  fold_left (GanttDiagram.copy_step (VRef o) (length h)) keys (h ++ [Plain rs]) =
  h ++ [Plain (fold_left (fun rs k => update_prop k (get h (VRef o) k) rs) keys rs)].
Proof.
  induction keys as [|k keys IH]; intros rs Ho; [done|]. simpl.
  rewrite copy_step_snoc by done. by apply IH.
Qed.

Lemma lookup_fold_update_notin (f : key -> value) k keys : forall rs,
  k ∉ keys ->
  lookup_prop k (fold_left (fun rs k => update_prop k (f k) rs) keys rs) = lookup_prop k rs.
Proof.
  induction keys as [|a keys IH]; intros rs Hnin; [done|]. simpl.
  apply not_elem_of_cons in Hnin as [Hne Hnin].
  rewrite IH by done. by apply lookup_update_prop_ne.
Qed.

Lemma lookup_fold_update_in (f : key -> value) k keys : forall rs,
  k ∈ keys ->
  lookup_prop k (fold_left (fun rs k => update_prop k (f k) rs) keys rs) = Some (f k).
Proof.
  induction keys as [|a keys IH]; intros rs Hin; [by apply elem_of_nil in Hin|]. simpl.
  destruct (decide (k ∈ keys)) as [Hk|Hk]; [by apply IH|].
  apply elem_of_cons in Hin as [->|Hin]; [|done].
  rewrite lookup_fold_update_notin by done. apply lookup_update_prop_eq.
Qed.

Lemma lookup_prop_key k ps v : lookup_prop k ps = Some v -> k ∈ map fst ps.
Proof.
  induction ps as [|[k' v'] ps IH]; simpl; [done|].
  destruct (decide (k = k')) as [->|]; [left|]. intros H. right. by apply IH.
Qed.

(** What util.extend builds: a new object behind the store, holding for
    every key of [obj2] what [obj2] holds, and for the other keys of
    [obj1] what [obj1] holds. *)
Lemma util_extend_result h o1 o2 :
  (o1 < length h)%nat -> (o2 < length h)%nat ->
  exists rs,
    GanttDiagram.extend h (VRef o1) (VRef o2) = (h ++ [Plain rs], length h) /\
    (forall k, k ∈ enumerate h (VRef o2) -> lookup_prop k rs = Some (get h (VRef o2) k)) /\
    (forall k, k ∉ enumerate h (VRef o2) -> k ∈ enumerate h (VRef o1) ->
               lookup_prop k rs = Some (get h (VRef o1) k)).
Proof.
  intros H1 H2. unfold GanttDiagram.extend, alloc.
  assert (forall o hh, (o < length h)%nat ->
            enumerate (h ++ hh) (VRef o) = enumerate h (VRef o)) as Henum.
  { intros o hh Ho. simpl. by rewrite lookup_app_l. }
  rewrite Henum by done. rewrite fold_copy_step by done.
  rewrite Henum by done. rewrite fold_copy_step by done.
  eexists. split; [done|]. split.
  - intros k Hk. by apply lookup_fold_update_in.
  - intros k Hk2 Hk1. rewrite lookup_fold_update_notin by done.
    by apply lookup_fold_update_in.
Qed.

Lemma is_event_ref h v : is_event h v -> exists l, v = VRef l /\ (l < length h)%nat.
Proof.
  intros [[s Hs] _]. destruct v; try done.
  - simpl in Hs. exists l. split; [done|].
    destruct (h !! l) eqn:E; [by eapply lookup_lt_Some|done].
Qed.

Lemma is_event_app h x v : is_event h v -> is_event (h ++ [x]) v.
Proof.
  intros Hev. destruct (is_event_ref _ _ Hev) as (l & -> & Hl).
  destruct Hev as [[s Hs] [e He]]. split; [exists s|exists e];
    by rewrite get_app by (intros ? [= <-]; done).
Qed.

Lemma ascending_ext {A} (f g : A -> Q) l :
  (forall a, f a = g a) -> ascending f l -> ascending g l.
Proof.
  intros Hfg. unfold ascending. induction 1 as [|a l S IH F]; constructor; [done|].
  eapply Forall_impl; [exact F|]. simpl. intros b. by rewrite !Hfg.
Qed.

Lemma diagram_init_sorts_callers_array h w u ups d elems :
  (defaultParameters w < length h)%nat ->
  h !! u = Some (Plain ups) ->
  lookup_prop data_key ups = Some (VRef d) ->
  h !! d = Some (Array elems) ->
  elems <> [] ->
  Forall (is_event h) elems ->
  exists h' w' sorted,
    GanttDiagram.init h w (VRef u) = Normal (h', w') /\
    h' !! d = Some (Array sorted) /\
    Permutation sorted elems /\
    ascending (fun v => inject_Z (start_of h' v)) sorted.
Proof.
  intros Hdp Hu Hdata Hd Hne Hev.
  assert (Hult : (u < length h)%nat) by (by eapply lookup_lt_Some).
  assert (Hdlt : (d < length h)%nat) by (by eapply lookup_lt_Some).
  destruct (util_extend_result h (defaultParameters w) u Hdp Hult) as (rs & Hext & Hrs & _).
  unfold GanttDiagram.init. rewrite Hext.
  assert (Hkey : lookup_prop data_key rs = Some (VRef d)).
  { rewrite Hrs.
    - simpl. rewrite Hu. simpl. by rewrite Hdata.
    - simpl. rewrite Hu. simpl. by eapply lookup_prop_key. }
  destruct (determine_time_domain_events (h ++ [Plain rs]) (length h) d elems)
    as (h' & sorted & Hdet & _ & _ & Hsorted & Hperm & Hasc & Hstart & _); try done.
  - simpl. rewrite lookup_app_r by done. rewrite Nat.sub_diag. simpl. by rewrite Hkey.
  - by rewrite lookup_app_l.
  - eapply Forall_impl; [exact Hev|]. intros v. apply is_event_app.
  - rewrite Hdet. simpl. eexists _, _, sorted. split; [done|].
    split; [done|]. split; [done|].
    eapply ascending_ext; [|exact Hasc]. intros v. simpl. unfold start_of. by rewrite Hstart.
Qed.

End Shallow.

(* ===================================================================== *)
(** ** The deep extend on values                                          *)
(* ===================================================================== *)

Section TreeFacts.
Import Tree.

Lemma extend_object t fs :
  extend t (Object fs) = fold_left (fun t kc => merge_into kc.1 kc.2 t) fs t.
Proof.
  simpl. revert t. induction fs as [|[name copy] fs IH]; intros t; [done|].
  simpl. rewrite IH. done.
Qed.

Lemma extend_arr t cs : extend t (Arr cs) = merge_elems 0 cs t.
Proof.
  simpl. generalize 0%nat. revert t.
  induction cs as [|copy cs IH]; intros t i; [done|].
  simpl. rewrite IH. done.
Qed.

Lemma lookup_update_field_eq k c fs : lookup_field k (update_field k c fs) = Some c.
Proof.
  induction fs as [|[k' c'] fs IH]; simpl.
  - by rewrite decide_True.
  - destruct (decide (k = k')) as [->|Hne]; simpl.
    + by rewrite decide_True.
    + by rewrite decide_False.
Qed.

Lemma lookup_update_field_ne k k' c fs :
  k <> k' -> lookup_field k' (update_field k c fs) = lookup_field k' fs.
Proof.
  intros Hne. induction fs as [|[k0 c0] fs IH]; simpl.
  - by rewrite decide_False.
  - destruct (decide (k = k0)) as [->|Hne0]; simpl.
    + by rewrite !decide_False.
    + destruct (decide (k' = k0)); [done|apply IH].
Qed.

Lemma arr_set_lookup_eq i c ts : arr_set i c ts !! i = Some c.
Proof.
  unfold arr_set. destruct (i <? length ts)%nat eqn:E.
  - apply Nat.ltb_lt in E. by rewrite list_lookup_insert_eq.
  - apply Nat.ltb_ge in E.
    rewrite lookup_app_r by done.
    rewrite lookup_app_r by (by rewrite length_replicate).
    rewrite length_replicate. by rewrite Nat.sub_diag.
Qed.

Lemma arr_set_get_ne i j c ts :
  i <> j -> default undefined (arr_set i c ts !! j) = default undefined (ts !! j).
Proof.
  intros Hne. unfold arr_set. destruct (i <? length ts)%nat eqn:E.
  - by rewrite list_lookup_insert_ne.
  - apply Nat.ltb_ge in E.
    destruct (decide (j < length ts)%nat) as [Hj|Hj].
    + by rewrite lookup_app_l.
    + rewrite (lookup_ge_None_2 ts j) by lia.
      rewrite lookup_app_r by lia.
      destruct (decide (j - length ts < i - length ts)%nat) as [Hlt|Hge].
      * rewrite lookup_app_l by (by rewrite length_replicate).
        by rewrite lookup_replicate_2.
      * rewrite lookup_app_r by (rewrite length_replicate; lia).
        rewrite length_replicate.
        destruct (j - length ts - (i - length ts))%nat as [|n] eqn:En; [lia|done].
Qed.

Lemma tget_tset_eq t k c : stores t k -> tget (tset k c t) k = c.
Proof.
  destruct t as [v|fs|ts], k as [s|i]; simpl; try done; intros _; unfold tget; simpl.
  - by rewrite lookup_update_field_eq.
  - by rewrite lookup_update_field_eq.
  - by rewrite arr_set_lookup_eq.
Qed.

Lemma tget_tset_ne t k k' c : k <> k' -> tget (tset k c t) k' = tget t k'.
Proof.
  intros Hne. destruct t as [v|fs|ts], k as [s|i]; simpl; try done; unfold tget; simpl.
  - by rewrite lookup_update_field_ne.
  - by rewrite lookup_update_field_ne.
  - destruct k' as [s'|j]; [done|]. simpl. apply arr_set_get_ne. congruence.
Qed.

Lemma stores_tset t k c k' : stores t k' -> stores (tset k c t) k'.
Proof. destruct t, k, k'; simpl; done. Qed.

Lemma stores_merge_into t k c k' : stores t k' -> stores (merge_into k c t) k'.
Proof.
  unfold merge_into. destruct c as [v| |]; [destruct (is_undefined v)|..]; auto using stores_tset.
Qed.

Lemma tget_merge_into_eq t k c : stores t k -> tget (merge_into k c t) k = merged (tget t k) c.
Proof.
  intros Hs. unfold merge_into, merged.
  destruct c as [v|fs|cs]; [destruct (is_undefined v); [done|]|..]; by rewrite tget_tset_eq.
Qed.

Lemma tget_merge_into_ne t k k' c : k <> k' -> tget (merge_into k c t) k' = tget t k'.
Proof.
  intros Hne. unfold merge_into.
  destruct c as [v|fs|cs]; [destruct (is_undefined v); [done|]|..]; by rewrite tget_tset_ne.
Qed.

Lemma tget_fold_object fs t k :
  NoDup (map fst fs) -> stores t k ->
  tget (fold_left (fun t kc => merge_into kc.1 kc.2 t) fs t) k =
  merged (tget t k) (default undefined (lookup_field k fs)).
Proof.
  revert t. induction fs as [|[name copy] fs IH]; intros t Hnd Hs; simpl.
  - done.
  - apply NoDup_cons in Hnd as [Hnotin Hnd].
    destruct (decide (k = name)) as [->|Hne].
    + assert (lookup_field name fs = None) as Hnone.
      { clear -Hnotin. induction fs as [|[k' c'] fs IH]; simpl; [done|].
        simpl in Hnotin. apply not_elem_of_cons in Hnotin as [? ?].
        rewrite decide_False by done. by apply IH. }
      rewrite IH by auto using stores_merge_into.
      rewrite Hnone. simpl. by apply tget_merge_into_eq.
    + rewrite IH by auto using stores_merge_into.
      by rewrite tget_merge_into_ne.
Qed.

Lemma tget_merge_elems cs : forall i t k,
  stores t (KIndex k) ->
  tget (merge_elems i cs t) (KIndex k) =
  if decide (i <= k)%nat
  then merged (tget t (KIndex k)) (default undefined (cs !! (k - i)%nat))
  else tget t (KIndex k).
Proof.
  induction cs as [|copy cs IH]; intros i t k Hs; simpl.
  - by destruct (decide (i <= k)%nat).
  - rewrite IH by auto using stores_merge_into.
    destruct (decide (i <= k)%nat) as [Hle|Hgt].
    + destruct (decide (k = i)) as [->|Hne].
      * rewrite decide_False by lia. rewrite Nat.sub_diag. simpl.
        by apply tget_merge_into_eq.
      * rewrite decide_True by lia.
        rewrite tget_merge_into_ne by congruence.
        replace (k - i)%nat with (S (k - S i)) by lia. done.
    + rewrite decide_False by lia.
      apply tget_merge_into_ne. intros [=]. lia.
Qed.

Lemma is_arr_tset k c ts : exists ts', tset k c (Arr ts) = Arr ts'.
Proof. destruct k; simpl; eauto. Qed.

Lemma is_arr_merge_into k c ts : exists ts', merge_into k c (Arr ts) = Arr ts'.
Proof.
  unfold merge_into.
  destruct c as [v| |]; [destruct (is_undefined v); [eauto|]|..]; apply is_arr_tset.
Qed.

Lemma is_arr_merge_elems cs : forall i ts, exists ts', merge_elems i cs (Arr ts) = Arr ts'.
Proof.
  induction cs as [|c cs IH]; intros i ts; simpl; [eauto|].
  destruct (is_arr_merge_into (KIndex i) c ts) as [ts' ->]. apply IH.
Qed.

Lemma wf_lookup_field fs k c :
  wf (Object fs) -> lookup_field k fs = Some c -> wf c.
Proof.
  intros [_ Hall]. induction fs as [|[k' c'] fs IH]; simpl; [done|].
  destruct Hall as [Hc Hall].
  destruct (decide (k = k')); [by intros [= <-]|by apply IH].
Qed.

Lemma wf_lookup_elem cs i c : wf (Arr cs) -> cs !! i = Some c -> wf c.
Proof.
  revert i. induction cs as [|c' cs IH]; intros i Hall; [done|].
  destruct Hall as [Hc Hall]. destruct i as [|i]; simpl.
  - by intros [= <-].
  - by apply IH.
Qed.

Lemma wf_tget O k : wf O -> wf (tget O k).
Proof.
  intros Hwf. unfold tget.
  destruct O as [v|fs|cs]; simpl; [done| |].
  - destruct (lookup_field k fs) eqn:E; [|done]. by eapply wf_lookup_field.
  - destruct k as [s|i]; [done|].
    destruct (cs !! i) eqn:E; [|done]. by eapply wf_lookup_elem.
Qed.

Lemma same_kind_clone_for src c : is_container c -> same_kind (clone_for src c) c = true.
Proof.
  unfold clone_for. destruct (same_kind src c) eqn:E; [done|].
  by destruct c.
Qed.

Lemma tget_leaf v k : tget (Leaf v) k = undefined.
Proof. done. Qed.

Lemma tget_path_undefined p : tget_path undefined p = undefined.
Proof. induction p as [|k p IH]; [done|]. simpl. apply IH. Qed.

Lemma tget_path_leaf v p : p <> [] -> tget_path (Leaf v) p = undefined.
Proof. destruct p as [|k p]; [done|]. intros _. simpl. apply tget_path_undefined. Qed.

(** At every level: what a key of the merge holds. *)
Lemma extend_get D O k :
  wf O -> same_kind D O = true ->
  tget (extend D O) k = merged (tget D k) (tget O k).
Proof.
  intros Hwf Hk. destruct D as [v|ds|ts], O as [w|fs|cs]; try done.
  - rewrite extend_object. destruct Hwf as [Hnd _].
    by rewrite tget_fold_object.
  - rewrite extend_arr. destruct k as [s|j].
    + destruct (is_arr_merge_elems cs 0 ts) as [ts' ->]. done.
    + rewrite tget_merge_elems by done. simpl. by rewrite Nat.sub_0_r.
Qed.

(** A defined leaf of the options is in the merge at the same path. *)
Lemma extend_keeps_option_leaf p : forall D O v,
  wf O -> same_kind D O = true -> v <> VUndefined -> p <> [] ->
  tget_path O p = Leaf v -> tget_path (extend D O) p = Leaf v.
Proof.
  induction p as [|k p IH]; intros D O v Hwf Hk Hv Hp Hleaf; [done|].
  simpl in *. rewrite extend_get by done.
  destruct (tget O k) as [w|fs|cs] eqn:EO.
  - destruct p as [|k' p'].
    + simpl in *. injection Hleaf as ->. simpl.
      destruct v; simpl; done.
    + rewrite tget_path_leaf in Hleaf by done. by injection Hleaf as <-.
  - destruct p as [|k' p']; [done|].
    unfold merged. apply IH; try done.
    + rewrite <- EO. by apply wf_tget.
    + by apply same_kind_clone_for.
  - destruct p as [|k' p']; [done|].
    unfold merged. apply IH; try done.
    + rewrite <- EO. by apply wf_tget.
    + by apply same_kind_clone_for.
Qed.

(** A path of the target that the options leave alone holds in the merge
    what it held in the target. *)
Lemma extend_keeps_spared p : forall D O,
  wf O -> same_kind D O = true -> spared O D p ->
  tget_path (extend D O) p = tget_path D p.
Proof.
  induction p as [|k p IH]; intros D O Hwf Hk Hsp; [inversion Hsp|].
  simpl. rewrite extend_get by done.
  inversion Hsp as [? ? ? ? Hu|? ? ? ? Hsame Hrest]; subst.
  - rewrite Hu. done.
  - destruct (tget O k) as [w|fs|cs] eqn:EO.
    + by destruct (tget D k).
    + unfold merged, clone_for. rewrite Hsame. apply IH; try done.
      rewrite <- EO. by apply wf_tget.
    + unfold merged, clone_for. rewrite Hsame. apply IH; try done.
      rewrite <- EO. by apply wf_tget.
Qed.

End TreeFacts.
(* ===================================================================== *)
(** ** The deep extend on the store computes the deep extend on values    *)
(* ===================================================================== *)

Section LocatedFacts.

Lemma ltree_ind' (P : ltree -> Prop)
  (Hleaf : forall v, P (LLeaf v))
  (Hobj : forall l fs, Forall (fun kc => P kc.2) fs -> P (LObject l fs))
  (Harr : forall l ts, Forall P ts -> P (LArr l ts)) :
  forall t, P t.
Proof.
  fix IH 1. intros [v|l fs|l ts].
  - apply Hleaf.
  - apply Hobj. induction fs as [|[k c] fs IHfs]; constructor; [apply IH|apply IHfs].
  - apply Harr. induction ts as [|c ts IHts]; constructor; [apply IH|apply IHts].
Qed.

Lemma elem_of_concat {A} (x : A) (ls : list (list A)) :
  x ∈ concat ls <-> exists l, x ∈ l /\ l ∈ ls.
Proof.
  rewrite list_elem_of_In, in_concat. split.
  - intros (l & Hl & Hx). exists l. by rewrite !list_elem_of_In.
  - intros (l & Hx & Hl). exists l. by rewrite <- !list_elem_of_In.
Qed.

Lemma elem_of_locs_object l fs x :
  x ∈ locs (LObject l fs) <-> x = l \/ exists kc, kc ∈ fs /\ x ∈ locs kc.2.
Proof.
  simpl. rewrite elem_of_cons. split; intros [?|H]; auto; right.
  - apply elem_of_concat in H as (ls & Hx & Hls).
    apply list_elem_of_fmap in Hls as (kc & -> & Hkc). eauto.
  - destruct H as (kc & Hkc & Hx). apply elem_of_concat.
    exists (locs kc.2). split; [done|]. apply list_elem_of_fmap. eauto.
Qed.

Lemma elem_of_locs_arr l ts x :
  x ∈ locs (LArr l ts) <-> x = l \/ exists c, c ∈ ts /\ x ∈ locs c.
Proof.
  simpl. rewrite elem_of_cons. split; intros [?|H]; auto; right.
  - apply elem_of_concat in H as (ls & Hx & Hls).
    apply list_elem_of_fmap in Hls as (c & -> & Hc). eauto.
  - destruct H as (c & Hc & Hx). apply elem_of_concat.
    exists (locs c). split; [done|]. apply list_elem_of_fmap. eauto.
Qed.

(** A representation only depends on the objects of its locations. *)
Lemma rep_frame h h' t :
  rep h t -> (forall l, l ∈ locs t -> h' !! l = h !! l) -> rep h' t.
Proof.
  induction t as [v|l fs IH|l ts IH] using ltree_ind'; intros Hrep Hsame.
  - inversion Hrep; subst. by constructor.
  - inversion Hrep as [|? ? Hl Hnd Hall|]; subst. constructor; [|done|].
    + rewrite Hsame; [done|]. apply elem_of_locs_object. auto.
    + rewrite Forall_forall in IH, Hall. apply Forall_forall. intros kc Hkc.
      apply IH; [done|by apply Hall|].
      intros x Hx. apply Hsame, elem_of_locs_object. eauto.
  - inversion Hrep as [| |? ? Hl Hall]; subst. constructor.
    + rewrite Hsame; [done|]. apply elem_of_locs_arr. auto.
    + rewrite Forall_forall in IH, Hall. apply Forall_forall. intros c Hc.
      apply IH; [done|by apply Hall|].
      intros x Hx. apply Hsame, elem_of_locs_arr. eauto.
Qed.

Lemma llookup_elem_of k c fs :
  NoDup (map fst fs) -> (k, c) ∈ fs -> llookup k fs = Some c.
Proof.
  induction fs as [|[k' c'] fs IH]; intros Hnd Hin; [by apply elem_of_nil in Hin|].
  simpl in *. apply NoDup_cons in Hnd as [Hnotin Hnd].
  apply elem_of_cons in Hin as [[= -> ->]|Hin].
  - by rewrite decide_True.
  - rewrite decide_False; [by apply IH|].
    intros ->. apply Hnotin. apply list_elem_of_fmap. by exists (k', c).
Qed.

Lemma lookup_prop_lvalue k fs :
  lookup_prop k (map (fun kc => (kc.1, lvalue kc.2)) fs) = lvalue <$> llookup k fs.
Proof.
  induction fs as [|[k' c'] fs IH]; simpl; [done|].
  by destruct (decide (k = k')).
Qed.

Lemma entries_keys_object l fs : map fst (entries (LObject l fs)) = map fst fs.
Proof. done. Qed.

Lemma entries_keys_arr l ts :
  map fst (entries (LArr l ts)) = map KIndex (seq 0 (length ts)).
Proof.
  simpl. change (map fst (imap (fun i c => (KIndex i, c)) ts))
    with (fst <$> imap (fun i c => (KIndex i, c)) ts).
  rewrite fmap_imap.
  change (map KIndex (seq 0 (length ts))) with (KIndex <$> seq 0 (length ts)).
  rewrite <- (imap_seq_0 ts KIndex). by apply imap_ext.
Qed.

Lemma NoDup_index_keys n : NoDup (map KIndex (seq 0 n)).
Proof.
  assert (Inj eq eq KIndex) by (by intros ? ? [= ->]).
  apply (NoDup_fmap_2 KIndex), NoDup_seq.
Qed.

Lemma foldr_max_ge (x : nat) l : x ∈ l -> (x <= foldr Nat.max 0 l)%nat.
Proof.
  induction l as [|y l IH]; [by intros H; apply elem_of_nil in H|].
  intros [->|H]%elem_of_cons; simpl; [lia|]. specialize (IH H). lia.
Qed.

Lemma elem_of_entries_arr l ts k c :
  (k, c) ∈ entries (LArr l ts) <-> exists i, k = KIndex i /\ ts !! i = Some c.
Proof.
  simpl. rewrite elem_of_lookup_imap. split.
  - intros (i & y & [= -> ->] & Hi). eauto.
  - intros (i & -> & Hi). eauto.
Qed.

(** What the store gives for the options: their keys in order, one value
    per key, each the value of the entry. *)
Lemma rep_entries h O :
  rep h O -> is_cont O ->
  enumerate h (VRef (root O)) = map fst (entries O) /\
  NoDup (map fst (entries O)) /\
  forall k c, (k, c) ∈ entries O ->
    get h (VRef (root O)) k = lvalue c /\ rep h c /\
    (forall x, x ∈ locs c -> x ∈ locs O) /\
    (depth c < depth O)%nat.
Proof.
  intros Hrep Hc. destruct O as [v|l fs|l ts]; [done| |].
  - inversion Hrep as [|? ? Hl Hnd Hall|]; subst. simpl root.
    split; [|split; [done|]].
    + simpl. rewrite Hl. simpl. rewrite map_map. done.
    + intros k c Hin. simpl entries in Hin. split; [|split; [|split]].
      * simpl. rewrite Hl. simpl. rewrite lookup_prop_lvalue.
        by rewrite (llookup_elem_of k c fs).
      * rewrite Forall_forall in Hall. by apply (Hall (k, c)).
      * intros x Hx. apply elem_of_locs_object. right. by exists (k, c).
      * simpl. apply Nat.lt_succ_r, foldr_max_ge.
        apply list_elem_of_fmap. by exists (k, c).
  - inversion Hrep as [| |? ? Hl Hall]; subst. simpl root.
    split; [|split].
    + rewrite entries_keys_arr. simpl. rewrite Hl. simpl. by rewrite length_map.
    + rewrite entries_keys_arr. apply NoDup_index_keys.
    + intros k c Hin. apply elem_of_entries_arr in Hin as (i & -> & Hi).
      assert (c ∈ ts) by (by eapply list_elem_of_lookup_2).
      split; [|split; [|split]].
      * simpl. rewrite Hl. simpl. rewrite list_lookup_fmap, Hi. done.
      * rewrite Forall_forall in Hall. by apply Hall.
      * intros x Hx. apply elem_of_locs_arr. right. by exists c.
      * simpl. apply Nat.lt_succ_r, foldr_max_ge. by apply list_elem_of_fmap_2.
Qed.

Lemma NoDup_concat_elem {A} (ls : list (list A)) l :
  NoDup (concat ls) -> l ∈ ls -> NoDup l.
Proof.
  induction ls as [|l' ls IH]; [by intros _ H; apply elem_of_nil in H|].
  simpl. intros [H1 [_ H2]]%NoDup_app [->|Hin]%elem_of_cons; auto.
Qed.

Lemma children_locs O k c :
  (k, c) ∈ entries O -> locs c ∈ map locs (map snd (entries O)).
Proof.
  intros H. apply list_elem_of_fmap. exists c. split; [done|].
  apply list_elem_of_fmap. by exists (k, c).
Qed.

Lemma locs_container O :
  is_cont O -> locs O = root O :: concat (map locs (map snd (entries O))).
Proof.
  destruct O as [v|l fs|l ts]; [done| |]; intros _; simpl; f_equal; f_equal.
  - by rewrite map_map.
  - change (map snd (imap (fun i c => (KIndex i, c)) ts))
      with (snd <$> imap (fun i c => (KIndex i, c)) ts).
    rewrite fmap_imap.
    rewrite (imap_ext _ (const id) ts) by done.
    by rewrite imap_const, list_fmap_id.
Qed.

Lemma entries_NoDup O k c :
  is_cont O -> NoDup (locs O) -> (k, c) ∈ entries O ->
  NoDup (locs c) /\ root O ∉ locs c.
Proof.
  intros Hc Hnd Hin. rewrite locs_container in Hnd by done.
  apply NoDup_cons in Hnd as [Hroot Hnd]. split.
  - eapply NoDup_concat_elem; [exact Hnd|]. by eapply children_locs.
  - intros Hx. apply Hroot, elem_of_concat. exists (locs c).
    split; [done|]. by eapply children_locs.
Qed.

Lemma container_kind_rep h c :
  rep h c ->
  JQuery.container_kind h (lvalue c) =
  match c with LLeaf _ => None | LObject _ _ => Some false | LArr _ _ => Some true end.
Proof.
  intros Hrep. inversion Hrep as [v Hv|? ? Hl _ _|? ? Hl _]; subst; simpl.
  - destruct v; try done. by destruct (Hv l).
  - by rewrite Hl.
  - by rewrite Hl.
Qed.

Lemma merge_elems_entries cs : forall i t,
  Tree.merge_elems i cs t =
  fold_left (fun t kc => Tree.merge_into kc.1 kc.2 t)
            (imap (fun j c => (KIndex (i + j), c)) cs) t.
Proof.
  induction cs as [|c cs IH]; intros i t; [done|].
  simpl. rewrite Nat.add_0_r. rewrite IH. f_equal.
  apply imap_ext. intros j x _. simpl. f_equal. f_equal. lia.
Qed.

Lemma extend_entries T O :
  is_cont O ->
  Tree.extend T (erase O) =
  fold_left (fun t kc => Tree.merge_into kc.1 kc.2 t)
            (map (fun kc => (kc.1, erase kc.2)) (entries O)) T.
Proof.
  destruct O as [v|l fs|l ts]; [done| |]; intros _.
  - simpl erase. by rewrite extend_object.
  - simpl erase. rewrite extend_arr, merge_elems_entries. f_equal.
    simpl entries.
    change (map (fun kc => (kc.1, erase kc.2)) (imap (fun i c => (KIndex i, c)) ts))
      with ((fun kc : key * ltree => (kc.1, erase kc.2)) <$> imap (fun i c => (KIndex i, c)) ts).
    rewrite fmap_imap.
    change (map erase ts) with (erase <$> ts). rewrite imap_fmap.
    by apply imap_ext.
Qed.

Lemma get_target h T k :
  rep h T -> lstores T k ->
  get h (VRef (root T)) k = default VUndefined (lvalue <$> lfield T k).
Proof.
  intros Hrep Hs. destruct T as [v|l fs|l ts]; [done| |].
  - inversion Hrep as [|? ? Hl _ _|]; subst. simpl. rewrite Hl. simpl.
    by rewrite lookup_prop_lvalue.
  - destruct k as [s|i]; [done|].
    inversion Hrep as [| |? ? Hl _]; subst. simpl. rewrite Hl. simpl.
    by rewrite list_lookup_fmap.
Qed.

Lemma lookup_field_erase k fs :
  Tree.lookup_field k (map (fun kc => (kc.1, erase kc.2)) fs) = erase <$> llookup k fs.
Proof.
  induction fs as [|[k' c'] fs IH]; simpl; [done|].
  by destruct (decide (k = k')).
Qed.

Lemma tget_erase T k :
  Tree.tget (erase T) k = default Tree.undefined (erase <$> lfield T k).
Proof.
  unfold Tree.tget. destruct T as [v|l fs|l ts]; simpl; [done| |].
  - by rewrite lookup_field_erase.
  - destruct k as [s|i]; [done|].
    change (map erase ts) with (erase <$> ts). by rewrite list_lookup_fmap.
Qed.

Lemma update_field_erase k c fs :
  Tree.update_field k (erase c) (map (fun kc => (kc.1, erase kc.2)) fs) =
  map (fun kc => (kc.1, erase kc.2)) (lupdate k c fs).
Proof.
  induction fs as [|[k' c'] fs IH]; simpl; [done|].
  destruct (decide (k = k')); simpl; [done|]. by rewrite IH.
Qed.

Lemma arr_set_erase i c ts :
  Tree.arr_set i (erase c) (map erase ts) = map erase (larr_set i c ts).
Proof.
  unfold Tree.arr_set, larr_set. rewrite length_map.
  change (map erase) with (fmap (M:=list) erase).
  destruct (i <? length ts)%nat.
  - by rewrite list_fmap_insert.
  - rewrite !fmap_app, fmap_replicate. done.
Qed.

Lemma tset_erase k c T : Tree.tset k (erase c) (erase T) = erase (lset k c T).
Proof.
  destruct T as [v|l fs|l ts]; simpl.
  - by destruct k.
  - by rewrite update_field_erase.
  - destruct k as [s|i]; [done|]. simpl. by rewrite arr_set_erase.
Qed.

Lemma update_prop_lvalue k c fs :
  update_prop k (lvalue c) (map (fun kc => (kc.1, lvalue kc.2)) fs) =
  map (fun kc => (kc.1, lvalue kc.2)) (lupdate k c fs).
Proof.
  induction fs as [|[k' c'] fs IH]; simpl; [done|].
  destruct (decide (k = k')); simpl; [done|]. by rewrite IH.
Qed.

Lemma array_set_lvalue i c ts :
  array_set i (lvalue c) (map lvalue ts) = map lvalue (larr_set i c ts).
Proof.
  unfold array_set, larr_set. rewrite length_map.
  change (map lvalue) with (fmap (M:=list) lvalue).
  destruct (i <? length ts)%nat.
  - by rewrite list_fmap_insert.
  - rewrite !fmap_app, fmap_replicate. done.
Qed.

Lemma lupdate_keys k c fs :
  NoDup (map fst fs) -> NoDup (map fst (lupdate k c fs)).
Proof.
  induction fs as [|[k' c'] fs IH]; simpl.
  - intros _. apply NoDup_singleton.
  - intros [Hnotin Hnd]%NoDup_cons. destruct (decide (k = k')) as [->|Hne]; simpl.
    + by apply NoDup_cons.
    + apply NoDup_cons. split; [|by apply IH].
      intros Hin. apply Hnotin. clear -Hin Hne.
      induction fs as [|[k0 c0] fs IH]; simpl in *.
      * apply list_elem_of_singleton in Hin. congruence.
      * destruct (decide (k = k0)) as [->|]; simpl in Hin.
        -- apply elem_of_cons in Hin as [?|?]; [congruence|by right].
        -- apply elem_of_cons in Hin as [->|?]; [left|right; by apply IH].
Qed.

Lemma elem_of_lupdate k c fs kc :
  kc ∈ lupdate k c fs -> kc = (k, c) \/ kc ∈ fs.
Proof.
  induction fs as [|[k' c'] fs IH]; simpl.
  - intros ->%list_elem_of_singleton. by left.
  - destruct (decide (k = k')); intros [->|H]%elem_of_cons; auto.
    + right. by right.
    + right. left.
    + destruct (IH H); auto. right. by right.
Qed.

Lemma elem_of_larr_set i c ts x :
  x ∈ larr_set i c ts -> x = c \/ x = LLeaf VUndefined \/ x ∈ ts.
Proof.
  unfold larr_set. destruct (i <? length ts)%nat eqn:E.
  - intros H. apply list_elem_of_lookup in H as [j Hj].
    destruct (decide (i = j)) as [->|Hne].
    + apply Nat.ltb_lt in E. rewrite list_lookup_insert_eq in Hj by done.
      injection Hj as <-. auto.
    + rewrite list_lookup_insert_ne in Hj by done. right; right.
      by eapply list_elem_of_lookup_2.
  - rewrite !elem_of_app, list_elem_of_singleton.
    intros [?|[H|?]]; auto. apply elem_of_replicate in H as [-> _]. auto.
Qed.

Lemma lupdate_locs k c fs :
  exists X Z,
    concat (map (fun kc => locs kc.2) fs) =
      X ++ match llookup k fs with Some old => locs old | None => [] end ++ Z /\
    concat (map (fun kc => locs kc.2) (lupdate k c fs)) = X ++ locs c ++ Z /\
    forall kc, kc ∈ lupdate k c fs ->
      kc.2 = c \/ (kc ∈ fs /\ forall x, x ∈ locs kc.2 -> x ∈ X \/ x ∈ Z).
Proof.
  induction fs as [|[k' c'] fs (X & Z & IH1 & IH2 & IH3)]; simpl.
  - exists [], []. rewrite app_nil_r. split; [done|]. split; [done|].
    intros kc ->%list_elem_of_singleton. by left.
  - destruct (decide (k = k')) as [->|Hne]; simpl.
    + exists [], (concat (map (fun kc => locs kc.2) fs)).
      split; [done|]. split; [done|].
      intros kc [->|Hin]%elem_of_cons; [by left|]. right. split; [by right|].
      intros x Hx. right. apply elem_of_concat. exists (locs kc.2).
      split; [done|]. apply list_elem_of_fmap. by exists kc.
    + exists (locs c' ++ X), Z. rewrite IH1, IH2.
      split; [by rewrite <- !app_assoc|]. split; [by rewrite <- !app_assoc|].
      intros kc [->|Hin]%elem_of_cons.
      * right. split; [by left|]. intros x Hx. left. apply elem_of_app. by left.
      * destruct (IH3 kc Hin) as [?|[? Hsub]]; [by left|]. right.
        split; [by right|]. intros x Hx. rewrite elem_of_app.
        destruct (Hsub x Hx); auto.
Qed.

Lemma concat_locs_pad n : concat (map locs (replicate n (LLeaf VUndefined))) = [].
Proof. induction n as [|n IH]; [done|]. simpl. exact IH. Qed.

Lemma elem_of_concat_locs (ts : list ltree) s x :
  s ∈ ts -> x ∈ locs s -> x ∈ concat (map locs ts).
Proof.
  intros Hs Hx. apply elem_of_concat. exists (locs s). split; [done|].
  by apply list_elem_of_fmap_2.
Qed.

Lemma larr_set_locs i c ts :
  exists X Z,
    concat (map locs ts) =
      X ++ match ts !! i with Some old => locs old | None => [] end ++ Z /\
    concat (map locs (larr_set i c ts)) = X ++ locs c ++ Z /\
    forall s, s ∈ larr_set i c ts ->
      s = c \/ s = LLeaf VUndefined \/
      (s ∈ ts /\ forall x, x ∈ locs s -> x ∈ X \/ x ∈ Z).
Proof.
  unfold larr_set. destruct (i <? length ts)%nat eqn:E.
  - apply Nat.ltb_lt in E. destruct (lookup_lt_is_Some_2 ts i E) as [old Hold].
    exists (concat (map locs (take i ts))), (concat (map locs (drop (S i) ts))).
    rewrite Hold. split; [|split].
    + rewrite <- (take_drop_middle ts i old Hold) at 1.
      rewrite map_app, concat_app. simpl. done.
    + rewrite insert_take_drop by done. rewrite map_app, concat_app. simpl. done.
    + rewrite insert_take_drop by done.
      intros s [Hs|[->|Hs]%elem_of_cons]%elem_of_app; [|by left|].
      * right; right. split.
        -- rewrite <- (take_drop_middle ts i old Hold). apply elem_of_app. by left.
        -- intros x Hx. left. by eapply elem_of_concat_locs.
      * right; right. split.
        -- rewrite <- (take_drop_middle ts i old Hold). apply elem_of_app.
           right. by right.
        -- intros x Hx. right. by eapply elem_of_concat_locs.
  - apply Nat.ltb_ge in E. rewrite (lookup_ge_None_2 ts i E).
    exists (concat (map locs ts)), []. split; [by rewrite !app_nil_r|]. split.
    + rewrite !map_app, !concat_app, concat_locs_pad. simpl. done.
    + intros s [Hs|[Hs|Hs]%elem_of_app]%elem_of_app.
      * right; right. split; [done|]. intros x Hx. left.
        by eapply elem_of_concat_locs.
      * right; left. by apply elem_of_replicate in Hs as [-> _].
      * left. by apply list_elem_of_singleton in Hs.
Qed.

Lemma rep_children h T s : rep h T -> s ∈ children T -> rep h s.
Proof.
  intros Hrep Hs. inversion Hrep as [|? ? _ _ Hall|? ? _ Hall]; subst; simpl in Hs.
  - by apply elem_of_nil in Hs.
  - apply list_elem_of_fmap in Hs as (kc & -> & Hin).
    rewrite Forall_forall in Hall. by apply Hall.
  - rewrite Forall_forall in Hall. by apply Hall.
Qed.

Lemma lset_locs T k c :
  is_cont T -> lstores T k ->
  exists X Z,
    locs T = root T :: X ++ old_locs T k ++ Z /\
    locs (lset k c T) = root T :: X ++ locs c ++ Z /\
    forall s, s ∈ children (lset k c T) ->
      s = c \/ s = LLeaf VUndefined \/
      (s ∈ children T /\ forall x, x ∈ locs s -> x ∈ X \/ x ∈ Z).
Proof.
  intros Hc Hs. destruct T as [v|l fs|l ts]; [done| |].
  - destruct (lupdate_locs k c fs) as (X & Z & H1 & H2 & H3).
    exists X, Z. unfold old_locs. simpl. rewrite H1, H2.
    split; [done|]. split; [done|].
    intros s (kc & -> & Hin)%list_elem_of_fmap.
    destruct (H3 kc Hin) as [?|[? ?]]; [by left|]. right; right.
    split; [|done]. apply list_elem_of_fmap. by exists kc.
  - destruct k as [s|i]; [done|].
    destruct (larr_set_locs i c ts) as (X & Z & H1 & H2 & H3).
    exists X, Z. unfold old_locs. simpl. by rewrite H1, H2.
Qed.

Lemma NoDup_replace_middle {A} (a : A) (X Y Y' Z : list A) :
  NoDup (a :: X ++ Y ++ Z) -> NoDup Y' ->
  (forall x, x ∈ Y' -> x ∈ a :: X ++ Y ++ Z -> x ∈ Y) ->
  NoDup (a :: X ++ Y' ++ Z).
Proof.
  intros Hnd HY' Hsub.
  apply NoDup_cons in Hnd as [Ha Hnd].
  apply NoDup_app in Hnd as (HX & HXYZ & Hnd).
  apply NoDup_app in Hnd as (HY & HYZ & HZ).
  assert (forall x, x ∈ Y' -> x <> a /\ (x ∉ X) /\ (x ∉ Z)) as Hfresh.
  { intros x Hx. split; [|split].
    - intros ->. apply Ha. rewrite !elem_of_app. right; left.
      apply Hsub; [done|]. left.
    - intros HxX. apply (HXYZ x HxX). rewrite elem_of_app. left.
      apply Hsub; [done|]. right. rewrite !elem_of_app. auto.
    - intros HxZ. assert (x ∈ Y) as HxY.
      { apply Hsub; [done|]. right. rewrite !elem_of_app. auto. }
      by apply (HYZ x HxY). }
  apply NoDup_cons. split.
  - rewrite !elem_of_app. intros [?|[HaY|?]].
    + apply Ha. rewrite !elem_of_app. auto.
    + by destruct (Hfresh a HaY) as [? _].
    + apply Ha. rewrite !elem_of_app. auto.
  - apply NoDup_app. split; [done|]. split.
    + intros x HxX. rewrite elem_of_app. intros [HxY|HxZ].
      * by destruct (Hfresh x HxY) as (_ & ? & _).
      * apply (HXYZ x HxX). rewrite elem_of_app. auto.
    + apply NoDup_app. split; [done|]. split; [|done].
      intros x HxY. by destruct (Hfresh x HxY) as (_ & _ & ?).
Qed.

Lemma locs_lset_subset T k c x :
  is_cont T -> lstores T k ->
  x ∈ locs (lset k c T) -> x ∈ locs T \/ x ∈ locs c.
Proof.
  intros Hc Hs. destruct (lset_locs T k c Hc Hs) as (X & Z & -> & -> & _).
  rewrite !elem_of_cons, !elem_of_app. tauto.
Qed.

Lemma locs_lset_NoDup T k c :
  is_cont T -> lstores T k ->
  NoDup (locs T) -> NoDup (locs c) ->
  (forall x, x ∈ locs c -> x ∈ locs T -> x ∈ old_locs T k) ->
  NoDup (locs (lset k c T)).
Proof.
  intros Hc Hs. destruct (lset_locs T k c Hc Hs) as (X & Z & -> & -> & _).
  apply NoDup_replace_middle.
Qed.

Lemma root_elem_of T : is_cont T -> root T ∈ locs T.
Proof. destruct T; [done| |]; intros _; left. Qed.

Lemma lset_root T k c : root (lset k c T) = root T.
Proof. destruct T as [v|l fs|l ts]; [done|done|]. by destruct k. Qed.

Lemma lset_is_cont T k c : is_cont T -> is_cont (lset k c T).
Proof. destruct T as [v|l fs|l ts]; [done|done|]. by destruct k. Qed.

(** Storing the value of a represented tree under a key of a represented
    container, after a change of the store that the container only sees
    under that key. *)
Lemma rep_write h h2 T k c :
  rep h T -> is_cont T -> lstores T k -> NoDup (locs T) ->
  (forall x, x ∈ locs T -> x ∉ old_locs T k -> h2 !! x = h !! x) ->
  rep h2 c -> root T ∉ locs c ->
  rep (write h2 (root T) k (lvalue c)) (lset k c T).
Proof.
  intros Hrep Hc Hs Hnd Hsame Hrc Hroot.
  destruct (lset_locs T k c Hc Hs) as (X & Z & HT & _ & Hch).
  rewrite HT in Hnd.
  apply NoDup_cons in Hnd as [HrT Hnd].
  apply NoDup_app in Hnd as (_ & HXYZ & Hnd).
  apply NoDup_app in Hnd as (_ & HYZ & _).
  assert (h2 !! root T = h !! root T) as Hr.
  { apply Hsame; [rewrite HT; left|].
    intros Hx. apply HrT. rewrite !elem_of_app. auto. }
  assert (forall s, s ∈ children (lset k c T) ->
            rep (write h2 (root T) k (lvalue c)) s) as Hkeep.
  { intros s Hin. destruct (Hch s Hin) as [->|[->|[HsT Hsub]]].
    - eapply rep_frame; [exact Hrc|]. intros x Hx. apply write_frame.
      by intros <-.
    - by constructor.
    - eapply rep_frame; [exact (rep_children h T s Hrep HsT)|]. intros x Hx.
      rewrite write_frame.
      + apply Hsame.
        * rewrite HT. right. rewrite !elem_of_app. destruct (Hsub x Hx); auto.
        * intros Hold. destruct (Hsub x Hx) as [HX|HZ].
          -- apply (HXYZ x HX). apply elem_of_app. auto.
          -- by apply (HYZ x Hold).
      + intros <-. apply HrT. rewrite !elem_of_app. destruct (Hsub _ Hx); auto. }
  destruct T as [v|l fs|l ts]; [done| |].
  - inversion Hrep as [|? ? Hl Hkeys Hall|]; subst. simpl root in *.
    simpl lset. constructor.
    + rewrite (lookup_write_plain _ _ _ _ _ (eq_trans Hr Hl)).
      by rewrite update_prop_lvalue.
    + by apply lupdate_keys.
    + apply Forall_forall. intros kc Hin. apply Hkeep. simpl.
      apply list_elem_of_fmap. by exists kc.
  - destruct k as [s|i]; [done|].
    inversion Hrep as [| |? ? Hl Hall]; subst. simpl root in *.
    simpl lset. constructor.
    + unfold write. rewrite Hr, Hl. simpl.
      rewrite list_lookup_insert_eq
        by (eapply lookup_lt_Some; rewrite Hr; exact Hl).
      by rewrite array_set_lvalue.
    + apply Forall_forall. intros c' Hin. by apply Hkeep.
Qed.

Lemma container_kind_lkind h c : rep h c -> JQuery.container_kind h (lvalue c) = lkind c.
Proof. intros H. rewrite (container_kind_rep h c H). by destruct c. Qed.

Lemma lkind_lset k c T : lkind (lset k c T) = lkind T.
Proof. destruct T as [v|l fs|l ts]; [done|done|]. by destruct k. Qed.

Lemma lkind_is_cont T : is_cont T <-> lkind T <> None.
Proof. destruct T; simpl; split; try done. Qed.

Lemma lkind_lvalue T : is_cont T -> lvalue T = VRef (root T).
Proof. by destruct T. Qed.

Lemma lstores_lkind T T' k : lkind T' = lkind T -> lstores T k -> lstores T' k.
Proof. by destruct T, T'. Qed.

Lemma lstores_entries T O k c :
  lkind T = lkind O -> (k, c) ∈ entries O -> lstores T k.
Proof.
  destruct T as [v|l fs|l ts], O as [v'|l' fs'|l' ts']; try done.
  - simpl. by intros _ ?%elem_of_nil.
  - intros _ Hin. by apply elem_of_entries_arr in Hin as (i & -> & _).
Qed.

Lemma locs_children T : is_cont T -> locs T = root T :: concat (map locs (children T)).
Proof.
  destruct T as [v|l fs|l ts]; [done| |]; intros _; simpl; [|done].
  by rewrite map_map.
Qed.

Lemma children_sub T s x : s ∈ children T -> x ∈ locs s -> x ∈ locs T.
Proof.
  intros Hs Hx. destruct T as [v|l fs|l ts].
  - by apply elem_of_nil in Hs.
  - rewrite locs_children by done. right. by eapply elem_of_concat_locs.
  - rewrite locs_children by done. right. by eapply elem_of_concat_locs.
Qed.

Lemma children_NoDup T s : NoDup (locs T) -> s ∈ children T -> NoDup (locs s).
Proof.
  intros Hnd Hs. destruct T as [v|l fs|l ts]; [by apply elem_of_nil in Hs| |].
  - rewrite locs_children in Hnd by done. apply NoDup_cons in Hnd as [_ Hnd].
    eapply NoDup_concat_elem; [exact Hnd|]. by apply list_elem_of_fmap_2.
  - rewrite locs_children in Hnd by done. apply NoDup_cons in Hnd as [_ Hnd].
    eapply NoDup_concat_elem; [exact Hnd|]. by apply list_elem_of_fmap_2.
Qed.

Lemma llookup_children k fs s : llookup k fs = Some s -> s ∈ map snd fs.
Proof.
  induction fs as [|[k' c'] fs IH]; simpl; [done|].
  destruct (decide (k = k')); [intros [= ->]; left|right; auto].
Qed.

Lemma lfield_children T k s : lfield T k = Some s -> s ∈ children T.
Proof.
  destruct T as [v|l fs|l ts]; simpl; [done| |].
  - apply llookup_children.
  - destruct k as [?|i]; [done|]. apply list_elem_of_lookup_2.
Qed.

Lemma old_locs_sub T k x : x ∈ old_locs T k -> x ∈ locs T.
Proof.
  unfold old_locs. destruct (lfield T k) as [s|] eqn:E; [|by intros ?%elem_of_nil].
  apply children_sub. by eapply lfield_children.
Qed.

Lemma root_notin_old T k :
  is_cont T -> lstores T k -> NoDup (locs T) -> root T ∉ old_locs T k.
Proof.
  intros Hc Hs Hnd. destruct (lset_locs T k (LLeaf VUndefined) Hc Hs) as (X & Z & HT & _).
  rewrite HT in Hnd. apply NoDup_cons in Hnd as [Hr _].
  intros Hx. apply Hr. rewrite !elem_of_app. auto.
Qed.

Lemma same_kind_erase a c (b : bool) :
  lkind a = Some b -> lkind c = Some b -> Tree.same_kind (erase a) (erase c) = true.
Proof. destruct a, c; simpl; try done; by intros [= <-] [= ?]. Qed.

Lemma same_kind_erase_ne a c :
  lkind a <> lkind c -> Tree.same_kind (erase a) (erase c) = false.
Proof. by destruct a, c. Qed.

Lemma erase_lempty c (b : bool) l :
  lkind c = Some b -> Tree.empty_like (erase c) = erase (lempty b l).
Proof. destruct c; simpl; try done; by intros [= <-]. Qed.

Lemma choose_clone_same h (b : bool) l :
  JQuery.container_kind h (VRef l) = Some b -> JQuery.choose_clone h b (VRef l) = (h, l).
Proof. intros H. unfold JQuery.choose_clone. by rewrite decide_True. Qed.

Lemma choose_clone_other h (b : bool) src :
  JQuery.container_kind h src <> Some b ->
  JQuery.choose_clone h b src = alloc h (JQuery.empty_container b).
Proof.
  intros H. unfold JQuery.choose_clone. destruct src; try done.
  by rewrite decide_False.
Qed.

Lemma rep_lempty h (b : bool) :
  rep (h ++ [JQuery.empty_container b]) (lempty b (length h)).
Proof.
  destruct b; simpl; constructor; try done.
  - by rewrite lookup_app_r, Nat.sub_diag by done.
  - by rewrite lookup_app_r, Nat.sub_diag by done.
  - constructor.
Qed.

Lemma extends_to_refl h T :
  rep h T -> NoDup (locs T) -> (forall x, x ∈ locs T -> (x < length h)%nat) ->
  extends_to h T h T.
Proof. intros. repeat split; auto. Qed.

Lemma extends_to_trans h T h1 T1 h2 T2 :
  (forall x, x ∈ locs T -> (x < length h)%nat) ->
  extends_to h T h1 T1 -> extends_to h1 T1 h2 T2 -> extends_to h T h2 T2.
Proof.
  intros Hb (R1 & Ro1 & K1 & L1 & F1 & S1 & B1 & N1) (R2 & Ro2 & K2 & L2 & F2 & S2 & B2 & N2).
  repeat split; auto.
  - congruence.
  - congruence.
  - lia.
  - intros l Hl Hn. rewrite F2; [by apply F1|lia|].
    intros Hin. destruct (S1 l Hin); [done|lia].
  - intros x Hx. destruct (S2 x Hx) as [H1|H1]; [by apply S1|right; lia].
Qed.

(** The turn for a key whose value in the options is a container, once the
    clone [s] is chosen: the recursive call and the store into the target. *)
Lemma after_clone n h h1 T k c s :
  refines_at n ->
  rep h T -> is_cont T -> lstores T k -> NoDup (locs T) ->
  (forall x, x ∈ locs T -> (x < length h)%nat) ->
  rep h c -> is_cont c -> (depth c <= n)%nat ->
  (forall x, x ∈ locs c -> (x < length h)%nat /\ x ∉ locs T) ->
  rep h1 s -> lkind s = lkind c -> NoDup (locs s) ->
  (length h <= length h1)%nat ->
  (forall l, (l < length h)%nat -> h1 !! l = h !! l) ->
  (forall x, x ∈ locs s -> (x < length h1)%nat) ->
  (forall x, x ∈ locs s -> x ∈ old_locs T k \/ (length h <= x)%nat) ->
  exists h2 s',
    JQuery.extend n h1 (root s) (lvalue c) = Some h2 /\
    erase s' = Tree.extend (erase s) (erase c) /\
    extends_to h T (write h2 (root T) k (VRef (root s))) (lset k s' T).
Proof.
  intros Hrec Hrep HcT Hs Hnd Hb Hrc Hcc Hd Hdisj Hrs Hk Hnds Hlen Hh1 Hbs Hsub.
  assert (forall x, x ∈ locs s -> x ∈ locs T -> x ∈ old_locs T k) as Hsub'.
  { intros x Hx HxT. destruct (Hsub x Hx) as [?|Hge]; [done|].
    specialize (Hb x HxT). lia. }
  destruct (Hrec h1 s c) as (h2 & s' & Hext & Her & R2 & Ro2 & K2 & L2 & F2 & S2 & B2 & N2);
    auto.
  { eapply rep_frame; [exact Hrc|]. intros l Hl. apply Hh1. by apply Hdisj. }
  { intros x Hx. destruct (Hdisj x Hx) as [Hlt Hn]. split; [lia|].
    intros Hxs. destruct (Hsub x Hxs) as [Ho|?]; [|lia].
    by apply Hn, (old_locs_sub T k). }
  exists h2, s'. split; [done|]. split; [done|].
  assert (is_cont s') as Hcs'.
  { apply lkind_is_cont. rewrite K2, Hk. by apply lkind_is_cont. }
  assert (forall x, x ∈ locs s' -> x ∈ locs T -> x ∈ old_locs T k) as Hsub2.
  { intros x Hx HxT. destruct (S2 x Hx) as [?|Hge]; [by apply Hsub'|].
    specialize (Hb x HxT). lia. }
  assert (root T ∉ locs s') as Hroot.
  { intros Hx. apply (root_notin_old T k HcT Hs Hnd).
    apply Hsub2; [done|]. by apply root_elem_of. }
  repeat split.
  - rewrite <- Ro2, <- (lkind_lvalue s' Hcs').
    apply (rep_write h h2 T k s'); auto.
    intros x HxT Hno. rewrite F2.
    + apply Hh1. by apply Hb.
    + specialize (Hb x HxT). lia.
    + intros Hxs. by apply Hno, Hsub'.
  - apply lset_root.
  - apply lkind_lset.
  - rewrite length_write. lia.
  - intros l Hl Hn. rewrite write_frame.
    + rewrite F2; [by apply Hh1|lia|].
      intros Hxs. destruct (Hsub l Hxs) as [Ho|?]; [|lia].
      by apply Hn, (old_locs_sub T k).
    + intros <-. by apply Hn, root_elem_of.
  - intros x Hx. apply locs_lset_subset in Hx as [?|Hx]; auto.
    destruct (S2 x Hx) as [Hxs|?]; [|right; lia].
    destruct (Hsub x Hxs) as [Ho|?]; [|by right].
    left. by apply (old_locs_sub T k).
  - intros x Hx. rewrite length_write.
    apply locs_lset_subset in Hx as [HxT|Hx]; auto.
    specialize (Hb x HxT). lia.
  - apply locs_lset_NoDup; auto.
Qed.

(** One turn of the loop of the deep extend. *)
Lemma extend_step_refines n h T ro k c :
  refines_at n ->
  rep h T -> is_cont T -> lstores T k -> NoDup (locs T) ->
  (forall x, x ∈ locs T -> (x < length h)%nat) ->
  rep h c -> (depth c <= n)%nat ->
  (forall x, x ∈ locs c -> (x < length h)%nat /\ x ∉ locs T) ->
  get h (VRef ro) k = lvalue c ->
  exists h' T',
    JQuery.extend_step (JQuery.extend n) (root T) (VRef ro) h k = Some h' /\
    erase T' = Tree.merge_into k (erase c) (erase T) /\
    extends_to h T h' T'.
Proof.
  intros Hrec Hrep HcT Hs Hnd Hb Hrc Hd Hdisj Hget.
  unfold JQuery.extend_step. rewrite Hget.
  assert (same_ref (root T) (lvalue c) = false) as ->.
  { destruct c as [v|lc fs|lc ts]; simpl.
    - inversion Hrc as [? Hv| |]; subst. destruct v; try done.
      by destruct (Hv l).
    - apply Nat.eqb_neq. intros E. destruct (Hdisj lc) as [_ Hn]; [left|].
      apply Hn. rewrite <- E. by apply root_elem_of.
    - apply Nat.eqb_neq. intros E. destruct (Hdisj lc) as [_ Hn]; [left|].
      apply Hn. rewrite <- E. by apply root_elem_of. }
  rewrite (container_kind_lkind h c Hrc).
  destruct (lkind c) as [b|] eqn:Ek.
  - (* a container: clone, recurse, store *)
    assert (is_cont c) as Hcc by (apply lkind_is_cont; congruence).
    rewrite (get_target h T k Hrep Hs).
    assert (Tree.merge_into k (erase c) (erase T) =
            Tree.tset k (Tree.extend (Tree.clone_for (Tree.tget (erase T) k) (erase c))
                                     (erase c)) (erase T)) as Hmi
      by (by destruct c).
    rewrite Hmi, tget_erase. unfold Tree.clone_for.
    destruct (lfield T k) as [s|] eqn:Ef; simpl.
    + destruct (decide (lkind s = Some b)) as [Hks|Hks].
      * (* the target holds a container of the same kind *)
        assert (s ∈ children T) as Hch by (by eapply lfield_children).
        assert (rep h s) as Hrs by exact (rep_children h T s Hrep Hch).
        assert (is_cont s) as Hcs by (apply lkind_is_cont; congruence).
        rewrite (lkind_lvalue s Hcs).
        rewrite choose_clone_same
          by (rewrite <- (lkind_lvalue s Hcs); by rewrite container_kind_lkind).
        destruct (after_clone n h h T k c s) as (h2 & s' & Hext & Her & Hpost); auto.
        { congruence. }
        { by eapply children_NoDup. }
        { intros x Hx. apply Hb. by eapply children_sub. }
        { intros x Hx. left. unfold old_locs. by rewrite Ef. }
        rewrite Hext. exists (write h2 (root T) k (VRef (root s))), (lset k s' T).
        split; [done|]. split; [|done].
        rewrite (same_kind_erase s c b Hks Ek), <- Her. symmetry. apply tset_erase.
      * (* it holds something else: a fresh clone *)
        rewrite choose_clone_other
          by (rewrite (container_kind_lkind h s
                (rep_children h T s Hrep (lfield_children T k s Ef))); done).
        simpl.
        destruct (after_clone n h (h ++ [JQuery.empty_container b]) T k c
                    (lempty b (length h)))
          as (h2 & s' & Hext & Her & Hpost); auto.
        { apply rep_lempty. }
        { rewrite Ek. by destruct b. }
        { destruct b; simpl; apply NoDup_singleton. }
        { rewrite length_app. lia. }
        { intros l Hl. by apply lookup_app_l. }
        { intros x Hx. rewrite length_app. simpl.
          assert (x = length h) as -> by (destruct b; simpl in Hx;
            by apply list_elem_of_singleton in Hx). lia. }
        { intros x Hx. right.
          assert (x = length h) as -> by (destruct b; simpl in Hx;
            by apply list_elem_of_singleton in Hx). lia. }
        assert (root (lempty b (length h)) = length h) as Hroot by (by destruct b).
        rewrite Hroot in Hext, Hpost. rewrite Hext.
        exists (write h2 (root T) k (VRef (length h))), (lset k s' T).
        split; [done|]. split; [|done].
        rewrite same_kind_erase_ne by congruence.
        rewrite (erase_lempty c b (length h) Ek), <- Her. symmetry. apply tset_erase.
    + (* the target holds nothing under the key *)
      destruct (after_clone n h (h ++ [JQuery.empty_container b]) T k c
                  (lempty b (length h)))
        as (h2 & s' & Hext & Her & Hpost); auto.
      { apply rep_lempty. }
      { rewrite Ek. by destruct b. }
      { destruct b; simpl; apply NoDup_singleton. }
      { rewrite length_app. lia. }
      { intros l Hl. by apply lookup_app_l. }
      { intros x Hx. rewrite length_app. simpl.
        assert (x = length h) as -> by (destruct b; simpl in Hx;
          by apply list_elem_of_singleton in Hx). lia. }
      { intros x Hx. right.
        assert (x = length h) as -> by (destruct b; simpl in Hx;
          by apply list_elem_of_singleton in Hx). lia. }
      assert (root (lempty b (length h)) = length h) as Hroot by (by destruct b).
      rewrite Hroot in Hext, Hpost. rewrite Hext.
      exists (write h2 (root T) k (VRef (length h))), (lset k s' T).
      split; [done|]. split; [|done].
      rewrite (erase_lempty c b (length h) Ek), <- Her. symmetry. apply tset_erase.
  - (* a leaf *)
    destruct c as [v|lc fs|lc ts]; [|done|done]. simpl lvalue. simpl erase.
    unfold Tree.merge_into. destruct (is_undefined v) eqn:Eu.
    + exists h, T. split; [done|]. split; [done|]. by apply extends_to_refl.
    + exists (write h (root T) k v), (lset k (LLeaf v) T).
      split; [done|]. split; [symmetry; apply (tset_erase k (LLeaf v) T)|].
      repeat split.
      * apply (rep_write h h T k (LLeaf v)); auto. by intros ?%elem_of_nil.
      * apply lset_root.
      * apply lkind_lset.
      * by rewrite length_write.
      * intros l Hl Hn. apply write_frame. intros <-. by apply Hn, root_elem_of.
      * intros x Hx. apply locs_lset_subset in Hx as [?|Hx]; auto.
        by apply elem_of_nil in Hx.
      * intros x Hx. rewrite length_write.
        apply locs_lset_subset in Hx as [?|Hx]; auto. by apply elem_of_nil in Hx.
      * apply locs_lset_NoDup; auto; [apply NoDup_nil_2|].
        by intros x ?%elem_of_nil.
Qed.

(** The loop over the keys of the options. *)
Lemma extend_loop_refines n ro es :
  refines_at n ->
  forall h T,
    rep h T -> is_cont T -> NoDup (locs T) ->
    (forall x, x ∈ locs T -> (x < length h)%nat) ->
    (ro < length h)%nat -> ro ∉ locs T ->
    (forall k c, (k, c) ∈ es ->
       lstores T k /\ rep h c /\ (depth c <= n)%nat /\
       get h (VRef ro) k = lvalue c /\
       forall x, x ∈ locs c -> (x < length h)%nat /\ x ∉ locs T) ->
    exists h' T',
      foldM (JQuery.extend_step (JQuery.extend n) (root T) (VRef ro))
            (map fst es) h = Some h' /\
      erase T' = fold_left (fun t kc => Tree.merge_into kc.1 kc.2 t)
                   (map (fun kc => (kc.1, erase kc.2)) es) (erase T) /\
      extends_to h T h' T'.
Proof.
  intros Hrec. induction es as [|[k c] es IH]; intros h T Hrep HcT Hnd Hb Hro HroT Hes.
  - exists h, T. split; [done|]. split; [done|]. by apply extends_to_refl.
  - destruct (Hes k c) as (Hs & Hrc & Hd & Hget & Hdisj); [left|].
    destruct (extend_step_refines n h T ro k c) as (h1 & T1 & Hstep & Her1 & Hpost1);
      auto.
    pose proof Hpost1 as (R1 & Ro1 & K1 & L1 & F1 & S1 & B1 & N1).
    destruct (IH h1 T1) as (h2 & T2 & Hfold & Her2 & Hpost2); auto.
    { apply lkind_is_cont. rewrite K1. by apply lkind_is_cont. }
    { lia. }
    { intros Hin. destruct (S1 ro Hin); [done|lia]. }
    { intros k' c' Hin.
      destruct (Hes k' c') as (Hs' & Hrc' & Hd' & Hget' & Hdisj'); [by right|].
      split; [by apply (lstores_lkind T)|]. split; [|split; [done|split]].
      - eapply rep_frame; [exact Hrc'|]. intros l Hl.
        destruct (Hdisj' l Hl). by apply F1.
      - rewrite <- Hget'. unfold get. by rewrite F1.
      - intros x Hx. destruct (Hdisj' x Hx) as [Hlt Hn]. split; [lia|].
        intros Hin'. destruct (S1 x Hin'); [done|lia]. }
    exists h2, T2. split; [|split].
    + simpl. rewrite Hstep. by rewrite <- Ro1.
    + simpl. by rewrite <- Her1.
    + by apply (extends_to_trans h T h1 T1).
Qed.

Lemma depth_container O : is_cont O -> (0 < depth O)%nat.
Proof. destruct O; simpl; [done|lia|lia]. Qed.

(** [jQuery.extend(true, target, options)] on the store computes
    [Tree.extend] on the trees the store holds at [target] and [options]:
    with fuel for the nesting of the options it returns, the target's
    location then holds the merged tree, every object outside the target
    is as before, and the merged tree is made of the target's objects and
    fresh ones. *)
Theorem extend_refines n : refines_at n.
Proof.
  induction n as [|n IH]; intros h T O Hrep HrO Hk HcO Hnd Hb Hdisj Hd.
  - apply depth_container in HcO. lia.
  - destruct (rep_entries h O HrO HcO) as (Henum & _ & Hent).
    assert (is_cont T) as HcT.
    { apply lkind_is_cont. rewrite Hk. by apply lkind_is_cont. }
    destruct (Hdisj (root O) (root_elem_of O HcO)) as [HroL HroT].
    destruct (extend_loop_refines n (root O) (entries O) IH h T)
      as (h' & T' & Hfold & Her & Hpost); auto.
    { intros k c Hin. destruct (Hent k c Hin) as (Hget & Hrc & Hsub & Hlt).
      split; [by eapply lstores_entries|]. split; [done|]. split; [lia|].
      split; [done|]. intros x Hx. by apply Hdisj, Hsub. }
    exists h', T'. split; [|split; [|done]].
    + rewrite <- Henum in Hfold. rewrite (lkind_lvalue O HcO). exact Hfold.
    + by rewrite extend_entries.
Qed.

Lemma rep_bounded h T x : rep h T -> x ∈ locs T -> (x < length h)%nat.
Proof.
  revert x. induction T as [v|l fs IH|l ts IH] using ltree_ind'; intros x Hrep Hx.
  - by apply elem_of_nil in Hx.
  - inversion Hrep as [|? ? Hl _ Hall|]; subst.
    apply elem_of_locs_object in Hx as [->|(kc & Hkc & Hx)].
    + by eapply lookup_lt_Some.
    + rewrite Forall_forall in IH, Hall. apply (IH kc Hkc); [by apply Hall|done].
  - inversion Hrep as [| |? ? Hl Hall]; subst.
    apply elem_of_locs_arr in Hx as [->|(c & Hc & Hx)].
    + by eapply lookup_lt_Some.
    + rewrite Forall_forall in IH, Hall. apply (IH c Hc); [by apply Hall|done].
Qed.

Lemma wf_fields (fs : list (key * ltree)) :
  Forall (fun kc => Tree.wf (erase kc.2)) fs ->
  (fix all (fs : list (key * Tree.tree)) : Prop :=
     match fs with [] => True | (_, c) :: rest => Tree.wf c /\ all rest end)
    (map (fun kc => (kc.1, erase kc.2)) fs).
Proof. induction 1 as [|[k c] fs Hc _ IH]; simpl; auto. Qed.

Lemma wf_elems (ts : list ltree) :
  Forall (fun c => Tree.wf (erase c)) ts ->
  (fix all (cs : list Tree.tree) : Prop :=
     match cs with [] => True | c :: rest => Tree.wf c /\ all rest end)
    (map erase ts).
Proof. induction 1 as [|c ts Hc _ IH]; simpl; auto. Qed.

(** A tree of the store has one value per key. *)
Lemma rep_wf h T : rep h T -> Tree.wf (erase T).
Proof.
  induction T as [v|l fs IH|l ts IH] using ltree_ind'; intros Hrep; [done| |].
  - inversion Hrep as [|? ? _ Hnd Hall|]; subst. simpl. split.
    + by rewrite map_map.
    + apply wf_fields. rewrite Forall_forall in IH, Hall. apply Forall_forall.
      intros kc Hkc. by apply IH, Hall.
  - inversion Hrep as [| |? ? _ Hall]; subst. simpl.
    apply wf_elems. rewrite Forall_forall in IH, Hall. apply Forall_forall.
    intros c Hc. by apply IH, Hall.
Qed.

Lemma same_kind_lkind T O :
  lkind T = lkind O -> is_cont O -> Tree.same_kind (erase T) (erase O) = true.
Proof. by destruct T, O. Qed.

End LocatedFacts.

(* ===================================================================== *)
(** ** init, through the merge and the time-domain block                  *)
(* ===================================================================== *)

Section InitRefines.
Import Tree.

Lemma lfield_get h t k :
  rep h t -> lstores t k ->
  get h (lvalue t) k = lvalue (default (LLeaf VUndefined) (lfield t k)).
Proof.
  intros Hrep Hs. assert (is_cont t) as Hc by (by destruct t).
  rewrite (lkind_lvalue t Hc), (get_target h t k Hrep Hs).
  by destruct (lfield t k).
Qed.

Lemma lfield_tget t k :
  tget (erase t) k = erase (default (LLeaf VUndefined) (lfield t k)).
Proof. rewrite tget_erase. by destruct (lfield t k). Qed.

Lemma lfield_rep h t k :
  rep h t -> rep h (default (LLeaf VUndefined) (lfield t k)).
Proof.
  intros Hrep. destruct (lfield t k) as [c|] eqn:E; simpl.
  - eapply rep_children; [exact Hrep|]. by eapply lfield_children.
  - by constructor.
Qed.

(** A leaf in the store is a leaf in the tree, and conversely. *)
Lemma get_leaf_tget h t k v :
  rep h t -> lstores t k -> (forall l, v <> VRef l) ->
  get h (lvalue t) k = v <-> tget (erase t) k = Leaf v.
Proof.
  intros Hrep Hs Hv. rewrite (lfield_get h t k Hrep Hs), lfield_tget.
  destruct (default (LLeaf VUndefined) (lfield t k)) as [v'|l fs|l ts]; simpl.
  - split; congruence.
  - split; [intros E; by destruct (Hv l)|discriminate].
  - split; [intros E; by destruct (Hv l)|discriminate].
Qed.

Lemma get_date_tget h t k s :
  rep h t -> lstores t k ->
  get h (lvalue t) k = VDate s <-> tget (erase t) k = Leaf (VDate s).
Proof. intros. by apply get_leaf_tget. Qed.

Lemma get_date_lstores h t nm s :
  rep h t -> KName nm <> length_key ->
  get h (lvalue t) (KName nm) = VDate s -> lkind t = Some false.
Proof.
  intros Hrep Hne Hget. destruct t as [v|l fs|l ts]; [| done |].
  - exfalso. inversion Hrep as [? Hv| |]; subst. simpl in Hget.
    destruct v; simpl in Hget; try done.
    + by rewrite decide_False in Hget.
    + by rewrite decide_False in Hget.
    + destruct (h !! l) as [o|] eqn:E; [|done]. by destruct (Hv l).
  - exfalso. inversion Hrep as [| |? ? Hl _]; subst. simpl in Hget.
    rewrite Hl in Hget. simpl in Hget. by rewrite decide_False in Hget.
Qed.

Lemma tget_extend_fresh fs k s :
  wf (Object fs) -> tget (Object fs) k = Leaf (VDate s) ->
  tget (extend (Object []) (Object fs)) k = Leaf (VDate s).
Proof.
  intros Hwf Hget. rewrite extend_get by done. by rewrite Hget.
Qed.

Lemma arr_set_length c ts : arr_set (length ts) c ts = ts ++ [c].
Proof.
  unfold arr_set. rewrite (proj2 (Nat.ltb_ge _ _)) by lia.
  by rewrite Nat.sub_diag.
Qed.

(** An array of objects over an empty array: one fresh clone for each. *)
Lemma merge_elems_fresh es :
  Forall (fun e => exists fs, e = Object fs) es ->
  forall pre,
    merge_elems (length pre) es (Arr pre) =
    Arr (pre ++ map (extend (Object [])) es).
Proof.
  induction 1 as [|e es [fs ->] _ IH]; intros pre.
  - simpl. by rewrite app_nil_r.
  - cbn [merge_elems map].
    assert (merge_into (KIndex (length pre)) (Object fs) (Arr pre) =
            Arr (pre ++ [extend (Object []) (Object fs)])) as ->.
    { unfold merge_into.
      replace (tget (Arr pre) (KIndex (length pre))) with undefined
        by (unfold tget, field; by rewrite lookup_ge_None_2 by lia).
      change (clone_for undefined (Object fs)) with (Object []).
      generalize (extend (Object []) (Object fs)). intros X.
      unfold tset. by rewrite arr_set_length. }
    specialize (IH (pre ++ [extend (Object []) (Object fs)])).
    rewrite length_app, Nat.add_1_r in IH.
    rewrite IH. by rewrite <- app_assoc.
Qed.

(** From the store to the tree: a key that holds an array. *)
Lemma rep_get_array h t k d vs :
  rep h t -> lstores t k ->
  get h (lvalue t) k = VRef d -> h !! d = Some (Array vs) ->
  exists ts, lfield t k = Some (LArr d ts) /\ map lvalue ts = vs /\ Forall (rep h) ts.
Proof.
  intros Hrep Hs Hget Hd. rewrite (lfield_get h t k Hrep Hs) in Hget.
  pose proof (lfield_rep h t k Hrep) as Hc.
  destruct (lfield t k) as [c|]; [|done]. simpl in *.
  inversion Hc as [v Hv|l fs Hl _ _|l ts Hl Hall]; subst; simpl in Hget.
  - by destruct (Hv d).
  - injection Hget as ->. congruence.
  - injection Hget as ->. exists ts. split; [done|]. split; [congruence|done].
Qed.

(** From the tree to the store. *)
Lemma tget_arr_rep h t k xs :
  rep h t -> lstores t k -> tget (erase t) k = Arr xs ->
  exists d ts,
    map erase ts = xs /\ get h (lvalue t) k = VRef d /\
    h !! d = Some (Array (map lvalue ts)) /\ Forall (rep h) ts.
Proof.
  intros Hrep Hs Hget. rewrite lfield_tget in Hget.
  rewrite (lfield_get h t k Hrep Hs).
  pose proof (lfield_rep h t k Hrep) as Hc.
  destruct (default (LLeaf VUndefined) (lfield t k)) as [v|l fs|l ts]; try done.
  simpl in Hget. injection Hget as <-.
  inversion Hc as [| |? ? Hl Hall]; subst. by exists l, ts.
Qed.

Lemma tget_name_lkind c nm s :
  tget (erase c) (KName nm) = Leaf (VDate s) -> lkind c = Some false.
Proof. by destruct c. Qed.

Lemma lstores_object t k : lkind t = Some false -> lstores t k.
Proof. by destruct t. Qed.

(** A date of a data point is a date of its clone. *)
Lemma event_cloned h h1 ev c nm s :
  KName nm <> length_key ->
  rep h ev -> rep h1 c -> erase c = extend (Object []) (erase ev) ->
  get h (lvalue ev) (KName nm) = VDate s ->
  get h1 (lvalue c) (KName nm) = VDate s.
Proof.
  intros Hne Hev Hc Her Hget.
  pose proof (get_date_lstores h ev nm s Hev Hne Hget) as Hk.
  apply (get_date_tget h ev _ s Hev (lstores_object ev _ Hk)) in Hget.
  pose proof (rep_wf h ev Hev) as Hwf.
  destruct ev as [v|l fs|l ts]; try done.
  assert (tget (erase c) (KName nm) = Leaf (VDate s)) as Hc'.
  { rewrite Her. by apply tget_extend_fresh. }
  apply (get_date_tget h1 c _ s Hc); [|done].
  apply lstores_object. by eapply tget_name_lkind.
Qed.

Lemma events_cloned h h1 (ts : list ltree) : forall ts1,
  Forall (rep h) ts -> Forall (rep h1) ts1 ->
  Forall (is_event h) (map lvalue ts) ->
  map erase ts1 = map (extend (Object [])) (map erase ts) ->
  Forall (is_event h1) (map lvalue ts1) /\
  map (start_of h1) (map lvalue ts1) = map (start_of h) (map lvalue ts) /\
  map (end_of h1) (map lvalue ts1) = map (end_of h) (map lvalue ts).
Proof.
  induction ts as [|ev ts IH]; intros [|c ts1] Hts Hts1 Hev Hmap; try done.
  apply Forall_cons in Hts as [Hrev Hts]. apply Forall_cons in Hts1 as [Hrc Hts1].
  simpl in Hev. apply Forall_cons in Hev as [[[s Hs] [e He]] Hev].
  simpl in Hmap. injection Hmap as Hc Hmap.
  destruct (IH ts1 Hts Hts1 Hev Hmap) as (IH1 & IH2 & IH3).
  assert (get h1 (lvalue c) start_key = VDate s) as Hs1
    by (by eapply (event_cloned h h1 ev c)).
  assert (get h1 (lvalue c) end_key = VDate e) as He1
    by (by eapply (event_cloned h h1 ev c)).
  split; [|split]; simpl.
  - constructor; [|done]. split; eauto.
  - f_equal; [|done]. unfold start_of. by rewrite Hs, Hs1.
  - f_equal; [|done]. unfold end_of. by rewrite He, He1.
Qed.

Lemma events_objects h (ts : list ltree) :
  Forall (rep h) ts -> Forall (is_event h) (map lvalue ts) ->
  Forall (fun e => exists fs, e = Object fs) (map erase ts).
Proof.
  induction ts as [|ev ts IH]; intros Hts Hev; simpl; [constructor|].
  apply Forall_cons in Hts as [Hrev Hts]. simpl in Hev.
  apply Forall_cons in Hev as [[[s Hs] _] Hev].
  constructor; [|by apply IH].
  assert (lkind ev = Some false) as Hk by (by eapply (get_date_lstores h ev "start")).
  destruct ev; try done. simpl. eauto.
Qed.

(** init on a widget whose defaults hold no data: the domain is inferred
    from the data of the argument. *)
Lemma init_infers_time_domain h T O w d elems :
  rep h T -> rep h O -> lkind T = Some false -> lkind O = Some false ->
  NoDup (locs T) -> Forall (fun x => x ∉ locs T) (locs O) ->
  root T = defaultParameters w ->
  (exists d0, get h (lvalue T) data_key = VRef d0 /\ h !! d0 = Some (Array [])) ->
  get h (lvalue O) data_key = VRef d -> h !! d = Some (Array elems) ->
  elems <> [] -> Forall (is_event h) elems ->
  exists h' w',
    GanttChartInit.init (depth O) h w (lvalue O) = Normal (h', w') /\
    params w' = VRef (defaultParameters w) /\
    get h' (params w') startTime_key = VDate (minimum_of (map (start_of h) elems)) /\
    get h' (params w') endTime_key = VDate (maximum_of (map (end_of h) elems)).
Proof.
  intros HrT HrO HkT HkO Hnd Hapart Hroot (d0 & Hd0 & Hempty) Hd Helems Hne Hev.
  assert (is_cont O) as HcO by (apply lkind_is_cont; congruence).
  destruct (extend_refines (depth O) h T O)
    as (h1 & T' & Hrun & Her & Hrep & Hroot' & Hk' & _); auto.
  { congruence. }
  { intros x Hx. exact (rep_bounded h T x HrT Hx). }
  { intros x Hx. split; [exact (rep_bounded h O x HrO Hx)|].
    rewrite Forall_forall in Hapart. by apply Hapart. }
  destruct (rep_get_array h T data_key d0 [] HrT (lstores_object T _ HkT) Hd0 Hempty)
    as (ts0 & HfT & Hts0 & _).
  apply map_eq_nil in Hts0 as ->.
  destruct (rep_get_array h O data_key d elems HrO (lstores_object O _ HkO) Hd Helems)
    as (ts & HfO & <- & Hts).
  assert (tget (erase T') data_key = Arr (map (extend (Object [])) (map erase ts)))
    as Hdata.
  { rewrite Her, extend_get;
      [|by eapply rep_wf|apply same_kind_lkind; [congruence|done]].
    rewrite !lfield_tget, HfT, HfO.
    change (extend (Arr []) (Arr (map erase ts)) =
            Arr (map (extend (Object [])) (map erase ts))).
    rewrite extend_arr.
    exact (merge_elems_fresh _ (events_objects h ts Hts Hev) []). }
  assert (lkind T' = Some false) as HkT' by congruence.
  destruct (tget_arr_rep h1 T' data_key _ Hrep (lstores_object T' _ HkT') Hdata)
    as (d1 & ts1 & Hmap & Hd1 & Harr1 & Hts1).
  destruct (events_cloned h h1 ts ts1 Hts Hts1 Hev Hmap) as (Hev1 & Hstarts & Hends).
  assert (is_cont T') as HcT' by (apply lkind_is_cont; congruence).
  rewrite (lkind_lvalue T' HcT'), Hroot', Hroot in Hd1.
  destruct (determine_time_domain_events h1 (defaultParameters w) d1 (map lvalue ts1))
    as (h' & sorted & Hdet & Hs & He & _); auto.
  { intros E. apply map_eq_nil in E. subst ts1. destruct ts; [done|discriminate]. }
  exists h', {| defaultParameters := defaultParameters w;
                params := VRef (defaultParameters w) |}.
  split; [|split; [done|split]].
  - unfold GanttChartInit.init. rewrite <- Hroot, Hrun, Hroot, Hdet. done.
  - cbn [params]. by rewrite Hs, Hstarts.
  - cbn [params]. by rewrite He, Hends.
Qed.

(** init on a widget whose defaults hold no data, with an argument that
    holds none: the domain is the one configured, the argument's where it
    gives a date and the defaults' where it gives nothing. *)
Lemma init_keeps_configured_domain h T O w :
  rep h T -> rep h O -> lkind T = Some false -> lkind O = Some false ->
  NoDup (locs T) -> Forall (fun x => x ∉ locs T) (locs O) ->
  root T = defaultParameters w ->
  (exists d0, get h (lvalue T) data_key = VRef d0 /\ h !! d0 = Some (Array [])) ->
  (get h (lvalue O) data_key = VUndefined \/
   exists d, get h (lvalue O) data_key = VRef d /\ h !! d = Some (Array [])) ->
  exists h' w',
    GanttChartInit.init (depth O) h w (lvalue O) = Normal (h', w') /\
    params w' = VRef (defaultParameters w) /\
    forall k, k = startTime_key \/ k = endTime_key ->
      (forall s, get h (lvalue O) k = VDate s -> get h' (params w') k = VDate s) /\
      (forall s, get h (lvalue O) k = VUndefined -> get h (lvalue T) k = VDate s ->
                 get h' (params w') k = VDate s).
Proof.
  intros HrT HrO HkT HkO Hnd Hapart Hroot (d0 & Hd0 & Hempty) Hdata.
  assert (is_cont O) as HcO by (apply lkind_is_cont; congruence).
  destruct (extend_refines (depth O) h T O)
    as (h1 & T' & Hrun & Her & Hrep & Hroot' & Hk' & _); auto.
  { congruence. }
  { intros x Hx. exact (rep_bounded h T x HrT Hx). }
  { intros x Hx. split; [exact (rep_bounded h O x HrO Hx)|].
    rewrite Forall_forall in Hapart. by apply Hapart. }
  assert (lkind T' = Some false) as HkT' by congruence.
  assert (is_cont T') as HcT' by (apply lkind_is_cont; congruence).
  assert (forall k, tget (erase T') k = merged (tget (erase T) k) (tget (erase O) k))
    as Hget.
  { intros k. rewrite Her. apply extend_get; [by eapply rep_wf|].
    apply same_kind_lkind; [congruence|done]. }
  destruct (rep_get_array h T data_key d0 [] HrT (lstores_object T _ HkT) Hd0 Hempty)
    as (ts0 & HfT & Hts0 & _).
  apply map_eq_nil in Hts0 as ->.
  assert (tget (erase T') data_key = Arr []) as HdataT'.
  { rewrite Hget, (lfield_tget T), HfT. destruct Hdata as [Hu|(d & Hd & Harr)].
    - apply (get_leaf_tget h O _ _ HrO (lstores_object O _ HkO)) in Hu; [|done].
      by rewrite Hu.
    - destruct (rep_get_array h O data_key d [] HrO (lstores_object O _ HkO) Hd Harr)
        as (ts & HfO & Hts & _).
      apply map_eq_nil in Hts as ->. by rewrite (lfield_tget O), HfO. }
  destruct (tget_arr_rep h1 T' data_key _ Hrep (lstores_object T' _ HkT') HdataT')
    as (d1 & ts1 & Hmap & Hd1 & Harr1 & _).
  apply map_eq_nil in Hmap as ->.
  rewrite (lkind_lvalue T' HcT'), Hroot', Hroot in Hd1.
  exists h1, {| defaultParameters := defaultParameters w;
                params := VRef (defaultParameters w) |}.
  split; [|split; [done|]].
  - unfold GanttChartInit.init. rewrite <- Hroot, Hrun, Hroot.
    unfold determine_time_domain. by rewrite Hd1, Harr1.
  - intros k Hk. cbn [params]. rewrite <- Hroot, <- Hroot', <- (lkind_lvalue T' HcT').
    split.
    + intros s Hs.
      apply (get_leaf_tget h O _ _ HrO (lstores_object O _ HkO)) in Hs; [|done].
      apply (get_leaf_tget h1 T' _ _ Hrep (lstores_object T' _ HkT')); [done|].
      by rewrite Hget, Hs.
    + intros s Hu Hs.
      apply (get_leaf_tget h O _ _ HrO (lstores_object O _ HkO)) in Hu; [|done].
      apply (get_leaf_tget h T _ _ HrT (lstores_object T _ HkT)) in Hs; [|done].
      apply (get_leaf_tget h1 T' _ _ Hrep (lstores_object T' _ HkT')); [done|].
      by rewrite Hget, Hu, Hs.
Qed.

(** The deep extend stores the defined leaves of the options into the
    target object itself, and leaves the objects of the options alone. *)
Lemma extend_sets_target_leaf h T O k v :
  rep h T -> rep h O -> lkind T = lkind O -> is_cont O ->
  NoDup (locs T) -> Forall (fun x => x ∉ locs T) (locs O) ->
  lstores O k -> get h (lvalue O) k = v ->
  v <> VUndefined -> (forall l, v <> VRef l) ->
  exists h',
    JQuery.extend (depth O) h (root T) (lvalue O) = Some h' /\
    get h' (VRef (root T)) k = v /\
    forall l, l ∈ locs O -> h' !! l = h !! l.
Proof.
  intros HrT HrO Hk HcO Hnd Hapart Hs Hget Hdef Hv.
  rewrite Forall_forall in Hapart.
  destruct (extend_refines (depth O) h T O)
    as (h1 & T' & Hrun & Her & Hrep & Hroot' & Hk' & _ & Hframe & _); auto.
  { intros x Hx. exact (rep_bounded h T x HrT Hx). }
  { intros x Hx. split; [exact (rep_bounded h O x HrO Hx)|by apply Hapart]. }
  exists h1. split; [done|]. split.
  - assert (is_cont T') as HcT'.
    { apply lkind_is_cont. rewrite Hk', Hk. by apply lkind_is_cont. }
    assert (lstores T' k) as Hs' by (apply (lstores_lkind O); congruence).
    rewrite <- Hroot', <- (lkind_lvalue T' HcT').
    apply (get_leaf_tget h1 T' k v Hrep Hs' Hv).
    rewrite Her, extend_get; [|by eapply rep_wf|by apply same_kind_lkind].
    apply (get_leaf_tget h O k v HrO Hs Hv) in Hget. rewrite Hget.
    unfold merged. by destruct v.
  - intros l Hl. apply Hframe; [exact (rep_bounded h O l HrO Hl)|by apply Hapart].
Qed.

End InitRefines.

(** Proves that a store holds a given tree, by reading the store. *)
Ltac solve_rep :=
  lazymatch goal with
  | |- rep _ (LLeaf _) => by constructor
  | |- rep _ (LObject _ _) =>
      constructor; [reflexivity | by apply (bool_decide_unpack _) | solve_rep]
  | |- rep _ (LArr _ _) => constructor; [reflexivity | solve_rep]
  | |- Forall _ [] => constructor
  | |- Forall _ (_ :: _) => constructor; [simpl; solve_rep | solve_rep]
  end.


(* ===================================================================== *)
(** ** Scales                                                             *)
(* ===================================================================== *)

Section ScaleFacts.
Import D3.

Lemma Qltb_false x y : y <= x -> Qltb x y = false.
Proof.
  intros H. unfold Qltb. apply negb_false_iff. by apply Qle_bool_iff.
Qed.

Lemma Qltb_true x y : x < y -> Qltb x y = true.
Proof.
  intros H. unfold Qltb. apply negb_true_iff. apply not_true_is_false.
  rewrite Qle_bool_iff. lra.
Qed.

Lemma Qle_bool_false x y : y < x -> Qle_bool x y = false.
Proof. intros H. apply not_true_is_false. rewrite Qle_bool_iff. lra. Qed.

Lemma Qle_bool_true x y : x <= y -> Qle_bool x y = true.
Proof. apply Qle_bool_iff. Qed.

Lemma Qeq_bool_false x y : ~ x == y -> Qeq_bool x y = false.
Proof. intros H. apply not_true_is_false. by rewrite Qeq_bool_iff. Qed.

Lemma bimap_ascending d0 d1 r0 r1 x :
  d0 <= d1 ->
  bimap d0 d1 r0 r1 x = interpolateNumber r0 r1 (deinterpolateClamp d0 d1 x).
Proof. intros H. unfold bimap. by rewrite Qltb_false. Qed.

Lemma clamp_below a b x : x <= a -> deinterpolateClamp a b x = 0.
Proof. intros H. unfold deinterpolateClamp. by rewrite Qle_bool_true. Qed.

Lemma clamp_above a b x : a < x -> b <= x -> deinterpolateClamp a b x = 1.
Proof.
  intros H1 H2. unfold deinterpolateClamp.
  rewrite Qle_bool_false by done. by rewrite Qle_bool_true.
Qed.

Lemma clamp_inside a b x :
  a < x -> x < b -> deinterpolateClamp a b x = (x - a) / (b - a).
Proof.
  intros H1 H2. unfold deinterpolateClamp, deinterpolateLinear.
  rewrite !Qle_bool_false by done.
  rewrite Qeq_bool_false; [done|]. lra.
Qed.

Lemma ratio_range a b x : a < x -> x < b -> 0 <= (x - a) / (b - a) <= 1.
Proof.
  intros H1 H2. split.
  - apply Qle_shift_div_l; lra.
  - apply Qle_shift_div_r; lra.
Qed.

Lemma ratio_mono a b x y : a < b -> x <= y -> (x - a) / (b - a) <= (y - a) / (b - a).
Proof.
  intros H1 H2. unfold Qdiv. apply Qmult_le_compat_r; [lra|].
  apply Qinv_le_0_compat. lra.
Qed.

Lemma clamp_cases a b x :
  (x <= a /\ deinterpolateClamp a b x = 0) \/
  (a < x /\ b <= x /\ deinterpolateClamp a b x = 1) \/
  (a < x /\ x < b /\ deinterpolateClamp a b x = (x - a) / (b - a)).
Proof.
  destruct (Qlt_le_dec a x) as [H1|H1].
  - destruct (Qlt_le_dec x b) as [H2|H2].
    + right; right. auto using clamp_inside.
    + right; left. auto using clamp_above.
  - left. auto using clamp_below.
Qed.

Lemma clamp_range a b x : 0 <= deinterpolateClamp a b x <= 1.
Proof.
  destruct (clamp_cases a b x) as [[_ ->]|[(_ & _ & ->)|(H1 & H2 & ->)]]; [lra|lra|].
  by apply ratio_range.
Qed.

Lemma clamp_mono a b x y :
  x <= y -> deinterpolateClamp a b x <= deinterpolateClamp a b y.
Proof.
  intros Hxy.
  destruct (clamp_cases a b x) as [[Hx ->]|[(Hx1 & Hx2 & ->)|(Hx1 & Hx2 & ->)]].
  - apply clamp_range.
  - rewrite clamp_above by lra. lra.
  - destruct (clamp_cases a b y) as [[Hy ->]|[(Hy1 & Hy2 & ->)|(Hy1 & Hy2 & ->)]].
    + lra.
    + by apply ratio_range.
    + apply ratio_mono; lra.
Qed.

Lemma scaleTime_unfold d0 d1 w x :
  (d0 <= d1)%Z ->
  scaleTime d0 d1 0 w x ==
  w * deinterpolateClamp (inject_Z d0) (inject_Z d1) (inject_Z x).
Proof.
  intros H. unfold scaleTime. rewrite bimap_ascending by (by rewrite <- Zle_Qle).
  unfold interpolateNumber. ring.
Qed.

Lemma scaleTime_mono d0 d1 w x y :
  (d0 <= d1)%Z -> 0 <= w -> (x <= y)%Z ->
  scaleTime d0 d1 0 w x <= scaleTime d0 d1 0 w y.
Proof.
  intros Hd Hw Hxy. rewrite !scaleTime_unfold by done.
  assert (deinterpolateClamp (inject_Z d0) (inject_Z d1) (inject_Z x)
          <= deinterpolateClamp (inject_Z d0) (inject_Z d1) (inject_Z y)) as Hm.
  { apply clamp_mono. by rewrite <- Zle_Qle. }
  nra.
Qed.

End ScaleFacts.

Section BandFacts.
Import D3.

Lemma elem_of_add_names names : forall dom x,
  x ∈ add_names dom names <-> x ∈ dom \/ x ∈ names.
Proof.
  induction names as [|d names IH]; intros dom x; simpl.
  - split; [by left|]. intros [?|H]; [done|by apply elem_of_nil in H].
  - destruct (decide (d ∈ dom)) as [Hin|Hnin]; rewrite IH.
    + rewrite elem_of_cons. split; [intros [?|?]; auto|].
      intros [?|[->|?]]; auto.
    + rewrite elem_of_app, list_elem_of_singleton, elem_of_cons. tauto.
Qed.

Lemma add_names_NoDup names : forall dom,
  NoDup (dom ++ names) -> add_names dom names = dom ++ names.
Proof.
  induction names as [|d names IH]; intros dom Hnd; simpl.
  - by rewrite app_nil_r.
  - apply NoDup_app in Hnd as Hparts. destruct Hparts as (Hdom & Hdisj & Hnames).
    rewrite decide_False.
    2:{ intros Hin. apply (Hdisj d Hin). left. }
    rewrite IH; [by rewrite <- app_assoc|].
    rewrite <- app_assoc. done.
Qed.

Lemma ordinal_domain_NoDup names : NoDup names -> ordinal_domain names = names.
Proof. intros H. unfold ordinal_domain. by rewrite add_names_NoDup. Qed.

Lemma index_of_None x l : x ∉ l -> index_of x l = None.
Proof.
  induction l as [|y l IH]; [done|]. intros Hnin.
  apply not_elem_of_cons in Hnin as [Hne Hnin]. simpl.
  rewrite decide_False by done. by rewrite IH.
Qed.

Lemma index_of_lookup l : forall k x,
  NoDup l -> l !! k = Some x -> index_of x l = Some k.
Proof.
  induction l as [|y l IH]; intros k x Hnd Hk; [done|].
  apply NoDup_cons in Hnd as [Hnin Hnd]. destruct k as [|k]; simpl in *.
  - injection Hk as ->. by rewrite decide_True.
  - rewrite decide_False.
    + by rewrite (IH k x).
    + intros ->. apply Hnin. by eapply list_elem_of_lookup_2.
Qed.

Lemma nat_Q_S n : nat_Q (S n) == nat_Q n + 1.
Proof. unfold nat_Q. rewrite Nat2Z.inj_succ, <- Z.add_1_r, inject_Z_plus. reflexivity. Qed.

Lemma nat_Q_pos n : (0 < n)%nat -> 1 <= nat_Q n.
Proof.
  intros H. unfold nat_Q. change 1 with (inject_Z 1). rewrite <- Zle_Qle. lia.
Qed.

Lemma nat_Q_nonneg n : 0 <= nat_Q n.
Proof. unfold nat_Q. change 0 with (inject_Z 0). rewrite <- Zle_Qle. lia. Qed.

(** The band scale over [n > 0] distinct names and a range [0, h] with
    [0 <= h]. *)
Lemma scaleBand_distinct names h :
  NoDup names -> names <> [] -> 0 <= h ->
  let b := scaleBand names 0 h in
  let n := nat_Q (length names) in
  domain b = names /\
  bandwidth b == h / n /\
  step b == h / n /\
  forall k name, names !! k = Some name ->
    exists y, band_apply b name = Some y /\ y == nat_Q k * (h / n).
Proof.
  intros Hnd Hne Hh. cbv zeta.
  assert (Hn : 1 <= nat_Q (length names)).
  { apply nat_Q_pos. destruct names; [done|simpl; lia]. }
  unfold scaleBand. rewrite ordinal_domain_NoDup by done.
  rewrite Qltb_false by done. simpl domain. simpl bandwidth. simpl step.
  set (n := nat_Q (length names)) in *.
  assert (Hmax : Qmax 1 (n - 0 + 0 * 2) == n).
  { assert (n - 0 + 0 * 2 == n) as -> by ring. by apply Q.max_r. }
  assert (Hstep : (h - 0) / Qmax 1 (n - 0 + 0 * 2) == h / n).
  { rewrite Hmax. unfold Qdiv. ring. }
  split; [done|]. split; [rewrite Hstep; ring|]. split; [done|].
  intros k name Hk.
  unfold band_apply. simpl domain. simpl ordinalRange.
  rewrite (index_of_lookup names k name) by done.
  assert (Hlt : (k < length names)%nat) by (by eapply lookup_lt_Some).
  rewrite length_map, length_seq, Nat.mod_small by done.
  rewrite list_lookup_fmap, lookup_seq_lt by done. simpl.
  eexists. split; [done|].
  rewrite Hstep. field. lra.
Qed.

End BandFacts.

(* ===================================================================== *)
(** ** Drawing                                                            *)
(* ===================================================================== *)

Section DrawFacts.
Import GanttChart.

Lemma draw_returns p :
  draw p = Normal (after_draw p,
                   {| xAxisSvg := drawXAxis (computeDimensions p);
                      yAxisSvg := (drawYAxis (computeDimensions p)).2;
                      containerHeight := height (after_draw p);
                      containerWidth := width (after_draw p);
                      containerLeft := YAxis.width (yAxis (after_draw p));
                      chartWidth := width (after_draw p);
                      chartHeight := height (after_draw p);
                      elements := map (drawElement (after_draw p))
                                      (data (after_draw p)) |}).
Proof. reflexivity. Qed.

Lemma computeDimensions_data p : data (computeDimensions p) = data p.
Proof.
  unfold computeDimensions.
  destruct (YAxis.dynamicHeight (yAxis p)); simpl;
    destruct (XAxis.dynamicWidth (xAxis p)); reflexivity.
Qed.

Lemma computeDimensions_height p :
  height (computeDimensions p) =
  if YAxis.dynamicHeight (yAxis p)
  then YAxis.elementHeight (yAxis p) * D3.nat_Q (length (activities p))
  else height p.
Proof.
  unfold computeDimensions.
  destruct (YAxis.dynamicHeight (yAxis p)); simpl;
    destruct (XAxis.dynamicWidth (xAxis p)); reflexivity.
Qed.

Lemma computeDimensions_width p :
  width (computeDimensions p) =
  if XAxis.dynamicWidth (xAxis p)
  then XAxis.tickDistance (xAxis p) *
       D3.nat_Q (length (D3.range (XAxis.interval (xAxis p)) (startTime p) (endTime p)))
  else width p.
Proof.
  unfold computeDimensions.
  destruct (YAxis.dynamicHeight (yAxis p)); simpl;
    destruct (XAxis.dynamicWidth (xAxis p)); reflexivity.
Qed.

Lemma computeDimensions_activities p : activities (computeDimensions p) = activities p.
Proof.
  unfold computeDimensions.
  destruct (YAxis.dynamicHeight (yAxis p)); simpl;
    destruct (XAxis.dynamicWidth (xAxis p)); reflexivity.
Qed.

Lemma computeDimensions_yAxis p : yAxis (computeDimensions p) = yAxis p.
Proof.
  unfold computeDimensions.
  destruct (YAxis.dynamicHeight (yAxis p)); simpl;
    destruct (XAxis.dynamicWidth (xAxis p)); reflexivity.
Qed.

Lemma band_apply_unknown names r0 r1 d :
  d ∉ names -> D3.band_apply (D3.scaleBand names r0 r1) d = None.
Proof.
  intros Hnin. unfold D3.band_apply. simpl.
  rewrite index_of_None; [done|].
  unfold D3.ordinal_domain. rewrite elem_of_add_names.
  intros [H|H]; [by apply elem_of_nil in H|done].
Qed.

Lemma after_draw_activities p : activities (after_draw p) = activities p.
Proof. unfold after_draw. simpl. apply computeDimensions_activities. Qed.

Lemma after_draw_data p : data (after_draw p) = data p.
Proof. unfold after_draw. simpl. apply computeDimensions_data. Qed.

Lemma after_draw_height p : height (after_draw p) = height (computeDimensions p).
Proof. reflexivity. Qed.

Lemma after_draw_width p : width (after_draw p) = width (computeDimensions p).
Proof. reflexivity. Qed.

Lemma after_draw_elementHeight p :
  YAxis.elementHeight (yAxis (after_draw p)) =
  D3.bandwidth (yAxisScale (computeDimensions p)).
Proof. reflexivity. Qed.

Lemma after_draw_dynamicHeight p :
  YAxis.dynamicHeight (yAxis (after_draw p)) = YAxis.dynamicHeight (yAxis p).
Proof. unfold after_draw. simpl. by rewrite computeDimensions_yAxis. Qed.

Lemma elementTranslate_unknown p elem :
  activity elem ∉ names_of p -> ty (elementTranslate p elem) = None.
Proof. intros H. unfold elementTranslate. simpl. by apply band_apply_unknown. Qed.

End DrawFacts.

(* ===================================================================== *)
(** ** Checking a given store                                             *)
(* ===================================================================== *)

Lemma elem_of_refs_of o l : VRef l ∈ values_of o -> l ∈ refs_of o.
Proof.
  intros H. unfold refs_of. apply list_elem_of_omap. by exists (VRef l).
Qed.

Lemma well_formedb_sound h : well_formedb h = true -> well_formed h.
Proof.
  intros Hb l o l' Hl Hin. unfold well_formedb in Hb.
  rewrite forallb_forall in Hb.
  assert (Ho : In o h).
  { apply list_elem_of_In. by eapply list_elem_of_lookup_2. }
  specialize (Hb o Ho). rewrite forallb_forall in Hb.
  apply Nat.ltb_lt, Hb, list_elem_of_In. by apply elem_of_refs_of.
Qed.

Lemma closedb_sound h (R : nat -> bool) :
  closedb h R = true -> closed h (fun l => R l = true).
Proof.
  intros Hb l o l' HR Hl Hin. unfold closedb in Hb.
  rewrite forallb_forall in Hb.
  assert (Hlo : In (l, o) (combine (seq 0 (length h)) h)).
  { apply list_elem_of_In, list_elem_of_lookup. exists l.
    assert (Hlt : (l < length h)%nat) by (by eapply lookup_lt_Some).
    apply (lookup_zip_with_Some pair). exists l, o.
    split; [done|]. split; [|done]. by rewrite lookup_seq_lt. }
  specialize (Hb _ Hlo). simpl in Hb. rewrite HR in Hb. simpl in Hb.
  rewrite forallb_forall in Hb. apply Hb, list_elem_of_In. by apply elem_of_refs_of.
Qed.

(* ===================================================================== *)
(** ** Time-domain inference                                              *)
(* ===================================================================== *)

Lemma starts_of_spans h l : map (start_of h) l = map fst (map (span_of h) l).
Proof. by rewrite map_map. Qed.

Lemma ends_of_spans h l : map (end_of h) l = map snd (map (span_of h) l).
Proof. by rewrite map_map. Qed.

(** C1. When [this.params.data] is a non-empty array of data points, the
    time-domain block of init returns and leaves in [startTime] the
    minimum of their start timestamps and in [endTime] the maximum of
    their end timestamps; a store holding the same data points in another
    order resolves to the same two values; on an empty array the block
    returns the store as it is, the configured domain included. So init,
    on a widget whose defaults hold no data and share no object with the
    argument: given a non-empty array of data points, it returns with
    the minimum of their starts and the maximum of their ends as the
    domain of [this.params]; given no data, it returns with the
    configured domain, the argument's dates where it gives them and the
    defaults' where it gives nothing. *)
Theorem C1_time_domain_inferred :
  (forall (h : heap) (p d : loc) (elems : list value),
     get h (VRef p) data_key = VRef d ->
     h !! d = Some (Array elems) ->
     Forall (is_event h) elems ->
     (elems = [] -> determine_time_domain h p = Normal h) /\
     (elems <> [] ->
      exists h',
        determine_time_domain h p = Normal h' /\
        get h' (VRef p) startTime_key = VDate (minimum_of (map (start_of h) elems)) /\
        get h' (VRef p) endTime_key = VDate (maximum_of (map (end_of h) elems)) /\
        forall h2 p2 d2 elems2,
          get h2 (VRef p2) data_key = VRef d2 ->
          h2 !! d2 = Some (Array elems2) ->
          Forall (is_event h2) elems2 ->
          Permutation (map (span_of h) elems) (map (span_of h2) elems2) ->
          exists h2',
            determine_time_domain h2 p2 = Normal h2' /\
            get h2' (VRef p2) startTime_key = get h' (VRef p) startTime_key /\
            get h2' (VRef p2) endTime_key = get h' (VRef p) endTime_key)) /\
  (forall (h : heap) (T O : ltree) (w : widget) (d : loc) (elems : list value),
     rep h T -> rep h O -> lkind T = Some false -> lkind O = Some false ->
     NoDup (locs T) -> Forall (fun x => x ∉ locs T) (locs O) ->
     root T = defaultParameters w ->
     (exists d0, get h (lvalue T) data_key = VRef d0 /\ h !! d0 = Some (Array [])) ->
     get h (lvalue O) data_key = VRef d -> h !! d = Some (Array elems) ->
     elems <> [] -> Forall (is_event h) elems ->
     exists h' w',
       GanttChartInit.init (depth O) h w (lvalue O) = Normal (h', w') /\
       params w' = VRef (defaultParameters w) /\
       get h' (params w') startTime_key = VDate (minimum_of (map (start_of h) elems)) /\
       get h' (params w') endTime_key = VDate (maximum_of (map (end_of h) elems))) /\
  (forall (h : heap) (T O : ltree) (w : widget),
     rep h T -> rep h O -> lkind T = Some false -> lkind O = Some false ->
     NoDup (locs T) -> Forall (fun x => x ∉ locs T) (locs O) ->
     root T = defaultParameters w ->
     (exists d0, get h (lvalue T) data_key = VRef d0 /\ h !! d0 = Some (Array [])) ->
     (get h (lvalue O) data_key = VUndefined \/
      exists d, get h (lvalue O) data_key = VRef d /\ h !! d = Some (Array [])) ->
     exists h' w',
       GanttChartInit.init (depth O) h w (lvalue O) = Normal (h', w') /\
       params w' = VRef (defaultParameters w) /\
       forall k, k = startTime_key \/ k = endTime_key ->
         (forall s, get h (lvalue O) k = VDate s ->
                    get h' (params w') k = VDate s) /\
         (forall s, get h (lvalue O) k = VUndefined ->
                    get h (lvalue T) k = VDate s ->
                    get h' (params w') k = VDate s)).
Proof.
  split; [|split].
  - intros h p d elems Hdata Hd Hev. split.
    + intros ->. unfold determine_time_domain. by rewrite Hdata, Hd.
    + intros Hne.
      destruct (determine_time_domain_events h p d elems)
        as (h' & sorted & Hdet & Hs & He & _); try done.
      exists h'. split; [done|]. split; [done|]. split; [done|].
      intros h2 p2 d2 elems2 Hdata2 Hd2 Hev2 Hperm.
      assert (Hne2 : elems2 <> []).
      { intros ->. apply Permutation_sym, Permutation_nil in Hperm.
        by destruct elems. }
      destruct (determine_time_domain_events h2 p2 d2 elems2)
        as (h2' & sorted2 & Hdet2 & Hs2 & He2 & _); try done.
      exists h2'. split; [done|]. rewrite Hs, He, Hs2, He2.
      rewrite !starts_of_spans, !ends_of_spans.
      split; f_equal.
      * apply minimum_of_perm. by apply Permutation_map, Permutation_sym.
      * apply maximum_of_perm. by apply Permutation_map, Permutation_sym.
  - exact init_infers_time_domain.
  - exact init_keeps_configured_domain.
Qed.

Lemma readme_data_events :
  Forall (is_event Readme.store) [VRef 12; VRef 13; VRef 14; VRef 15].
Proof. repeat constructor; eexists; reflexivity. Qed.

Lemma rep_defaults_tree : rep Readme.store Readme.defaults_tree.
Proof. unfold Readme.defaults_tree. solve_rep. Qed.

Lemma rep_argument_tree : rep Readme.store Readme.argument_tree.
Proof. unfold Readme.argument_tree. solve_rep. Qed.

(** The call of the README: the domain is 07:00 to 17:30. *)
Lemma C1_time_domain_inferred_witness :
  exists h' w',
    GanttChartInit.init 3 Readme.store GanttChartInit.ganttChart Readme.argument
      = Normal (h', w') /\
    get h' (params w') startTime_key = VDate (Readme.at_time 7 0) /\
    get h' (params w') endTime_key = VDate (Readme.at_time 17 30).
Proof.
  destruct C1_time_domain_inferred as (_ & Hinit & _).
  destruct (Hinit Readme.store Readme.defaults_tree Readme.argument_tree
              GanttChartInit.ganttChart 11%nat [VRef 12; VRef 13; VRef 14; VRef 15])
    as (h' & w' & Hrun & _ & Hs & He).
  - exact rep_defaults_tree.
  - exact rep_argument_tree.
  - reflexivity.
  - reflexivity.
  - by apply (bool_decide_unpack _).
  - by apply (bool_decide_unpack _).
  - reflexivity.
  - exists 2%nat. split; reflexivity.
  - reflexivity.
  - reflexivity.
  - discriminate.
  - exact readme_data_events.
  - exists h', w'. split; [exact Hrun|]. split; [exact Hs|exact He].
Defined.

(* ===================================================================== *)
(** ** The merge of init                                                  *)
(* ===================================================================== *)

Section MergeClaims.
Import Tree.

(** C2 (amended). [$.extend(true, target, options)], the merge of
    d3.ganttChart.init, on a store that holds at [target] and [options]
    two trees of one kind that share no object: the call returns, the
    store then holds a tree at [target], no object outside the target's
    tree has changed, and that tree holds under every key: the target's
    value where the options hold nothing or undefined; the options' value
    where it is a defined leaf; where it is a plain object or an array,
    the deep extend by it of the target's value when that has the same
    kind, and of an empty container of that kind otherwise, arrays being
    extended index by index. So a defined leaf of the options is in the
    result at its path, and a path of the target that the options leave
    alone holds what it held. *)
Theorem C2_extend_is_deep (h : heap) (T O : ltree) :
  rep h T -> rep h O -> lkind T = lkind O -> is_cont O ->
  NoDup (locs T) -> Forall (fun x => x ∉ locs T) (locs O) ->
  exists h' T',
    JQuery.extend (depth O) h (root T) (lvalue O) = Some h' /\
    rep h' T' /\ root T' = root T /\
    (forall l, (l < length h)%nat -> l ∉ locs T -> h' !! l = h !! l) /\
    erase T' = extend (erase T) (erase O) /\
    (forall k, tget (erase O) k = undefined ->
               tget (erase T') k = tget (erase T) k) /\
    (forall k v, tget (erase O) k = Leaf v -> v <> VUndefined ->
                 tget (erase T') k = Leaf v) /\
    (forall k, is_container (tget (erase O) k) ->
               same_kind (tget (erase T) k) (tget (erase O) k) = true ->
               tget (erase T') k = extend (tget (erase T) k) (tget (erase O) k)) /\
    (forall k, is_container (tget (erase O) k) ->
               same_kind (tget (erase T) k) (tget (erase O) k) = false ->
               tget (erase T') k =
                 extend (empty_like (tget (erase O) k)) (tget (erase O) k)) /\
    (forall p v, p <> [] -> v <> VUndefined -> tget_path (erase O) p = Leaf v ->
                 tget_path (erase T') p = Leaf v) /\
    (forall p, spared (erase O) (erase T) p ->
               tget_path (erase T') p = tget_path (erase T) p).
Proof.
  intros HrT HrO Hkind HcO Hnd Hapart.
  destruct (extend_refines (depth O) h T O)
    as (h' & T' & Hrun & Her & Hrep & Hroot & _ & _ & Hframe & _); auto.
  { intros x Hx. exact (rep_bounded h T x HrT Hx). }
  { intros x Hx. split; [exact (rep_bounded h O x HrO Hx)|].
    rewrite Forall_forall in Hapart. by apply Hapart. }
  exists h', T'. split; [done|]. split; [done|]. split; [done|].
  split; [done|]. split; [done|]. rewrite Her.
  pose proof (rep_wf h O HrO) as Hwf.
  pose proof (same_kind_lkind T O Hkind HcO) as Hk.
  split; [|split; [|split; [|split; [|split]]]].
  - intros k Hu. rewrite extend_get by done. by rewrite Hu.
  - intros k v Hv Hdef. rewrite extend_get by done. rewrite Hv. simpl.
    by destruct v.
  - intros k Hc Hs. rewrite extend_get by done. unfold merged, clone_for.
    rewrite Hs. by destruct (tget (erase O) k).
  - intros k Hc Hs. rewrite extend_get by done. unfold merged, clone_for.
    rewrite Hs. by destruct (tget (erase O) k).
  - intros p v Hp Hv Hleaf. by apply extend_keeps_option_leaf.
  - intros p Hsp. by apply extend_keeps_spared.
Qed.

Lemma rep_defaults_yAxis : rep Readme.merge_store Readme.defaults_yAxis.
Proof. unfold Readme.defaults_yAxis. solve_rep. Qed.

Lemma rep_overrides_yAxis : rep Readme.merge_store Readme.overrides_yAxis.
Proof. unfold Readme.overrides_yAxis. solve_rep. Qed.

(** The example of the specification: [{yAxis: {width: 50}}] over
    [{yAxis: {width: 15, dynamicHeight: true}}]. *)
Lemma C2_extend_is_deep_witness :
  exists h' T',
    JQuery.extend 2 Readme.merge_store 0 (VRef 2) = Some h' /\
    rep h' T' /\ root T' = 0%nat /\
    tget_path (erase T') [KName "yAxis"; KName "width"]%string
      = Leaf (VNumber 50) /\
    tget_path (erase T') [KName "yAxis"; KName "dynamicHeight"]%string
      = Leaf (VBool true).
Proof.
  destruct (C2_extend_is_deep Readme.merge_store
              Readme.defaults_yAxis Readme.overrides_yAxis)
    as (h' & T' & Hrun & Hrep & Hroot & _ & _ & _ & _ & _ & _ & Hleaf & Hspared).
  - exact rep_defaults_yAxis.
  - exact rep_overrides_yAxis.
  - reflexivity.
  - exact I.
  - by apply (bool_decide_unpack _).
  - by apply (bool_decide_unpack _).
  - exists h', T'. split; [exact Hrun|]. split; [exact Hrep|].
    split; [exact Hroot|]. split.
    + apply Hleaf; [discriminate|discriminate|reflexivity].
    + rewrite Hspared; [reflexivity|].
      apply spared_below; [reflexivity|]. apply spared_here. reflexivity.
Defined.

(** The same call, run: the object of the defaults' y axis is updated in
    place. *)
Example extend_on_store :
  exists h',
    JQuery.extend 2 Readme.merge_store 0 (VRef 2) = Some h' /\
    get h' (VRef 0) (KName "yAxis") = VRef 1 /\
    h' !! 1%nat = Some (Plain [ (KName "width", VNumber 50);
                                (KName "dynamicHeight", VBool true) ]).
Proof. eexists. repeat split; reflexivity. Qed.

(** C2, as stated, fails. A key of the options does not always take the
    options' value: a default array longer than the override's keeps its
    tail; an array given for a default object drops the default's leaves
    under that key, none of which the options override; an undefined
    value overrides nothing. *)
Lemma C2_deep_merge_counterexample :
  (Readme.merge_store !! 7%nat = Some (Array [VString "Jane"]) /\
   exists h',
     JQuery.extend 2 Readme.merge_store 4 (VRef 6) = Some h' /\
     get h' (VRef 4) (KName "activities") = VRef 5 /\
     h' !! 5%nat = Some (Array [VString "Jane"; VString "Bob"])) /\
  (get Readme.merge_store (VRef 1) (KName "dynamicHeight") = VBool true /\
   exists h',
     JQuery.extend 2 Readme.merge_store 0 (VRef 8) = Some h' /\
     get h' (VRef 0) (KName "yAxis") = VRef 11 /\
     h' !! 11%nat = Some (Array [VNumber 50])) /\
  (get Readme.merge_store (VRef 10) (KName "width") = VUndefined /\
   enumerate Readme.merge_store (VRef 10) = [KName "width"] /\
   exists h',
     JQuery.extend 1 Readme.merge_store 4 (VRef 10) = Some h' /\
     get h' (VRef 4) (KName "width") = VNumber 200).
Proof.
  split; [|split].
  - split; [reflexivity|]. eexists. repeat split; reflexivity.
  - split; [reflexivity|]. eexists. repeat split; reflexivity.
  - split; [reflexivity|]. split; [reflexivity|]. eexists. split; reflexivity.
Qed.

End MergeClaims.

(** C3. The merge of init works on the defaults object itself: on a
    store that holds at [target] and [options] two trees of one kind
    that share no object, [$.extend(true, target, options)] returns,
    leaves every object of the options as it was, and leaves in the
    target object, under every key where the options hold a defined
    leaf, that leaf. So at the call of the README init returns,
    [this.params] is the defaults object itself, and the defaults have
    changed in place: the node, the width of the y axis, and the data
    array, which held nothing and now holds four data points. *)
Theorem C3_init_mutates_defaultParameters :
  (forall (h : heap) (T O : ltree) (k : key) (v : value),
     rep h T -> rep h O -> lkind T = lkind O -> is_cont O ->
     NoDup (locs T) -> Forall (fun x => x ∉ locs T) (locs O) ->
     lstores O k -> get h (lvalue O) k = v ->
     v <> VUndefined -> (forall l, v <> VRef l) ->
     exists h',
       JQuery.extend (depth O) h (root T) (lvalue O) = Some h' /\
       get h' (VRef (root T)) k = v /\
       forall l, l ∈ locs O -> h' !! l = h !! l) /\
  exists h' w',
    GanttChartInit.init 4 Readme.store GanttChartInit.ganttChart Readme.argument
      = Normal (h', w') /\
    params w' = VRef (defaultParameters GanttChartInit.ganttChart) /\
    get Readme.store (VRef 0) (KName "node") = VString "#gantt" /\
    get h' (VRef 0) (KName "node") = VString "#gantt-chart" /\
    get Readme.store (VRef 3) (KName "width") = VNumber 15 /\
    get h' (VRef 3) (KName "width") = VNumber 50 /\
    Readme.store !! 2%nat = Some (Array []) /\
    h' !! 2%nat = Some (Array [VRef 21; VRef 23; VRef 22; VRef 24]).
Proof.
  split; [exact extend_sets_target_leaf|].
  exists Readme.store_after_init, {| defaultParameters := 0%nat; params := VRef 0 |}.
  repeat split; vm_compute; reflexivity.
Qed.

(** The node of the README's argument, stored into the defaults. *)
Lemma C3_init_mutates_defaultParameters_witness :
  get Readme.store (VRef 0) (KName "node") = VString "#gantt" /\
  exists h',
    JQuery.extend 3 Readme.store 0 Readme.argument = Some h' /\
    get h' (VRef 0) (KName "node") = VString "#gantt-chart".
Proof.
  split; [reflexivity|].
  destruct C3_init_mutates_defaultParameters as [Hext _].
  destruct (Hext Readme.store Readme.defaults_tree Readme.argument_tree
              (KName "node") (VString "#gantt-chart"))
    as (h' & Hrun & Hget & _).
  - exact rep_defaults_tree.
  - exact rep_argument_tree.
  - reflexivity.
  - exact I.
  - by apply (bool_decide_unpack _).
  - by apply (bool_decide_unpack _).
  - exact I.
  - reflexivity.
  - discriminate.
  - discriminate.
  - exists h'. split; [exact Hrun|exact Hget].
Defined.

(** The typed parameters of the README's chart, on which the layout is
    run below, are what init leaves in the store. *)
Example readme_parameters_after_init :
  read_parameters Readme.intervals Readme.store_after_init (VRef 0)
    = Some Readme.parameters_after_init.
Proof. reflexivity. Qed.

(** The defect at work: a second call on the widget, with one data point
    from 12:00 to 13:00, finds the four of the first call in the
    defaults, writes over the first of them, keeps the other three and
    resolves the domain 08:00 to 17:30. *)
Example second_init_keeps_stale_data :
  exists h' w',
    GanttChartInit.init 4 (Readme.store_after_init ++ Readme.second_argument_objects)
      GanttChartInit.ganttChart (VRef 25) = Normal (h', w') /\
    get h' (VRef 0) startTime_key = VDate (Readme.at_time 8 0) /\
    get h' (VRef 0) endTime_key = VDate (Readme.at_time 17 30) /\
    exists es, h' !! 2%nat = Some (Array es) /\ length es = 4%nat.
Proof.
  eexists _, _. split; [vm_compute; reflexivity|].
  split; [reflexivity|]. split; [reflexivity|].
  eexists. split; reflexivity.
Qed.

(* ===================================================================== *)
(** ** init of d3.ganttChart and the caller's data                        *)
(* ===================================================================== *)

Section ChartInitData.
Import Tree.

Lemma existsb_nullish elems :
  existsb is_nullish elems = true <-> Exists (fun v => is_nullish v = true) elems.
Proof.
  rewrite existsb_exists, Exists_exists. split.
  - intros (x & Hin & Hx). exists x. by rewrite list_elem_of_In.
  - intros (x & Hin & Hx). exists x. by rewrite <- list_elem_of_In.
Qed.

Lemma existsb_nullish_false elems :
  Forall (fun v => is_nullish v = false) elems -> existsb is_nullish elems = false.
Proof.
  intros Hall. destruct (existsb is_nullish elems) eqn:E; [|done].
  apply existsb_nullish, Exists_exists in E as (x & Hin & Hx).
  rewrite Forall_forall in Hall. rewrite (Hall x Hin) in Hx. done.
Qed.

(** The block on an array: what it returns and what it touches. *)
Lemma determine_time_domain_array h p d elems :
  get h (VRef p) data_key = VRef d ->
  h !! d = Some (Array elems) ->
  Forall (fun v => is_nullish v = false) elems ->
  exists h' sorted,
    determine_time_domain h p = Normal h' /\
    h' !! d = Some (Array sorted) /\
    Permutation sorted elems /\
    length h' = length h /\
    (forall l, l <> p -> l <> d -> h' !! l = h !! l) /\
    get h' (VRef p) data_key = VRef d.
Proof.
  intros Hdata Hd Hall.
  destruct (get_data_plain _ _ _ Hdata) as [ps Hp].
  assert (Hpd : p <> d) by (intros ->; congruence).
  unfold determine_time_domain. rewrite Hdata. simpl is_nullish. cbv iota.
  rewrite Hd. destruct elems as [|e0 es] eqn:Eelems.
  { exists h, []. by rewrite Hd. }
  rewrite <- Eelems in *. rewrite existsb_nullish_false by done.
  set (by_end := sort (compare_by end_key h) elems).
  set (h1 := <[d := Array by_end]> h).
  set (h2 := write h1 p endTime_key (get h1 (List.last by_end VUndefined) end_key)).
  set (by_start := sort (compare_by start_key h2) by_end).
  set (h3 := <[d := Array by_start]> h2).
  assert (Hlen1 : length h1 = length h) by apply length_insert.
  assert (Hlen2 : length h2 = length h) by (unfold h2; by rewrite length_write).
  assert (Hlen3 : length h3 = length h) by (unfold h3; by rewrite length_insert).
  assert (Hd' : (d < length h)%nat) by (by eapply lookup_lt_Some).
  assert (Hp1 : h1 !! p = Some (Plain ps)).
  { unfold h1. by rewrite list_lookup_insert_ne. }
  assert (Hp2 : h2 !! p = Some (Plain (update_prop endTime_key
            (get h1 (List.last by_end VUndefined) end_key) ps))).
  { unfold h2. by apply lookup_write_plain. }
  assert (Hp3 : h3 !! p = Some (Plain (update_prop endTime_key
            (get h1 (List.last by_end VUndefined) end_key) ps))).
  { unfold h3. by rewrite list_lookup_insert_ne. }
  eexists _, by_start. split; [reflexivity|]. split; [|split; [|split; [|split]]].
  - rewrite lookup_write_ne by done. unfold h3.
    apply list_lookup_insert_eq. lia.
  - unfold by_start, by_end. by rewrite !sort_perm.
  - by rewrite length_write.
  - intros l Hlp Hld. rewrite lookup_write_ne by done. unfold h3.
    rewrite list_lookup_insert_ne by done. unfold h2.
    rewrite lookup_write_ne by done. unfold h1.
    by rewrite list_lookup_insert_ne.
  - rewrite (get_write_ne_key _ _ _ _ _ _ _ Hp3) by done.
    unfold get. rewrite Hp3. simpl.
    rewrite lookup_update_prop_ne by done.
    unfold get in Hdata. rewrite Hp in Hdata. exact Hdata.
Qed.

Lemma pairs_eq {A B} (xs ys : list (A * B)) :
  map fst xs = map fst ys -> map snd xs = map snd ys -> xs = ys.
Proof.
  revert ys. induction xs as [|[a b] xs IH]; intros [|[a' b'] ys] Hf Hs; try done.
  simpl in *. injection Hf as -> Hf. injection Hs as -> Hs. f_equal. by apply IH.
Qed.

Lemma spans_eq h1 h2 l1 l2 :
  map (start_of h1) l1 = map (start_of h2) l2 ->
  map (end_of h1) l1 = map (end_of h2) l2 ->
  map (span_of h1) l1 = map (span_of h2) l2.
Proof.
  intros Hs He. apply pairs_eq.
  - by rewrite <- !starts_of_spans.
  - by rewrite <- !ends_of_spans.
Qed.

(** The object a child of a tree of the store refers to is one of the
    objects of that child. *)
Lemma rep_lvalue_ref h c l : rep h c -> lvalue c = VRef l -> l ∈ locs c.
Proof.
  intros Hrep Hl. destruct c as [v|l' fs|l' ts]; simpl in Hl.
  - inversion Hrep as [? Hv| |]; subst. by destruct (Hv l).
  - injection Hl as ->. left.
  - injection Hl as ->. left.
Qed.

Lemma lfield_locs T k c x : lfield T k = Some c -> x ∈ locs c -> x ∈ locs T.
Proof. intros Hf Hx. eapply children_sub; [by eapply lfield_children|done]. Qed.

(** init of d3.ganttChart on a widget whose defaults hold no data, with
    an argument that holds a non-empty array of data points: init
    returns, [this.params] is the defaults object, and its [data] is an
    array other than the caller's that holds, ascending by start, objects
    other than the caller's with the starts and ends of the caller's data
    points; the objects of the argument are as they were. *)
Lemma chart_init_sorts_copies h T O w d elems :
  rep h T -> rep h O -> lkind T = Some false -> lkind O = Some false ->
  NoDup (locs T) -> Forall (fun x => x ∉ locs T) (locs O) ->
  root T = defaultParameters w ->
  (exists d0, get h (lvalue T) data_key = VRef d0 /\ h !! d0 = Some (Array [])) ->
  get h (lvalue O) data_key = VRef d -> h !! d = Some (Array elems) ->
  elems <> [] -> Forall (is_event h) elems ->
  exists h' w' d' sorted,
    GanttChartInit.init (depth O) h w (lvalue O) = Normal (h', w') /\
    params w' = VRef (defaultParameters w) /\
    get h' (params w') data_key = VRef d' /\
    h' !! d' = Some (Array sorted) /\
    d' <> d /\
    ascending (fun v => inject_Z (start_of h' v)) sorted /\
    Permutation (map (span_of h') sorted) (map (span_of h) elems) /\
    (forall v, v ∈ sorted -> v ∉ elems) /\
    h' !! d = Some (Array elems) /\
    (forall l, l ∈ locs O -> h' !! l = h !! l).
Proof.
  intros HrT HrO HkT HkO Hnd Hapart Hroot (d0 & Hd0 & Hempty) Hd Helems Hne Hev.
  rewrite Forall_forall in Hapart.
  assert (is_cont O) as HcO by (apply lkind_is_cont; congruence).
  assert (is_cont T) as HcT by (apply lkind_is_cont; congruence).
  destruct (extend_refines (depth O) h T O)
    as (h1 & T' & Hrun & Her & Hrep & Hroot' & Hk' & _ & Hframe & Hsub & _); auto.
  { congruence. }
  { intros x Hx. exact (rep_bounded h T x HrT Hx). }
  { intros x Hx. split; [exact (rep_bounded h O x HrO Hx)|by apply Hapart]. }
  assert (Hdisj : forall x, x ∈ locs O -> x ∉ locs T').
  { intros x Hx Hx'. destruct (Hsub x Hx') as [?|Hge]; [by apply (Hapart x)|].
    pose proof (rep_bounded h O x HrO Hx). lia. }
  destruct (rep_get_array h T data_key d0 [] HrT (lstores_object T _ HkT) Hd0 Hempty)
    as (ts0 & HfT & Hts0 & _).
  apply map_eq_nil in Hts0 as ->.
  destruct (rep_get_array h O data_key d elems HrO (lstores_object O _ HkO) Hd Helems)
    as (ts & HfO & <- & Hts).
  assert (tget (erase T') data_key = Arr (map (extend (Object [])) (map erase ts)))
    as Hdata.
  { rewrite Her, extend_get;
      [|by eapply rep_wf|apply same_kind_lkind; [congruence|done]].
    rewrite !lfield_tget, HfT, HfO.
    change (extend (Arr []) (Arr (map erase ts)) =
            Arr (map (extend (Object [])) (map erase ts))).
    rewrite extend_arr.
    exact (merge_elems_fresh _ (events_objects h ts Hts Hev) []). }
  assert (lkind T' = Some false) as HkT' by congruence.
  assert (is_cont T') as HcT' by (apply lkind_is_cont; congruence).
  destruct (tget_arr_rep h1 T' data_key _ Hrep (lstores_object T' _ HkT') Hdata)
    as (d1 & ts1 & Hmap & Hd1 & Harr1 & Hts1).
  destruct (events_cloned h h1 ts ts1 Hts Hts1 Hev Hmap) as (Hev1 & Hstarts & Hends).
  destruct (rep_get_array h1 T' data_key d1 (map lvalue ts1) Hrep
              (lstores_object T' _ HkT') Hd1 Harr1) as (ts2 & HfT' & Hts2 & Hrts2).
  rewrite (lkind_lvalue T' HcT'), Hroot', Hroot in Hd1.
  assert (Hd1T : d1 ∈ locs T').
  { apply (lfield_locs T' data_key (LArr d1 ts2)); [done|left]. }
  assert (HdO : d ∈ locs O).
  { apply (lfield_locs O data_key (LArr d ts)); [done|left]. }
  assert (HpT : (defaultParameters w) ∈ locs T').
  { rewrite <- Hroot, <- Hroot'. by apply root_elem_of. }
  destruct (determine_time_domain_events h1 (defaultParameters w) d1 (map lvalue ts1))
    as (h' & sorted & Hdet & _ & _ & Hsorted & Hperm & Hasc & Hstart & Hend & Hfr); auto.
  { intros E. apply map_eq_nil in E. subst ts1. destruct ts; [done|discriminate]. }
  destruct (determine_time_domain_array h1 (defaultParameters w) d1 (map lvalue ts1) Hd1 Harr1)
    as (h'' & sorted' & Hdet' & _ & _ & _ & _ & Hkeep).
  { eapply Forall_impl; [exact Hev1|]. intros v. apply is_event_not_nullish. }
  rewrite Hdet in Hdet'. injection Hdet' as <-.
  assert (Hsame : forall l, l ∈ locs O -> h' !! l = h !! l).
  { intros l Hl. rewrite Hfr.
    - apply Hframe; [exact (rep_bounded h O l HrO Hl)|by apply Hapart].
    - intros ->. by apply (Hdisj (defaultParameters w)).
    - intros ->. by apply (Hdisj d1). }
  exists h', {| defaultParameters := (defaultParameters w); params := VRef (defaultParameters w) |}, d1, sorted.
  split; [|split; [done|split; [done|split; [done|split; [|split; [|split; [|split; [|split]]]]]]]].
  - unfold GanttChartInit.init. rewrite <- Hroot, Hrun, Hroot, Hdet. done.
  - intros E. apply (Hdisj d); [done|by rewrite <- E].
  - eapply ascending_ext; [|exact Hasc]. intros v. simpl. unfold start_of.
    by rewrite Hstart.
  - assert (map (span_of h') sorted = map (span_of h1) sorted) as ->.
    { apply map_ext. intros v. unfold span_of, start_of, end_of.
      by rewrite Hstart, Hend. }
    rewrite (Permutation_map (span_of h1) Hperm).
    by rewrite (spans_eq h1 h (map lvalue ts1) (map lvalue ts)).
  - intros v Hv Hv'.
    rewrite Hperm in Hv. rewrite <- Hts2 in Hv.
    apply list_elem_of_fmap in Hv as (c2 & -> & Hc2).
    apply list_elem_of_fmap in Hv' as (c & Hcv & Hc).
    rewrite Forall_forall in Hev.
    destruct (is_event_ref h (lvalue c)) as (l & Hl & _).
    { apply Hev. by apply list_elem_of_fmap_2. }
    rewrite Forall_forall in Hts, Hrts2.
    apply (Hdisj l).
    + apply (lfield_locs O data_key (LArr d ts)); [done|]. right.
      apply elem_of_concat_locs with c; [done|].
      apply (rep_lvalue_ref h); [by apply Hts|done].
    + apply (lfield_locs T' data_key (LArr d1 ts2)); [done|]. right.
      apply elem_of_concat_locs with c2; [done|].
      apply (rep_lvalue_ref h1); [by apply Hrts2|congruence].
  - rewrite Hsame by done. exact Helems.
  - exact Hsame.
Qed.

End ChartInitData.

(** C9 (amended). The time-domain block sorts in place, ascending by
    start timestamp, the array [this.params.data] refers to. The init of
    d3.ganttDiagram, whose util.extend copies the reference, thereby
    sorts the caller's array. The init of d3.ganttChart returns the
    defaults object as [this.params] and leaves every object outside the
    region of the defaults as it was, the caller's array among them. On a
    widget whose defaults hold no data it returns, and [this.params.data]
    is then an array other than the caller's that holds, ascending by
    start, copies of the caller's data points: objects other than the
    caller's, with the same starts and ends. The caller's array and the
    other objects of the argument are as they were. *)
Theorem C9_init_sorts_params_data :
  (forall h p d elems,
     get h (VRef p) data_key = VRef d ->
     h !! d = Some (Array elems) ->
     elems <> [] ->
     Forall (is_event h) elems ->
     exists h' sorted,
       determine_time_domain h p = Normal h' /\
       h' !! d = Some (Array sorted) /\
       Permutation sorted elems /\
       ascending (fun v => inject_Z (start_of h' v)) sorted) /\
  (forall h w u ups d elems,
     (defaultParameters w < length h)%nat ->
     h !! u = Some (Plain ups) ->
     lookup_prop data_key ups = Some (VRef d) ->
     h !! d = Some (Array elems) ->
     elems <> [] ->
     Forall (is_event h) elems ->
     exists h' w' sorted,
       GanttDiagram.init h w (VRef u) = Normal (h', w') /\
       h' !! d = Some (Array sorted) /\
       Permutation sorted elems /\
       ascending (fun v => inject_Z (start_of h' v)) sorted) /\
  (forall fuel h w user h' w' (R : nat -> Prop),
     (forall l, (length h <= l)%nat -> R l) ->
     well_formed h -> closed h R -> R (defaultParameters w) ->
     GanttChartInit.init fuel h w user = Normal (h', w') ->
     params w' = VRef (defaultParameters w) /\
     forall l, ~ R l -> h' !! l = h !! l) /\
  (forall h T O w d elems,
     rep h T -> rep h O -> lkind T = Some false -> lkind O = Some false ->
     NoDup (locs T) -> Forall (fun x => x ∉ locs T) (locs O) ->
     root T = defaultParameters w ->
     (exists d0, get h (lvalue T) data_key = VRef d0 /\ h !! d0 = Some (Array [])) ->
     get h (lvalue O) data_key = VRef d -> h !! d = Some (Array elems) ->
     elems <> [] -> Forall (is_event h) elems ->
     exists h' w' d' sorted,
       GanttChartInit.init (depth O) h w (lvalue O) = Normal (h', w') /\
       params w' = VRef (defaultParameters w) /\
       get h' (params w') data_key = VRef d' /\
       h' !! d' = Some (Array sorted) /\
       d' <> d /\
       ascending (fun v => inject_Z (start_of h' v)) sorted /\
       Permutation (map (span_of h') sorted) (map (span_of h) elems) /\
       (forall v, v ∈ sorted -> v ∉ elems) /\
       h' !! d = Some (Array elems) /\
       (forall l, l ∈ locs O -> h' !! l = h !! l)).
Proof.
  split; [|split; [|split]].
  - intros h p d elems Hdata Hd Hne Hev.
    destruct (determine_time_domain_events h p d elems)
      as (h' & sorted & Hdet & _ & _ & Hsorted & Hperm & Hasc & Hstart & _); try done.
    exists h', sorted. split; [done|]. split; [done|]. split; [done|].
    eapply ascending_ext; [|exact Hasc]. intros v. simpl. unfold start_of.
    by rewrite Hstart.
  - apply diagram_init_sorts_callers_array.
  - apply init_frame.
  - apply chart_init_sorts_copies.
Qed.

Lemma readme_store_well_formed : well_formed Readme.store.
Proof. apply well_formedb_sound. vm_compute. reflexivity. Qed.

Lemma readme_defaults_closed : closed Readme.store Readme.defaults_region.
Proof.
  apply (closedb_sound Readme.store Readme.in_defaults_region).
  vm_compute. reflexivity.
Qed.

Lemma readme_defaults_fresh l :
  (length Readme.store <= l)%nat -> Readme.defaults_region l.
Proof.
  intros H. unfold Readme.defaults_region, Readme.in_defaults_region.
  apply orb_true_iff. right. apply Nat.leb_le. exact H.
Qed.

Lemma readme_init_returns :
  GanttChartInit.init 4 Readme.store GanttChartInit.ganttChart Readme.argument
  = Normal (Readme.store_after_init, {| defaultParameters := 0%nat; params := VRef 0 |}).
Proof. vm_compute. reflexivity. Qed.

(** The call of the README: [this.params.data] is an array other than
    the caller's, sorted by start, and the caller's array, at 11, is as it
    was. *)
Lemma C9_init_sorts_params_data_witness :
  exists h' w' d' sorted,
    GanttChartInit.init 3 Readme.store GanttChartInit.ganttChart Readme.argument
      = Normal (h', w') /\
    get h' (params w') data_key = VRef d' /\
    h' !! d' = Some (Array sorted) /\
    d' <> Readme.callers_data /\
    ascending (fun v => inject_Z (start_of h' v)) sorted /\
    h' !! Readme.callers_data = Some (Array [VRef 12; VRef 13; VRef 14; VRef 15]).
Proof.
  destruct C9_init_sorts_params_data as (_ & _ & _ & Hinit).
  destruct (Hinit Readme.store Readme.defaults_tree Readme.argument_tree
              GanttChartInit.ganttChart 11%nat [VRef 12; VRef 13; VRef 14; VRef 15])
    as (h' & w' & d' & sorted & Hrun & _ & Hd & Harr & Hne & Hasc & _ & _ & Hsame & _).
  - exact rep_defaults_tree.
  - exact rep_argument_tree.
  - reflexivity.
  - reflexivity.
  - by apply (bool_decide_unpack _).
  - by apply (bool_decide_unpack _).
  - reflexivity.
  - exists 2%nat. split; reflexivity.
  - reflexivity.
  - reflexivity.
  - discriminate.
  - exact readme_data_events.
  - exists h', w', d', sorted. split; [exact Hrun|]. split; [exact Hd|].
    split; [exact Harr|]. split; [exact Hne|]. split; [exact Hasc|exact Hsame].
Defined.

(** C9, as stated, fails on d3.ganttChart. After the call of the README
    the array the caller passed holds its four data points in the order
    given, 07:00, 09:00, 08:00, 15:00 by start, which is not ascending. *)
Lemma C9_chart_init_leaves_callers_array :
  exists h' w',
    GanttChartInit.init 4 Readme.store GanttChartInit.ganttChart Readme.argument
      = Normal (h', w') /\
    Readme.store !! Readme.callers_data
      = Some (Array [VRef 12; VRef 13; VRef 14; VRef 15]) /\
    h' !! Readme.callers_data = Some (Array [VRef 12; VRef 13; VRef 14; VRef 15]) /\
    map (start_of h') [VRef 12; VRef 13; VRef 14; VRef 15]
      = [Readme.at_time 7 0; Readme.at_time 9 0; Readme.at_time 8 0; Readme.at_time 15 0] /\
    ~ ascending (fun v => inject_Z (start_of h' v)) [VRef 12; VRef 13; VRef 14; VRef 15].
Proof.
  exists Readme.store_after_init, {| defaultParameters := 0%nat; params := VRef 0 |}.
  split; [exact readme_init_returns|].
  split; [reflexivity|]. split; [reflexivity|]. split; [reflexivity|].
  intros H. apply StronglySorted_inv in H as [H _].
  apply StronglySorted_inv in H as [_ H].
  apply Forall_inv in H. vm_compute in H. by apply H.
Qed.

(* ===================================================================== *)
(** ** Layout                                                             *)
(* ===================================================================== *)

Section LayoutClaims.
Import GanttChart.

(** C4 (amended). On a domain with [startTime < endTime] the time scale is
    the clamped linear map onto [0, width]: 0 before the domain, [width]
    after it, the linear interpolation inside. On a domain of one instant
    nothing is divided: the scale is 0 up to that instant and [width]
    after it. *)
Theorem C4_time_scale_clamped (p : parameters) (t : Z) :
  ((startTime p < endTime p)%Z ->
     ((t < startTime p)%Z -> xAxisScale p t == 0) /\
     ((endTime p < t)%Z -> xAxisScale p t == width p) /\
     ((startTime p <= t <= endTime p)%Z ->
        xAxisScale p t ==
        width p * (inject_Z (t - startTime p) / inject_Z (endTime p - startTime p)))) /\
  ((startTime p = endTime p)%Z ->
     ((t <= startTime p)%Z -> xAxisScale p t == 0) /\
     ((startTime p < t)%Z -> xAxisScale p t == width p)).
Proof.
  unfold xAxisScale. split.
  - intros Hse. split; [|split].
    + intros Ht. rewrite scaleTime_unfold by lia.
      rewrite clamp_below; [ring|]. rewrite <- Zle_Qle. lia.
    + intros Ht. rewrite scaleTime_unfold by lia.
      rewrite clamp_above; [ring| |]; [rewrite <- Zlt_Qlt|rewrite <- Zle_Qle]; lia.
    + intros [Ht1 Ht2]. rewrite scaleTime_unfold by lia.
      assert (inject_Z (startTime p) < inject_Z (endTime p)) by (by rewrite <- Zlt_Qlt).
      destruct (Z.eq_dec t (startTime p)) as [->|Hne1].
      { rewrite clamp_below by lra. rewrite Z.sub_diag.
        unfold Qdiv. change (inject_Z 0) with 0. ring. }
      destruct (Z.eq_dec t (endTime p)) as [->|Hne2].
      { rewrite clamp_above by lra.
        unfold Z.sub. rewrite inject_Z_plus, inject_Z_opp. field. lra. }
      rewrite clamp_inside by (rewrite <- Zlt_Qlt; lia).
      unfold Z.sub. rewrite !inject_Z_plus, !inject_Z_opp. reflexivity.
  - intros Hse. split.
    + intros Ht. rewrite scaleTime_unfold by lia.
      rewrite clamp_below; [ring|]. rewrite <- Zle_Qle. lia.
    + intros Ht. rewrite scaleTime_unfold by lia.
      rewrite clamp_above; [ring| |]; [rewrite <- Zlt_Qlt|rewrite <- Zle_Qle]; lia.
Qed.

(** The chart of the README at 06:00, and a chart of one instant an hour
    after that instant. *)
Lemma C4_time_scale_clamped_witness :
  xAxisScale Readme.parameters_after_init (Readme.at_time 6 0) == 0 /\
  xAxisScale Readme.parameters_one_instant (Readme.at_time 8 0) == 200.
Proof.
  split.
  - destruct (C4_time_scale_clamped Readme.parameters_after_init (Readme.at_time 6 0))
      as [H _].
    destruct H as [H _]; [reflexivity|]. apply H. reflexivity.
  - destruct (C4_time_scale_clamped Readme.parameters_one_instant (Readme.at_time 8 0))
      as [_ H].
    destruct H as [_ H]; [reflexivity|]. apply H. reflexivity.
Defined.

(** C4, as stated, fails on a domain of one instant: the scale of a chart
    of width 200 whose domain is 07:00 to 07:00 is 0 at 07:00 and 200 at
    08:00, so no constant is its value at every timestamp. *)
Lemma C4_degenerate_scale_not_constant :
  startTime Readme.parameters_one_instant = endTime Readme.parameters_one_instant /\
  xAxisScale Readme.parameters_one_instant (Readme.at_time 7 0) == 0 /\
  xAxisScale Readme.parameters_one_instant (Readme.at_time 8 0) == 200 /\
  ~ exists c, forall t, xAxisScale Readme.parameters_one_instant t == c.
Proof.
  split; [reflexivity|]. split; [reflexivity|]. split; [reflexivity|].
  intros [c Hc].
  pose proof (Hc (Readme.at_time 7 0)) as H7.
  pose proof (Hc (Readme.at_time 8 0)) as H8.
  rewrite <- H8 in H7. vm_compute in H7. discriminate.
Qed.

(** C5. The opening block of draw sets the height to
    [yAxis.elementHeight] times the number of activities when
    [yAxis.dynamicHeight] is set and leaves it otherwise; it sets the
    width to [xAxis.tickDistance] times the number of dates
    [xAxis.interval.range(startTime, endTime)] returns when
    [xAxis.dynamicWidth] is set and leaves it otherwise. draw returns
    with these dimensions, in the parameters and on the chart. With
    three activities and an element height of 50 the dynamic height is
    150 whatever the configured height. *)
Theorem C5_compute_dimensions (p : parameters) :
  height (computeDimensions p) =
    (if YAxis.dynamicHeight (yAxis p)
     then YAxis.elementHeight (yAxis p) * D3.nat_Q (length (activities p))
     else height p) /\
  width (computeDimensions p) =
    (if XAxis.dynamicWidth (xAxis p)
     then XAxis.tickDistance (xAxis p) *
          D3.nat_Q (length (D3.range (XAxis.interval (xAxis p)) (startTime p) (endTime p)))
     else width p) /\
  (exists p' d, draw p = Normal (p', d) /\
     height p' = height (computeDimensions p) /\
     width p' = width (computeDimensions p) /\
     chartHeight d = height (computeDimensions p) /\
     chartWidth d = width (computeDimensions p)) /\
  (YAxis.dynamicHeight (yAxis p) = true ->
   YAxis.elementHeight (yAxis p) == 50 ->
   length (activities p) = 3%nat ->
   height (computeDimensions p) == 150).
Proof.
  split; [apply computeDimensions_height|].
  split; [apply computeDimensions_width|].
  split.
  - eexists _, _. split; [apply draw_returns|]. done.
  - intros Hdyn Heh Hlen. rewrite computeDimensions_height, Hdyn, Hlen, Heh.
    reflexivity.
Qed.

(** The chart of the README: three activities, element height 50,
    configured height 200. *)
Lemma C5_compute_dimensions_witness :
  height Readme.parameters_after_init == 200 /\
  height (computeDimensions Readme.parameters_after_init) == 150.
Proof.
  split; [reflexivity|].
  destruct (C5_compute_dimensions Readme.parameters_after_init) as (_ & _ & _ & H).
  apply H; reflexivity.
Defined.

(** C6. For a non-empty list of distinct activity names and a height
    that is not negative, the row scale gives every band the height
    [height / n]; the k-th name starts at [k * (height / n)] and its band
    lies within [0, height]; each band ends where the next starts, the
    first starts at 0 and the last ends at [height]. *)
Theorem C6_row_scale_partition (p : parameters) :
  NoDup (names_of p) -> activities p <> [] -> 0 <= height p ->
  let n := D3.nat_Q (length (activities p)) in
  let band := height p / n in
  D3.bandwidth (yAxisScale p) == band /\
  (forall k nm, names_of p !! k = Some nm ->
     exists y, D3.band_apply (yAxisScale p) nm = Some y /\
               y == D3.nat_Q k * band /\
               0 <= y /\ y + band <= height p) /\
  (forall k nm nm', names_of p !! k = Some nm -> names_of p !! S k = Some nm' ->
     exists y y', D3.band_apply (yAxisScale p) nm = Some y /\
                  D3.band_apply (yAxisScale p) nm' = Some y' /\
                  y + band == y') /\
  (forall nm, names_of p !! 0%nat = Some nm ->
     exists y, D3.band_apply (yAxisScale p) nm = Some y /\ y == 0) /\
  (forall nm, names_of p !! (length (activities p) - 1)%nat = Some nm ->
     exists y, D3.band_apply (yAxisScale p) nm = Some y /\ y + band == height p).
Proof.
  intros Hnd Hne Hh. cbv zeta.
  assert (Hne' : names_of p <> []).
  { unfold names_of. destruct (activities p); [done|discriminate]. }
  destruct (scaleBand_distinct (names_of p) (height p) Hnd Hne' Hh)
    as (Hdom & Hbw & Hstep & Hband).
  cbv zeta in *. unfold names_of in Hbw, Hstep, Hband. rewrite length_map in *.
  fold (names_of p) in Hband.
  assert (Hn : 1 <= D3.nat_Q (length (activities p))).
  { apply nat_Q_pos. destruct (activities p); [done|simpl; lia]. }
  set (n := D3.nat_Q (length (activities p))) in *.
  assert (Hbandpos : 0 <= height p / n).
  { apply Qle_shift_div_l; lra. }
  assert (Hnband : n * (height p / n) == height p) by (field; lra).
  split; [done|]. split; [|split; [|split]].
  - intros k nm Hk. destruct (Hband k nm Hk) as (y & Hy & Hyq).
    exists y. split; [done|]. split; [done|].
    assert (Hk' : (k < length (activities p))%nat).
    { apply lookup_lt_Some in Hk. unfold names_of in Hk. by rewrite length_map in Hk. }
    assert (D3.nat_Q k + 1 <= n).
    { rewrite <- nat_Q_S. unfold n, D3.nat_Q. rewrite <- Zle_Qle. lia. }
    pose proof (nat_Q_nonneg k).
    split; [rewrite Hyq; nra|]. rewrite Hyq. nra.
  - intros k nm nm' Hk Hk'.
    destruct (Hband k nm Hk) as (y & Hy & Hyq).
    destruct (Hband (S k) nm' Hk') as (y' & Hy' & Hyq').
    exists y, y'. split; [done|]. split; [done|].
    rewrite Hyq, Hyq', nat_Q_S. ring.
  - intros nm H0. destruct (Hband 0%nat nm H0) as (y & Hy & Hyq).
    exists y. split; [done|]. rewrite Hyq. apply Qmult_0_l.
  - intros nm Hl. destruct (Hband _ nm Hl) as (y & Hy & Hyq).
    exists y. split; [done|]. rewrite Hyq.
    assert (D3.nat_Q (length (activities p) - 1) + 1 == n) as Hlast.
    { rewrite <- nat_Q_S. unfold n. apply lookup_lt_Some in Hl.
      unfold names_of in Hl. rewrite length_map in Hl.
      replace (S (length (activities p) - 1)) with (length (activities p)) by lia.
      reflexivity. }
    remember (height p / n) as b eqn:Eb.
    remember (D3.nat_Q (length (activities p) - 1)) as k' eqn:Ek.
    rewrite <- Hnband, <- Hlast. ring.
Qed.

Lemma readme_names_distinct : NoDup (names_of Readme.parameters_after_init).
Proof. by apply (bool_decide_unpack _). Qed.

(** The chart of the README at height 200: three bands of 200/3, Bob's
    the second. *)
Lemma C6_row_scale_partition_witness :
  D3.bandwidth (yAxisScale Readme.parameters_after_init) == 200 / 3 /\
  (exists y, D3.band_apply (yAxisScale Readme.parameters_after_init) "Bob" = Some y /\
             y == 1 * (200 / 3)).
Proof.
  destruct (C6_row_scale_partition Readme.parameters_after_init)
    as (Hbw & Hband & _).
  - exact readme_names_distinct.
  - discriminate.
  - discriminate.
  - split; [exact Hbw|].
    destruct (Hband 1%nat "Bob"%string) as (y & Hy & Hyq & _); [reflexivity|].
    exists y. split; [exact Hy|exact Hyq].
Defined.

(** C7. For a data point with [start <= end], on a domain with
    [startTime <= endTime] and a width that is not negative, the bar
    width [xAxisScale(end) - xAxisScale(start)] is not negative, wherever
    the data point lies with respect to the domain. *)
Theorem C7_element_width_nonneg (p : parameters) (elem : element) :
  (start elem <= end_ elem)%Z ->
  (startTime p <= endTime p)%Z ->
  0 <= width p ->
  0 <= elementWidth p elem.
Proof.
  intros He Hd Hw. unfold elementWidth, xAxisScale.
  pose proof (scaleTime_mono (startTime p) (endTime p) (width p) _ _ Hd Hw He).
  lra.
Qed.

(** A data point from 05:00 to 19:00 on the chart of the README, whose
    domain is 07:00 to 17:30. *)
Lemma C7_element_width_nonneg_witness :
  0 <= elementWidth Readme.parameters_after_init
         (Readme.element_of "Bob" "Long day" "rgb(200, 200, 100)"
            (Readme.at_time 5 0) (Readme.at_time 19 0)).
Proof.
  apply C7_element_width_nonneg; discriminate.
Defined.

(** C8 (amended). A data point whose activity is none of the configured
    names raises nothing: its row lookup is undefined, draw returns
    normally with one group for each data point, and the drawing holds
    the data point's group with an undefined vertical translation and its
    bar of the scaled width. The height of the bar is the band width of
    the row scale, which drawYAxis stores as [yAxis.elementHeight] before
    the bars are drawn; without a dynamic height that is the band width
    over the configured height, whatever element height is configured. *)
Theorem C8_unknown_activity_drawn (p : parameters) (elem : element) :
  elem ∈ data p ->
  activity elem ∉ names_of p ->
  ty (elementTranslate p elem) = None /\
  exists p' d,
    draw p = Normal (p', d) /\
    length (elements d) = length (data p) /\
    drawElement p' elem ∈ elements d /\
    ty (transform (drawElement p' elem)) = None /\
    rectWidth (drawElement p' elem) = elementWidth p' elem /\
    rectHeight (drawElement p' elem) = YAxis.elementHeight (yAxis p') /\
    YAxis.elementHeight (yAxis p') = D3.bandwidth (yAxisScale (computeDimensions p)) /\
    (YAxis.dynamicHeight (yAxis p) = false ->
       rectHeight (drawElement p' elem)
       = D3.bandwidth (D3.scaleBand (names_of p) 0 (height p))).
Proof.
  intros Hin Hunk. split; [by apply elementTranslate_unknown|].
  eexists _, _. split; [apply draw_returns|].
  split; [|split; [|split; [|split; [done|split; [done|split; [done|]]]]]].
  - cbn [elements]. by rewrite length_map, after_draw_data.
  - cbn [elements]. apply list_elem_of_fmap_2. by rewrite after_draw_data.
  - cbn [transform drawElement]. apply elementTranslate_unknown.
    unfold names_of. by rewrite after_draw_activities.
  - intros Hdyn. cbn [rectHeight drawElement].
    rewrite after_draw_elementHeight. unfold yAxisScale, names_of.
    by rewrite computeDimensions_activities, computeDimensions_height, Hdyn.
Qed.

Lemma stray_unknown : activity Readme.stray ∉ names_of Readme.parameters_with_stray.
Proof. by apply (bool_decide_unpack _). Qed.

(** The chart of the README with a fixed height of 200, an element height
    of 50 and a data point of activity Zed: the bar of Zed has no row and
    is 200/3 high. *)
Lemma C8_unknown_activity_drawn_witness :
  ty (elementTranslate ChartSamples.fixed_with_stray Readme.stray) = None /\
  YAxis.elementHeight (yAxis ChartSamples.fixed_with_stray) == 50 /\
  exists p' d,
    draw ChartSamples.fixed_with_stray = Normal (p', d) /\
    ty (transform (drawElement p' Readme.stray)) = None /\
    rectHeight (drawElement p' Readme.stray) == 200 / 3.
Proof.
  destruct (C8_unknown_activity_drawn ChartSamples.fixed_with_stray Readme.stray)
    as (Hty & p' & d & Hd & _ & _ & Hrow & _ & _ & _ & Hfixed).
  - left.
  - by apply (bool_decide_unpack _).
  - split; [exact Hty|]. split; [reflexivity|].
    exists p', d. split; [exact Hd|]. split; [exact Hrow|].
    rewrite Hfixed by reflexivity. reflexivity.
Defined.

(** C8, as stated, fails. With a data point of the unlisted activity Zed,
    draw throws nothing and returns a drawing whose first group is that
    data point's, translated to an undefined row, with a bar of positive
    width. *)
Lemma C8_unknown_activity_counterexample :
  (activity Readme.stray ∉ names_of Readme.parameters_with_stray) /\
  (forall e, draw Readme.parameters_with_stray <> Throw e) /\
  exists p' d r rest,
    draw Readme.parameters_with_stray = Normal (p', d) /\
    elements d = r :: rest /\
    labelText r = "Travel"%string /\
    ty (transform r) = None /\
    0 < rectWidth r.
Proof.
  split; [exact stray_unknown|]. split; [intros e; discriminate|].
  eexists _, _, _, _. split; [apply draw_returns|].
  split; [reflexivity|]. split; [reflexivity|]. split; [reflexivity|].
  reflexivity.
Qed.

(** C10. drawYAxis stores the band width of the row scale as
    [yAxis.elementHeight]; for a non-empty list of distinct names and a
    height that is not negative, this is the chart height divided by the
    number of activities. draw returns parameters holding that stored
    value, gives it to every bar as its height, and a further draw
    computes the dynamic height from it. *)
Theorem C10_drawYAxis_overwrites_elementHeight (p : parameters) :
  NoDup (names_of p) -> activities p <> [] -> 0 <= height p ->
  YAxis.elementHeight (yAxis (drawYAxis p).1) = D3.bandwidth (yAxisScale p) /\
  YAxis.elementHeight (yAxis (drawYAxis p).1)
    == height p / D3.nat_Q (length (activities p)) /\
  (exists p1 d1,
     draw p = Normal (p1, d1) /\
     YAxis.elementHeight (yAxis p1) = D3.bandwidth (yAxisScale (computeDimensions p)) /\
     Forall (fun r => rectHeight r = YAxis.elementHeight (yAxis p1)) (elements d1) /\
     exists p2 d2,
       draw p1 = Normal (p2, d2) /\
       height p2 =
         (if YAxis.dynamicHeight (yAxis p)
          then YAxis.elementHeight (yAxis p1) * D3.nat_Q (length (activities p))
          else height p1)).
Proof.
  intros Hnd Hne Hh.
  split; [done|]. split.
  - assert (Hne' : names_of p <> []).
    { unfold names_of. destruct (activities p); [done|discriminate]. }
    destruct (scaleBand_distinct (names_of p) (height p) Hnd Hne' Hh) as (_ & Hbw & _).
    cbv zeta in Hbw. unfold names_of in Hbw. rewrite length_map in Hbw. exact Hbw.
  - eexists _, _. split; [apply draw_returns|].
    split; [done|]. split.
    + cbn [elements]. apply Forall_forall. intros r Hr.
      apply list_elem_of_fmap in Hr as (e & -> & _). done.
    + eexists _, _. split; [apply draw_returns|].
      rewrite after_draw_height, computeDimensions_height.
      by rewrite after_draw_dynamicHeight, after_draw_activities.
Qed.

(** A chart of configured height 200 with the three activities of the
    README: drawYAxis stores 200/3 where the configuration had 50. *)
Lemma C10_drawYAxis_overwrites_elementHeight_witness :
  YAxis.elementHeight (yAxis Readme.parameters_after_init) == 50 /\
  YAxis.elementHeight (yAxis (drawYAxis Readme.parameters_after_init).1) == 200 / 3.
Proof.
  split; [reflexivity|].
  destruct (C10_drawYAxis_overwrites_elementHeight Readme.parameters_after_init)
    as (_ & H & _).
  - exact readme_names_distinct.
  - discriminate.
  - discriminate.
  - exact H.
Defined.

(** The README's chart as drawn: eleven hourly ticks from 07:00 to 17:30
    give the width 550, three activities the height 150, and the stored
    element height stays 50. *)
Example readme_draw :
  exists p' d,
    draw Readme.parameters_after_init = Normal (p', d) /\
    chartWidth d == 550 /\ chartHeight d == 150 /\
    YAxis.elementHeight (yAxis p') == 50 /\
    length (elements d) = 4%nat.
Proof.
  eexists _, _. split; [apply draw_returns|].
  repeat split; reflexivity.
Qed.

End LayoutClaims.
(* ===================================================================== *)
(** ** d3.ganttDiagram.util.extend                                        *)
(* ===================================================================== *)

Section UtilExtend.

Lemma in_store_ref h l : (l < length h)%nat -> in_store h (VRef l).
Proof. by intros Hl ? [= <-]. Qed.

Lemma copy_step_any h v k rs :
  GanttDiagram.copy_step v (length h) (h ++ [Plain rs]) k =
  h ++ [Plain (update_prop k (get (h ++ [Plain rs]) v k) rs)].
Proof.
  unfold GanttDiagram.copy_step, write.
  rewrite lookup_app_r by done. rewrite Nat.sub_diag. cbn [lookup list_lookup set_own].
  by rewrite insert_snoc.
Qed.

Lemma fold_copy_step_any h v keys : forall rs,
  exists rs',
    fold_left (GanttDiagram.copy_step v (length h)) keys (h ++ [Plain rs]) =
    h ++ [Plain rs'].
Proof.
  induction keys as [|k keys IH]; intros rs; simpl; [eauto|].
  rewrite copy_step_any. apply IH.
Qed.

Lemma fold_copy_step_in_store h v keys : forall rs,
  in_store h v ->
  fold_left (GanttDiagram.copy_step v (length h)) keys (h ++ [Plain rs]) =
  h ++ [Plain (fold_left (fun rs k => update_prop k (get h v k) rs) keys rs)].
Proof.
  induction keys as [|k keys IH]; intros rs Hv; [done|]. simpl.
  rewrite copy_step_any, (get_app h (Plain rs) v k Hv). by apply IH.
Qed.

Lemma enumerate_app h x v : in_store h v -> enumerate (h ++ [x]) v = enumerate h v.
Proof.
  intros Hv. destruct v; try done. simpl.
  by rewrite lookup_app_l by (by apply Hv).
Qed.

Lemma keys_fold_update (f : key -> value) k keys : forall rs,
  k ∈ map fst (fold_left (fun rs k => update_prop k (f k) rs) keys rs) <->
  k ∈ map fst rs \/ k ∈ keys.
Proof.
  assert (forall a v rs, k ∈ map fst (update_prop a v rs) <-> k = a \/ k ∈ map fst rs)
    as Hup.
  { intros a v rs. induction rs as [|[k' v'] rs IH]; simpl.
    - rewrite list_elem_of_singleton. rewrite elem_of_nil. tauto.
    - destruct (decide (a = k')) as [->|Hne]; simpl.
      + rewrite !elem_of_cons. tauto.
      + rewrite !elem_of_cons, IH. tauto. }
  induction keys as [|a keys IH]; intros rs; simpl.
  - rewrite elem_of_nil. tauto.
  - rewrite IH, Hup, elem_of_cons. tauto.
Qed.

(** What util.extend returns, for arguments that live in the store. *)
Lemma util_extend_in_store h v1 v2 :
  in_store h v1 -> in_store h v2 ->
  GanttDiagram.extend h v1 v2 =
  (h ++ [Plain (fold_left (fun rs k => update_prop k (get h v2 k) rs) (enumerate h v2)
                  (fold_left (fun rs k => update_prop k (get h v1 k) rs)
                             (enumerate h v1) []))],
   length h).
Proof.
  intros H1 H2. unfold GanttDiagram.extend, alloc.
  rewrite (enumerate_app h _ v1 H1), (fold_copy_step_in_store h v1 _ _ H1).
  by rewrite (enumerate_app h _ v2 H2), (fold_copy_step_in_store h v2 _ _ H2).
Qed.

(** X1. util.extend builds its result in a new plain object and changes
    no object of the store, whatever its two arguments are. *)
Theorem X1_util_extend_fresh (h : heap) (v1 v2 : value) :
  exists rs,
    GanttDiagram.extend h v1 v2 = (h ++ [Plain rs], length h) /\
    (forall l, (l < length h)%nat -> (h ++ [Plain rs]) !! l = h !! l) /\
    (h ++ [Plain rs]) !! length h = Some (Plain rs).
Proof.
  unfold GanttDiagram.extend, alloc.
  destruct (fold_copy_step_any h v1 (enumerate (h ++ [Plain []]) v1) []) as [rs1 ->].
  destruct (fold_copy_step_any h v2 (enumerate (h ++ [Plain rs1]) v2) rs1) as [rs2 ->].
  exists rs2. split; [done|]. split.
  - intros l Hl. by apply lookup_app_l.
  - by rewrite lookup_app_r, Nat.sub_diag by done.
Qed.

(** What the result holds under a key. *)
Lemma util_extend_get h v1 v2 k :
  in_store h v1 -> in_store h v2 ->
  get (GanttDiagram.extend h v1 v2).1 (VRef (GanttDiagram.extend h v1 v2).2) k =
  if decide (k ∈ enumerate h v2) then get h v2 k
  else if decide (k ∈ enumerate h v1) then get h v1 k
  else VUndefined.
Proof.
  intros H1 H2. rewrite (util_extend_in_store h v1 v2 H1 H2). cbn [fst snd].
  unfold get at 1. rewrite lookup_app_r, Nat.sub_diag by done.
  cbn [lookup list_lookup get_own].
  destruct (decide (k ∈ enumerate h v2)) as [Hk2|Hk2].
  - by rewrite lookup_fold_update_in.
  - rewrite lookup_fold_update_notin by done.
    destruct (decide (k ∈ enumerate h v1)) as [Hk1|Hk1].
    + by rewrite lookup_fold_update_in.
    + by rewrite lookup_fold_update_notin.
Qed.

(** The keys of the result. *)
Lemma util_extend_keys h v1 v2 k :
  in_store h v1 -> in_store h v2 ->
  k ∈ enumerate (GanttDiagram.extend h v1 v2).1 (VRef (GanttDiagram.extend h v1 v2).2) <->
  k ∈ enumerate h v1 \/ k ∈ enumerate h v2.
Proof.
  intros H1 H2. rewrite (util_extend_in_store h v1 v2 H1 H2). cbn [fst snd].
  unfold enumerate at 1. rewrite lookup_app_r, Nat.sub_diag by done.
  cbn [lookup list_lookup own_keys].
  rewrite !keys_fold_update. simpl. rewrite elem_of_nil. tauto.
Qed.

Lemma util_extend_store h v1 v2 :
  exists rs,
    GanttDiagram.extend h v1 v2 = (h ++ [Plain rs], length h).
Proof.
  unfold GanttDiagram.extend, alloc.
  destruct (fold_copy_step_any h v1 (enumerate (h ++ [Plain []]) v1) []) as [rs1 ->].
  destruct (fold_copy_step_any h v2 (enumerate (h ++ [Plain rs1]) v2) rs1) as [rs2 ->].
  by exists rs2.
Qed.

Lemma in_store_app h x v : in_store h v -> in_store (h ++ [x]) v.
Proof. intros Hv l Hl. rewrite length_app. specialize (Hv l Hl). lia. Qed.

(** X2. util.extend merges by key, the second argument first: the result
    holds under a key of [obj2] what [obj2] holds (an undefined value
    too), under another key of [obj1] what [obj1] holds, and nothing
    under any other key. *)
Theorem X2_util_extend_lookup (h : heap) (v1 v2 : value) (k : key) :
  in_store h v1 -> in_store h v2 ->
  get (GanttDiagram.extend h v1 v2).1 (VRef (GanttDiagram.extend h v1 v2).2) k =
  if decide (k ∈ enumerate h v2) then get h v2 k
  else if decide (k ∈ enumerate h v1) then get h v1 k
  else VUndefined.
Proof. apply util_extend_get. Qed.

(** [{yAxis: {width: 15, dynamicHeight: true}}] and
    [{yAxis: {width: 50}}]: the result's yAxis is the second one's. *)
Lemma X2_util_extend_lookup_witness :
  get (GanttDiagram.extend Readme.merge_store (VRef 0) (VRef 2)).1
      (VRef (GanttDiagram.extend Readme.merge_store (VRef 0) (VRef 2)).2)
      (KName "yAxis") = VRef 3.
Proof.
  rewrite X2_util_extend_lookup.
  - reflexivity.
  - apply in_store_ref. simpl. lia.
  - apply in_store_ref. simpl. lia.
Defined.

(** X3. util.extend is shallow: a key that [obj2] holds as an object is
    that very object in the result, left as it was, so whatever [obj1]
    holds inside its own object under that key is not in the result. *)
Theorem X3_util_extend_shallow (h : heap) (v1 v2 : value) (k : key) (l : loc) :
  in_store h v1 -> in_store h v2 ->
  k ∈ enumerate h v2 -> get h v2 k = VRef l -> (l < length h)%nat ->
  let h' := (GanttDiagram.extend h v1 v2).1 in
  let r := (GanttDiagram.extend h v1 v2).2 in
  get h' (VRef r) k = VRef l /\
  h' !! l = h !! l /\
  forall k2, get h' (get h' (VRef r) k) k2 = get h (VRef l) k2.
Proof.
  intros H1 H2 Hk Hget Hl. cbv zeta.
  assert (get (GanttDiagram.extend h v1 v2).1
              (VRef (GanttDiagram.extend h v1 v2).2) k = VRef l) as Hr.
  { rewrite util_extend_get by done. by rewrite decide_True. }
  destruct (util_extend_store h v1 v2) as [rs E].
  split; [done|]. rewrite Hr. rewrite E. cbn [fst snd]. split.
  - by apply lookup_app_l.
  - intros k2. apply get_app. by intros ? [= <-].
Qed.

(** The same two objects: the default [dynamicHeight] of the y axis is
    not in the result. *)
Lemma X3_util_extend_shallow_witness :
  get Readme.merge_store (VRef 1) (KName "dynamicHeight") = VBool true /\
  get (GanttDiagram.extend Readme.merge_store (VRef 0) (VRef 2)).1
      (get (GanttDiagram.extend Readme.merge_store (VRef 0) (VRef 2)).1
           (VRef (GanttDiagram.extend Readme.merge_store (VRef 0) (VRef 2)).2)
           (KName "yAxis"))
      (KName "dynamicHeight") = VUndefined.
Proof.
  split; [reflexivity|].
  destruct (X3_util_extend_shallow Readme.merge_store (VRef 0) (VRef 2)
              (KName "yAxis") 3) as (_ & _ & H).
  - apply in_store_ref. simpl. lia.
  - apply in_store_ref. simpl. lia.
  - by apply (bool_decide_unpack _).
  - reflexivity.
  - simpl. lia.
  - rewrite H. reflexivity.
Defined.

(** X4. util.extend composes: merging [a] with [b] and the result with
    [c] gives, key by key, what merging [a] with the merge of [b] and
    [c] gives. *)
Theorem X4_util_extend_assoc (h : heap) (a b c : value) (k : key) :
  in_store h a -> in_store h b -> in_store h c ->
  let ab := GanttDiagram.extend h a b in
  let ab_c := GanttDiagram.extend ab.1 (VRef ab.2) c in
  let bc := GanttDiagram.extend h b c in
  let a_bc := GanttDiagram.extend bc.1 a (VRef bc.2) in
  get ab_c.1 (VRef ab_c.2) k = get a_bc.1 (VRef a_bc.2) k.
Proof.
  intros Ha Hb Hc. cbv zeta.
  destruct (util_extend_store h a b) as [rs1 E1].
  destruct (util_extend_store h b c) as [rs2 E2].
  assert (in_store (GanttDiagram.extend h a b).1 (VRef (GanttDiagram.extend h a b).2)) as Hr1.
  { rewrite E1. cbn [fst snd]. intros l [= <-]. rewrite length_app. simpl. lia. }
  assert (in_store (GanttDiagram.extend h b c).1 (VRef (GanttDiagram.extend h b c).2)) as Hr2.
  { rewrite E2. cbn [fst snd]. intros l [= <-]. rewrite length_app. simpl. lia. }
  assert (in_store (GanttDiagram.extend h a b).1 c) as Hc1.
  { rewrite E1. by apply in_store_app. }
  assert (in_store (GanttDiagram.extend h b c).1 a) as Ha2.
  { rewrite E2. by apply in_store_app. }
  rewrite (util_extend_get _ _ c k Hr1 Hc1).
  rewrite (util_extend_get _ a _ k Ha2 Hr2).
  pose proof (util_extend_keys h a b k Ha Hb) as Kab.
  pose proof (util_extend_keys h b c k Hb Hc) as Kbc.
  rewrite (util_extend_get h a b k Ha Hb), (util_extend_get h b c k Hb Hc).
  assert (enumerate (GanttDiagram.extend h a b).1 c = enumerate h c) as ->.
  { rewrite E1. by apply enumerate_app. }
  assert (get (GanttDiagram.extend h a b).1 c k = get h c k) as ->.
  { rewrite E1. by apply get_app. }
  assert (enumerate (GanttDiagram.extend h b c).1 a = enumerate h a) as ->.
  { rewrite E2. by apply enumerate_app. }
  assert (get (GanttDiagram.extend h b c).1 a k = get h a k) as ->.
  { rewrite E2. by apply get_app. }
  destruct (decide (k ∈ enumerate h c)) as [Kc|Kc].
  - rewrite decide_True by tauto. done.
  - destruct (decide (k ∈ enumerate h b)) as [Kb|Kb].
    + rewrite decide_True by tauto. by rewrite decide_True by tauto.
    + destruct (decide (k ∈ enumerate h a)) as [Ka|Ka].
      * rewrite decide_True by tauto. by rewrite decide_False by tauto.
      * rewrite decide_False by tauto. by rewrite decide_False by tauto.
Qed.

(** [{width: 200, ...}], [{width: 50}] and [{width: undefined}]: merged
    either way the width is undefined. *)
Lemma X4_util_extend_assoc_witness :
  get (GanttDiagram.extend
         (GanttDiagram.extend Readme.merge_store (VRef 4) (VRef 3)).1
         (VRef (GanttDiagram.extend Readme.merge_store (VRef 4) (VRef 3)).2)
         (VRef 10)).1
      (VRef (GanttDiagram.extend
         (GanttDiagram.extend Readme.merge_store (VRef 4) (VRef 3)).1
         (VRef (GanttDiagram.extend Readme.merge_store (VRef 4) (VRef 3)).2)
         (VRef 10)).2)
      (KName "width") = VUndefined.
Proof.
  pose proof (X4_util_extend_assoc Readme.merge_store (VRef 4) (VRef 3) (VRef 10)
                (KName "width")) as H.
  cbv zeta in H. rewrite H.
  - reflexivity.
  - apply in_store_ref. simpl. lia.
  - apply in_store_ref. simpl. lia.
  - apply in_store_ref. simpl. lia.
Defined.

End UtilExtend.

(* ===================================================================== *)
(** ** The time-domain block: errors, frame and the domain it leaves      *)
(* ===================================================================== *)

Section BlockFacts.

Lemma existsb_nullish_Forall elems :
  existsb is_nullish elems = false -> Forall (fun v => is_nullish v = false) elems.
Proof.
  intros E. apply Forall_forall. intros x Hx.
  destruct (is_nullish x) eqn:Ex; [|done].
  assert (existsb is_nullish elems = true) as E'; [|congruence].
  apply existsb_exists. exists x. by rewrite <- list_elem_of_In.
Qed.

(** What the block changes when it returns: the object of [this.params]
    and the array [this.params.data] refers to, nothing else. *)
Lemma determine_time_domain_touches h p h' :
  determine_time_domain h p = Normal h' ->
  length h' = length h /\
  (forall l, l <> p -> get h (VRef p) data_key <> VRef l -> h' !! l = h !! l) /\
  (forall l ps, l <> p -> h !! l = Some (Plain ps) -> h' !! l = Some (Plain ps)) /\
  get h' (VRef p) data_key = get h (VRef p) data_key.
Proof.
  intros Hdet.
  assert (h' = h \/ exists d elems, get h (VRef p) data_key = VRef d /\
            h !! d = Some (Array elems) /\
            Forall (fun v => is_nullish v = false) elems) as Hcases.
  { unfold determine_time_domain in Hdet.
    destruct (get h (VRef p) data_key) as [| | | | | | |d] eqn:Edata; simpl in Hdet;
      try done;
      try (injection Hdet as <-; by left);
      try (destruct (Qle_bool _ 0); [injection Hdet as <-; by left|done]);
      try (destruct (to_number _) as [len|]; [destruct (Qle_bool len 0)|];
           first [done | injection Hdet as <-; by left]).
    destruct (h !! d) as [[ps|elems]|] eqn:Ed;
      try (injection Hdet as <-; by left);
      try (destruct (to_number _) as [len|]; [destruct (Qle_bool len 0)|];
           first [done | injection Hdet as <-; by left]).
    destruct elems as [|e es]; [injection Hdet as <-; by left|].
    destruct (existsb is_nullish (e :: es)) eqn:Ex; [done|].
    right. exists d, (e :: es). split; [done|]. split; [done|].
    by apply existsb_nullish_Forall. }
  destruct Hcases as [->|(d & elems & Hdata & Hd & Hall)]; [done|].
  destruct (determine_time_domain_array h p d elems Hdata Hd Hall)
    as (h'' & sorted & Hdet' & _ & _ & Hlen & Hframe & Hsame).
  rewrite Hdet in Hdet'. injection Hdet' as <-.
  split; [done|]. split; [|split].
  - intros l Hlp Hld. apply Hframe; [done|]. intros ->. by rewrite Hdata in Hld.
  - intros l ps Hlp Hl. rewrite Hframe; [done|done|]. intros ->. congruence.
  - by rewrite Hdata.
Qed.

(** X8. On an array, the time-domain block raises a TypeError when the
    array holds undefined or null, and otherwise returns, whatever the
    elements are, with the elements it found in the array, none lost and
    none added, and a store of the same size. *)
Theorem X8_block_keeps_every_element (h : heap) (p d : loc) (elems : list value) :
  get h (VRef p) data_key = VRef d ->
  h !! d = Some (Array elems) ->
  (Exists (fun v => is_nullish v = true) elems ->
     determine_time_domain h p = Throw TypeError) /\
  (Forall (fun v => is_nullish v = false) elems ->
     exists h' sorted,
       determine_time_domain h p = Normal h' /\
       h' !! d = Some (Array sorted) /\
       Permutation sorted elems /\
       length h' = length h).
Proof.
  intros Hdata Hd. split.
  - intros Hex. apply existsb_nullish in Hex.
    unfold determine_time_domain. rewrite Hdata. simpl is_nullish. cbv iota.
    rewrite Hd. destruct elems as [|e es]; [done|]. by rewrite Hex.
  - intros Hall.
    destruct (determine_time_domain_array h p d elems Hdata Hd Hall)
      as (h' & sorted & Hdet & Hs & Hperm & Hlen & _).
    by exists h', sorted.
Qed.

(** The data of the sample diagram. *)
Lemma X8_block_keeps_every_element_witness :
  exists h' sorted,
    determine_time_domain DiagramSample.store 7 = Normal h' /\
    h' !! 12%nat = Some (Array sorted) /\
    Permutation sorted [VRef 13; VRef 14; VRef 15; VRef 16].
Proof.
  destruct (X8_block_keeps_every_element DiagramSample.store 7 12
              [VRef 13; VRef 14; VRef 15; VRef 16]) as [_ H].
  - reflexivity.
  - reflexivity.
  - destruct H as (h' & sorted & Hdet & Hs & Hperm & _).
    + repeat constructor.
    + exists h', sorted. split; [exact Hdet|]. split; [exact Hs|exact Hperm].
Defined.

(** X9. After the block has run on a non-empty array of data points, no
    data point starts before [startTime] or ends after [endTime]; and when
    one of them starts no later than it ends, [startTime] is not after
    [endTime]. *)
Theorem X9_domain_holds_every_event (h : heap) (p d : loc) (elems : list value) :
  get h (VRef p) data_key = VRef d ->
  h !! d = Some (Array elems) ->
  elems <> [] ->
  Forall (is_event h) elems ->
  exists h' s e,
    determine_time_domain h p = Normal h' /\
    get h' (VRef p) startTime_key = VDate s /\
    get h' (VRef p) endTime_key = VDate e /\
    (forall v, start_of h' v = start_of h v /\ end_of h' v = end_of h v) /\
    Forall (fun v => (s <= start_of h v)%Z /\ (end_of h v <= e)%Z) elems /\
    (Exists (fun v => (start_of h v <= end_of h v)%Z) elems -> (s <= e)%Z).
Proof.
  intros Hdata Hd Hne Hev.
  destruct (determine_time_domain_events h p d elems Hdata Hd Hne Hev)
    as (h' & sorted & Hdet & Hs & He & _ & _ & _ & Hstart & Hend & _).
  exists h', (minimum_of (map (start_of h) elems)), (maximum_of (map (end_of h) elems)).
  split; [done|]. split; [done|]. split; [done|].
  split; [intros v; unfold start_of, end_of; by rewrite Hstart, Hend|].
  assert (map (start_of h) elems <> []) as Hns by (by destruct elems).
  assert (map (end_of h) elems <> []) as Hne' by (by destruct elems).
  destruct (minimum_of_spec _ Hns) as [_ Hmin].
  destruct (maximum_of_spec _ Hne') as [_ Hmax].
  rewrite Forall_forall in Hmin, Hmax.
  assert (forall v, v ∈ elems ->
            (minimum_of (map (start_of h) elems) <= start_of h v)%Z /\
            (end_of h v <= maximum_of (map (end_of h) elems))%Z) as Hin.
  { intros v Hv. split.
    - apply Hmin. by apply (list_elem_of_fmap_2 (start_of h)).
    - apply Hmax. by apply (list_elem_of_fmap_2 (end_of h)). }
  split.
  - apply Forall_forall. exact Hin.
  - intros (v & Hv & Hle)%Exists_exists. destruct (Hin v Hv). lia.
Qed.

Lemma diagram_data_events :
  Forall (is_event DiagramSample.store) [VRef 13; VRef 14; VRef 15; VRef 16].
Proof. repeat constructor; eexists; reflexivity. Qed.

(** The data of the sample diagram: startTime is not after endTime. *)
Lemma X9_domain_holds_every_event_witness :
  exists h' s e,
    determine_time_domain DiagramSample.store 7 = Normal h' /\
    get h' (VRef 7) startTime_key = VDate s /\
    get h' (VRef 7) endTime_key = VDate e /\
    (s <= e)%Z.
Proof.
  destruct (X9_domain_holds_every_event DiagramSample.store 7 12
              [VRef 13; VRef 14; VRef 15; VRef 16])
    as (h' & s & e & Hdet & Hs & He & _ & _ & Hord).
  - reflexivity.
  - reflexivity.
  - discriminate.
  - exact diagram_data_events.
  - exists h', s, e. split; [exact Hdet|]. split; [exact Hs|]. split; [exact He|].
    apply Hord. apply Exists_cons_hd. vm_compute. discriminate.
Defined.

End BlockFacts.

(* ===================================================================== *)
(** ** d3.ganttDiagram.init                                               *)
(* ===================================================================== *)

Section DiagramInit.

Lemma diagram_init_unfold h w user :
  GanttDiagram.init h w user =
  (h2 ← determine_time_domain (GanttDiagram.extend h (VRef (defaultParameters w)) user).1
         (GanttDiagram.extend h (VRef (defaultParameters w)) user).2;
   mret (h2, {| defaultParameters := defaultParameters w;
                params := VRef (GanttDiagram.extend h (VRef (defaultParameters w)) user).2 |})).
Proof.
  unfold GanttDiagram.init.
  by destruct (GanttDiagram.extend h (VRef (defaultParameters w)) user).
Qed.

(** X5. init of d3.ganttDiagram raises a TypeError when the merged
    parameters hold no data: when the argument gives [data] as undefined
    or null, util.extend copying it over the default, and when neither
    the argument nor the defaults hold the key. *)
Theorem X5_diagram_init_throws_without_data (h : heap) (w : widget) (user : value) :
  (defaultParameters w < length h)%nat -> in_store h user ->
  is_nullish (if decide (data_key ∈ enumerate h user) then get h user data_key
              else get h (VRef (defaultParameters w)) data_key) = true ->
  GanttDiagram.init h w user = Throw TypeError.
Proof.
  intros Hw Hu Hnull. rewrite diagram_init_unfold.
  unfold determine_time_domain.
  rewrite (util_extend_get h _ user data_key (in_store_ref h _ Hw) Hu).
  destruct (decide (data_key ∈ enumerate h user)) as [Hk|Hk].
  - by rewrite Hnull.
  - destruct (decide (data_key ∈ enumerate h (VRef (defaultParameters w)))) as [Hk'|Hk'].
    + by rewrite Hnull.
    + done.
Qed.

(** The argument [{data: undefined}]. *)
Lemma X5_diagram_init_throws_without_data_witness :
  GanttDiagram.init DiagramSample.store DiagramSample.ganttDiagram (VRef 18)
  = Throw TypeError.
Proof.
  apply X5_diagram_init_throws_without_data.
  - simpl. lia.
  - apply in_store_ref. simpl. lia.
  - reflexivity.
Defined.

(** X6. When init of d3.ganttDiagram returns, [this.params] is a new
    object, and the store it found is as it was but for the array
    [this.params.data] refers to: no plain object has changed, the
    defaults and the argument among them. *)
Theorem X6_diagram_init_frame (h : heap) (w : widget) (user : value)
    (h' : heap) (w' : widget) :
  GanttDiagram.init h w user = Normal (h', w') ->
  params w' = VRef (length h) /\
  defaultParameters w' = defaultParameters w /\
  length h' = S (length h) /\
  (forall l ps, (l < length h)%nat -> h !! l = Some (Plain ps) ->
                h' !! l = Some (Plain ps)) /\
  (forall l, (l < length h)%nat -> get h' (params w') data_key <> VRef l ->
             h' !! l = h !! l).
Proof.
  rewrite diagram_init_unfold.
  destruct (util_extend_store h (VRef (defaultParameters w)) user) as [rs E].
  rewrite E. cbn [fst snd].
  destruct (determine_time_domain (h ++ [Plain rs]) (length h)) as [h2| |] eqn:Hdet;
    [|done|done].
  intros [= <- <-]. cbn [params defaultParameters].
  destruct (determine_time_domain_touches _ _ _ Hdet) as (Hlen & Hframe & Hplain & Hsame).
  split; [done|]. split; [done|]. split; [|split].
  - rewrite Hlen, length_app. simpl. lia.
  - intros l ps Hl Hps. apply Hplain; [lia|]. by rewrite lookup_app_l.
  - intros l Hl Hdata.
    rewrite Hframe; [by apply lookup_app_l|lia|].
    by rewrite <- Hsame.
Qed.

(** The call on the sample diagram: the defaults object is as it was. *)
Lemma X6_diagram_init_frame_witness :
  exists h' w',
    GanttDiagram.init DiagramSample.store DiagramSample.ganttDiagram (VRef 7)
      = Normal (h', w') /\
    params w' = VRef 19 /\
    h' !! 0%nat = DiagramSample.store !! 0%nat.
Proof.
  assert (exists hw, GanttDiagram.init DiagramSample.store DiagramSample.ganttDiagram
                       (VRef 7) = Normal hw) as [[h' w'] E].
  { eexists. vm_compute. reflexivity. }
  exists h', w'. split; [exact E|].
  destruct (X6_diagram_init_frame _ _ _ _ _ E) as (Hp & _ & _ & Hplain & _).
  split; [exact Hp|]. eapply Hplain; [simpl; lia|reflexivity].
Defined.

(** X7. init of d3.ganttDiagram on an argument that gives a non-empty
    array of data points returns with the minimum of their starts and the
    maximum of their ends as the domain of [this.params], whatever domain
    the argument or the defaults name. *)
Theorem X7_diagram_init_infers_domain (h : heap) (w : widget) (user : value)
    (d : loc) (elems : list value) :
  (defaultParameters w < length h)%nat -> in_store h user ->
  data_key ∈ enumerate h user ->
  get h user data_key = VRef d -> h !! d = Some (Array elems) ->
  elems <> [] -> Forall (is_event h) elems ->
  exists h' w',
    GanttDiagram.init h w user = Normal (h', w') /\
    get h' (params w') startTime_key = VDate (minimum_of (map (start_of h) elems)) /\
    get h' (params w') endTime_key = VDate (maximum_of (map (end_of h) elems)).
Proof.
  intros Hw Hu Hk Hdata Hd Hne Hev. rewrite diagram_init_unfold.
  pose proof (util_extend_get h _ user data_key (in_store_ref h _ Hw) Hu) as Hget.
  rewrite decide_True, Hdata in Hget by done.
  destruct (util_extend_store h (VRef (defaultParameters w)) user) as [rs E].
  rewrite E in *. cbn [fst snd] in *.
  assert ((h ++ [Plain rs]) !! d = Some (Array elems)) as Hd'.
  { rewrite lookup_app_l; [done|]. by eapply lookup_lt_Some. }
  assert (Forall (is_event (h ++ [Plain rs])) elems) as Hev'.
  { eapply Forall_impl; [exact Hev|]. intros v. apply is_event_app. }
  destruct (determine_time_domain_events _ _ d elems Hget Hd' Hne Hev')
    as (h' & sorted & Hdet & Hs & He & _).
  assert (forall v, v ∈ elems -> forall k, get (h ++ [Plain rs]) v k = get h v k) as Hsame.
  { intros v Hv k. rewrite Forall_forall in Hev.
    destruct (is_event_ref h v (Hev v Hv)) as (l & -> & Hl).
    apply get_app. by intros ? [= <-]. }
  assert (map (start_of (h ++ [Plain rs])) elems = map (start_of h) elems) as Hstarts.
  { apply map_ext_in. intros v Hv%list_elem_of_In. unfold start_of. by rewrite Hsame. }
  assert (map (end_of (h ++ [Plain rs])) elems = map (end_of h) elems) as Hends.
  { apply map_ext_in. intros v Hv%list_elem_of_In. unfold end_of. by rewrite Hsame. }
  rewrite Hdet. eexists _, _. split; [reflexivity|]. cbn [params].
  by rewrite Hs, He, Hstarts, Hends.
Qed.

(** The call on the sample diagram: the domain is 07:00 to 17:30. *)
Lemma X7_diagram_init_infers_domain_witness :
  exists h' w',
    GanttDiagram.init DiagramSample.store DiagramSample.ganttDiagram (VRef 7)
      = Normal (h', w') /\
    get h' (params w') startTime_key = VDate (Readme.at_time 7 0) /\
    get h' (params w') endTime_key = VDate (Readme.at_time 17 30).
Proof.
  destruct (X7_diagram_init_infers_domain DiagramSample.store DiagramSample.ganttDiagram
              (VRef 7) 12 [VRef 13; VRef 14; VRef 15; VRef 16])
    as (h' & w' & Hrun & Hs & He).
  - simpl. lia.
  - apply in_store_ref. simpl. lia.
  - by apply (bool_decide_unpack _).
  - reflexivity.
  - reflexivity.
  - discriminate.
  - exact diagram_data_events.
  - exists h', w'. split; [exact Hrun|]. split; [exact Hs|exact He].
Defined.

End DiagramInit.

(* ===================================================================== *)
(** ** The deep extend: what it keeps, and running it twice               *)
(* ===================================================================== *)

Section DeepExtendFacts.
Import Tree.

Lemma tree_ind' (P : tree -> Prop)
  (Hleaf : forall v, P (Leaf v))
  (Hobj : forall fs, Forall (fun kc => P kc.2) fs -> P (Object fs))
  (Harr : forall ts, Forall P ts -> P (Arr ts)) :
  forall t, P t.
Proof.
  fix IH 1. intros [v|fs|ts].
  - apply Hleaf.
  - apply Hobj. induction fs as [|[k c] fs IHfs]; constructor; [apply IH|apply IHfs].
  - apply Harr. induction ts as [|c ts IHts]; constructor; [apply IH|apply IHts].
Qed.

(** *** Kinds *)

Lemma same_kind_tset k c t X : same_kind (tset k c t) X = same_kind t X.
Proof. by destruct t, k. Qed.

Lemma same_kind_merge_into k c t X : same_kind (merge_into k c t) X = same_kind t X.
Proof.
  unfold merge_into.
  destruct c as [v| |]; [destruct (is_undefined v); [done|]|..]; apply same_kind_tset.
Qed.

Lemma same_kind_fold_merge fs : forall t X,
  same_kind (fold_left (fun t kc => merge_into kc.1 kc.2 t) fs t) X = same_kind t X.
Proof.
  induction fs as [|[k c] fs IH]; intros t X; [done|]. simpl.
  by rewrite IH, same_kind_merge_into.
Qed.

Lemma same_kind_merge_elems cs : forall i t X,
  same_kind (merge_elems i cs t) X = same_kind t X.
Proof.
  induction cs as [|c cs IH]; intros i t X; [done|]. simpl.
  by rewrite IH, same_kind_merge_into.
Qed.

Lemma same_kind_fold_tset (f : nat -> tree) ixs : forall t X,
  same_kind (fold_left (fun t i => tset (KIndex i) (f i) t) ixs t) X = same_kind t X.
Proof.
  induction ixs as [|i ixs IH]; intros t X; [done|]. simpl.
  by rewrite IH, same_kind_tset.
Qed.

(** The deep extend returns a tree of the kind of its target. *)
Lemma same_kind_extend D O X : same_kind (extend D O) X = same_kind D X.
Proof.
  destruct O as [v|fs|cs].
  - destruct v; try done. apply (same_kind_fold_tset (fun i => Leaf (string_at s i))).
  - rewrite extend_object. apply same_kind_fold_merge.
  - rewrite extend_arr. apply same_kind_merge_elems.
Qed.

Lemma same_kind_trans a b c :
  same_kind a b = true -> same_kind b c = true -> same_kind a c = true.
Proof. by destruct a, b, c. Qed.

Lemma same_kind_sym a b : same_kind a b = same_kind b a.
Proof. by destruct a, b. Qed.

(** *** Keys are kept and arrays do not shrink *)

Lemma field_update_field_Some k c fs k' :
  is_Some (lookup_field k' fs) -> is_Some (lookup_field k' (update_field k c fs)).
Proof.
  intros H. destruct (decide (k = k')) as [->|Hne].
  - rewrite lookup_update_field_eq. eauto.
  - by rewrite lookup_update_field_ne.
Qed.

Lemma length_arr_set i c ts : (length ts <= length (arr_set i c ts))%nat.
Proof.
  unfold arr_set. destruct (i <? length ts)%nat.
  - by rewrite length_insert.
  - rewrite length_app. lia.
Qed.

Lemma field_tset_Some k c t k' : is_Some (field t k') -> is_Some (field (tset k c t) k').
Proof.
  destruct t as [v|fs|ts]; [done| |].
  - apply field_update_field_Some.
  - destruct k as [s|i]; [done|]. destruct k' as [s'|j]; [done|]. simpl.
    intros H%lookup_lt_is_Some. apply lookup_lt_is_Some.
    pose proof (length_arr_set i c ts). lia.
Qed.

Lemma field_merge_into_Some k c t k' :
  is_Some (field t k') -> is_Some (field (merge_into k c t) k').
Proof.
  unfold merge_into.
  destruct c as [v| |]; [destruct (is_undefined v); [done|]|..]; apply field_tset_Some.
Qed.

(** The deep extend removes no key of its target. *)
Lemma field_extend_Some D O k : is_Some (field D k) -> is_Some (field (extend D O) k).
Proof.
  destruct O as [v|fs|cs].
  - destruct v; try done. simpl.
    generalize (seq 0 (String.length s)). intros ixs. revert D.
    induction ixs as [|i ixs IH]; intros D H; [done|]. simpl.
    by apply IH, field_tset_Some.
  - rewrite extend_object. revert D.
    induction fs as [|[k0 c] fs IH]; intros D H; [done|]. simpl.
    by apply IH, field_merge_into_Some.
  - rewrite extend_arr. generalize 0%nat. revert D.
    induction cs as [|c cs IH]; intros D i H; [done|]. simpl.
    by apply IH, field_merge_into_Some.
Qed.

(** The elements of an array; nothing for another tree. *)
Lemma arr_extend_length ds O :
  exists rs, extend (Arr ds) O = Arr rs /\ (length ds <= length rs)%nat.
Proof.
  assert (forall k c ts, exists ts', tset k c (Arr ts) = Arr ts' /\
            (length ts <= length ts')%nat) as Htset.
  { intros [s|i] c ts; simpl; [by exists ts|].
    eexists. split; [done|]. apply length_arr_set. }
  assert (forall k c ts, exists ts', merge_into k c (Arr ts) = Arr ts' /\
            (length ts <= length ts')%nat) as Hmi.
  { intros k c ts. unfold merge_into.
    destruct c as [v| |]; [destruct (is_undefined v); [by exists ts|]|..]; apply Htset. }
  destruct O as [v|fs|cs].
  - destruct v; try (by exists ds).
    change (extend (Arr ds) (Leaf (VString s)))
      with (fold_left (fun t i => tset (KIndex i) (Leaf (string_at s i)) t)
                      (seq 0 (String.length s)) (Arr ds)).
    generalize (seq 0 (String.length s)). intros ixs. revert ds.
    induction ixs as [|i ixs IH]; intros ds; [by exists ds|]. cbn [fold_left].
    destruct (Htset (KIndex i) (Leaf (string_at s i)) ds) as (ts' & -> & Hle).
    destruct (IH ts') as (rs & -> & Hle'). exists rs. split; [done|lia].
  - rewrite extend_object. revert ds.
    induction fs as [|[k0 c] fs IH]; intros ds; [by exists ds|].
    cbn [fold_left fst snd].
    destruct (Hmi k0 c ds) as (ts' & -> & Hle).
    destruct (IH ts') as (rs & -> & Hle'). exists rs. split; [done|lia].
  - rewrite extend_arr. generalize 0%nat. revert ds.
    induction cs as [|c cs IH]; intros ds i; [by exists ds|]. cbn [merge_elems].
    destruct (Hmi (KIndex i) c ds) as (ts' & -> & Hle).
    destruct (IH ts' (S i)) as (rs & -> & Hle'). exists rs. split; [done|lia].
Qed.

(** *** Running the deep extend twice *)

Lemma update_field_same k c fs : lookup_field k fs = Some c -> update_field k c fs = fs.
Proof.
  induction fs as [|[k' c'] fs IH]; simpl; [done|].
  destruct (decide (k = k')) as [->|Hne].
  - by intros [= ->].
  - intros H. by rewrite IH.
Qed.

Lemma tset_same t k c : field t k = Some c -> tset k c t = t.
Proof.
  destruct t as [v|fs|ts]; simpl; [done| |].
  - intros H. by rewrite update_field_same.
  - destruct k as [s|i]; [done|]. intros H. unfold arr_set.
    rewrite (proj2 (Nat.ltb_lt _ _)) by (by eapply lookup_lt_Some).
    by rewrite list_insert_id.
Qed.

Lemma tget_field t k c : tget t k = c -> c <> undefined -> field t k = Some c.
Proof.
  unfold tget. destruct (field t k) as [c'|]; simpl; [by intros ->|].
  intros <- H. done.
Qed.

Lemma lookup_field_elem_of fs k c :
  NoDup (map fst fs) -> (k, c) ∈ fs -> lookup_field k fs = Some c.
Proof.
  induction fs as [|[k' c'] fs IH]; intros Hnd Hin; [by apply elem_of_nil in Hin|].
  simpl in *. apply NoDup_cons in Hnd as [Hnotin Hnd].
  apply elem_of_cons in Hin as [[= -> ->]|Hin].
  - by rewrite decide_True.
  - rewrite decide_False; [by apply IH|].
    intros ->. apply Hnotin. apply list_elem_of_fmap. by exists (k', c).
Qed.

Lemma wf_field_elem fs k c : wf (Object fs) -> (k, c) ∈ fs -> wf c.
Proof.
  intros Hwf Hin. eapply wf_lookup_field; [exact Hwf|].
  destruct Hwf as [Hnd _]. by apply lookup_field_elem_of.
Qed.

Lemma wf_elem cs c : wf (Arr cs) -> c ∈ cs -> wf c.
Proof.
  intros Hwf (i & Hi)%list_elem_of_lookup_1. by eapply wf_lookup_elem.
Qed.

(** A turn of the loop on a tree that already holds the merge under the
    key changes nothing. *)
Lemma merge_into_absorbed k c R src :
  (is_container c ->
     forall D, same_kind D c = true -> extend (extend D c) c = extend D c) ->
  tget R k = merged src c ->
  merge_into k c R = R.
Proof.
  intros IH Hget. unfold merge_into.
  destruct c as [v|fs|cs].
  - destruct (is_undefined v) eqn:Eu; [done|]. apply tset_same.
    apply tget_field; [by rewrite Hget; simpl; rewrite Eu|]. by destruct v.
  - unfold merged in Hget.
    assert (same_kind (clone_for src (Object fs)) (Object fs) = true) as Hk
      by (by apply same_kind_clone_for).
    assert (clone_for (tget R k) (Object fs) = tget R k) as ->.
    { unfold clone_for. by rewrite Hget, same_kind_extend, Hk. }
    rewrite Hget, (IH I _ Hk). apply tset_same.
    apply tget_field; [done|]. intros E.
    pose proof (same_kind_extend (clone_for src (Object fs)) (Object fs) (Object fs)) as Hs.
    rewrite E, Hk in Hs. done.
  - unfold merged in Hget.
    assert (same_kind (clone_for src (Arr cs)) (Arr cs) = true) as Hk
      by (by apply same_kind_clone_for).
    assert (clone_for (tget R k) (Arr cs) = tget R k) as ->.
    { unfold clone_for. by rewrite Hget, same_kind_extend, Hk. }
    rewrite Hget, (IH I _ Hk). apply tset_same.
    apply tget_field; [done|]. intros E.
    pose proof (same_kind_extend (clone_for src (Arr cs)) (Arr cs) (Arr cs)) as Hs.
    rewrite E, Hk in Hs. done.
Qed.

Lemma fold_merge_into_id fs R :
  (forall k c, (k, c) ∈ fs -> merge_into k c R = R) ->
  fold_left (fun t kc => merge_into kc.1 kc.2 t) fs R = R.
Proof.
  induction fs as [|[k c] fs IH]; intros H; [done|]. simpl.
  rewrite (H k c) by left. apply IH. intros k' c' Hin. apply H. by right.
Qed.

Lemma merge_elems_id cs R : forall i,
  (forall j c, cs !! j = Some c -> merge_into (KIndex (i + j)) c R = R) ->
  merge_elems i cs R = R.
Proof.
  induction cs as [|c cs IH]; intros i H; [done|]. simpl.
  pose proof (H 0%nat c eq_refl) as H0. rewrite Nat.add_0_r in H0. rewrite H0.
  apply IH. intros j c' Hj. specialize (H (S j) c' Hj).
  by replace (S i + j)%nat with (i + S j)%nat by lia.
Qed.

(** The deep extend is idempotent: extending the result by the same
    options gives the result. *)
Lemma extend_idempotent O : forall D,
  wf O -> same_kind D O = true -> extend (extend D O) O = extend D O.
Proof.
  induction O as [v|fs IH|cs IH] using tree_ind'; intros D Hwf Hk.
  - by destruct D.
  - rewrite (extend_object (extend D (Object fs))).
    apply fold_merge_into_id. intros k c Hin.
    rewrite Forall_forall in IH.
    apply (merge_into_absorbed k c _ (tget D k)).
    + intros _ D' HD'. apply (IH (k, c) Hin); [|done]. by eapply wf_field_elem.
    + rewrite extend_get by done. unfold tget at 2. simpl.
      destruct Hwf as [Hnd _]. by rewrite (lookup_field_elem_of fs k c).
  - rewrite (extend_arr (extend D (Arr cs))).
    apply merge_elems_id. intros j c Hj. change (0 + j)%nat with j.
    rewrite Forall_forall in IH.
    assert (c ∈ cs) as Hin by (by eapply list_elem_of_lookup_2).
    apply (merge_into_absorbed (KIndex j) c _ (tget D (KIndex j))).
    + intros _ D' HD'. apply (IH c Hin); [|done]. by eapply wf_elem.
    + rewrite extend_get by done. unfold tget at 2. simpl. by rewrite Hj.
Qed.

Lemma lookup_field_is_Some k fs : is_Some (lookup_field k fs) <-> k ∈ map fst fs.
Proof.
  induction fs as [|[k' c'] fs IH]; simpl.
  - rewrite elem_of_nil. split; [by intros [? ?]|done].
  - rewrite elem_of_cons. destruct (decide (k = k')) as [->|Hne].
    + split; eauto.
    + rewrite IH. split; [auto|]. by intros [?|?].
Qed.

(** The keys for-in visits on a container of the store are the keys of
    its tree. *)
Lemma enumerate_field h T k :
  rep h T -> is_cont T ->
  k ∈ enumerate h (VRef (root T)) <-> is_Some (field (erase T) k).
Proof.
  intros Hrep Hc. destruct T as [v|l fs|l ts]; [done| |].
  - inversion Hrep as [|? ? Hl _ _|]; subst. simpl. rewrite Hl. simpl.
    rewrite lookup_field_is_Some, !map_map. done.
  - inversion Hrep as [| |? ? Hl _]; subst. simpl. rewrite Hl. simpl.
    rewrite length_map. split.
    + intros (i & -> & Hi)%list_elem_of_fmap. apply elem_of_seq in Hi.
      apply lookup_lt_is_Some. rewrite length_map. lia.
    + destruct k as [s|i]; [by intros [? ?]|].
      intros Hi%lookup_lt_is_Some. rewrite length_map in Hi.
      apply list_elem_of_fmap. exists i. split; [done|]. apply elem_of_seq. lia.
Qed.

Lemma get_ref_lstores h T k d :
  rep h T -> is_cont T -> get h (VRef (root T)) k = VRef d -> lstores T k.
Proof.
  intros Hrep Hc Hget. destruct T as [v|l fs|l ts]; [done|done|].
  destruct k as [s|i]; [|done].
  inversion Hrep as [| |? ? Hl _]; subst. simpl in Hget. rewrite Hl in Hget.
  simpl in Hget. by destruct (decide (KName s = length_key)).
Qed.

(** The two runs of the deep extend on the store that the statements
    below are about. *)
Lemma extend_refines_apart h T O :
  rep h T -> rep h O -> lkind T = lkind O -> is_cont O ->
  NoDup (locs T) -> Forall (fun x => x ∉ locs T) (locs O) ->
  exists h' T',
    JQuery.extend (depth O) h (root T) (lvalue O) = Some h' /\
    erase T' = extend (erase T) (erase O) /\
    extends_to h T h' T' /\
    rep h' O /\ Forall (fun x => x ∉ locs T') (locs O).
Proof.
  intros HrT HrO Hk HcO Hnd Hapart. rewrite Forall_forall in Hapart.
  destruct (extend_refines (depth O) h T O)
    as (h' & T' & Hrun & Her & Hpost); auto.
  { intros x Hx. exact (rep_bounded h T x HrT Hx). }
  { intros x Hx. split; [exact (rep_bounded h O x HrO Hx)|by apply Hapart]. }
  exists h', T'. split; [done|]. split; [done|]. split; [done|].
  destruct Hpost as (_ & _ & _ & _ & Hframe & Hsub & _).
  split.
  - eapply rep_frame; [exact HrO|]. intros l Hl.
    apply Hframe; [exact (rep_bounded h O l HrO Hl)|by apply Hapart].
  - apply Forall_forall. intros x Hx Hx'.
    destruct (Hsub x Hx') as [?|Hge]; [by apply (Hapart x)|].
    pose proof (rep_bounded h O x HrO Hx). lia.
Qed.

(** X10. [$.extend(true, target, options)] removes nothing from its
    target: every key of the target object is a key of it afterwards, and
    an array the target holds under a key, when the options hold an array
    or nothing under that key, is an array at least as long afterwards. *)
Theorem X10_extend_keeps_keys (h : heap) (T O : ltree) :
  rep h T -> rep h O -> lkind T = lkind O -> is_cont O ->
  NoDup (locs T) -> Forall (fun x => x ∉ locs T) (locs O) ->
  exists h',
    JQuery.extend (depth O) h (root T) (lvalue O) = Some h' /\
    (forall k, k ∈ enumerate h (VRef (root T)) -> k ∈ enumerate h' (VRef (root T))) /\
    (forall k d vs,
       get h (VRef (root T)) k = VRef d -> h !! d = Some (Array vs) ->
       (get h (lvalue O) k = VUndefined \/
        exists d2 vs2, get h (lvalue O) k = VRef d2 /\ h !! d2 = Some (Array vs2)) ->
       exists d' vs',
         get h' (VRef (root T)) k = VRef d' /\ h' !! d' = Some (Array vs') /\
         (length vs <= length vs')%nat).
Proof.
  intros HrT HrO Hk HcO Hnd Hapart.
  destruct (extend_refines_apart h T O HrT HrO Hk HcO Hnd Hapart)
    as (h' & T' & Hrun & Her & (Hrep & Hroot & Hk' & _) & _).
  assert (is_cont T) as HcT by (apply lkind_is_cont; rewrite Hk; by apply lkind_is_cont).
  assert (is_cont T') as HcT' by (apply lkind_is_cont; rewrite Hk', Hk; by apply lkind_is_cont).
  exists h'. split; [done|]. split.
  - intros k Hin. rewrite <- Hroot. apply (enumerate_field h' T' k Hrep HcT').
    rewrite Her. apply field_extend_Some. by apply (enumerate_field h T k HrT HcT).
  - intros k d vs Hget Hd Hopt.
    pose proof (get_ref_lstores h T k d HrT HcT Hget) as Hs.
    assert (lstores O k) as HsO by (by apply (lstores_lkind T)).
    assert (lstores T' k) as HsT' by (by apply (lstores_lkind T)).
    rewrite <- (lkind_lvalue T HcT) in Hget.
    destruct (rep_get_array h T k d vs HrT Hs Hget Hd) as (ts & HfT & <- & _).
    assert (exists rs, tget (erase T') k = Arr rs /\ (length ts <= length rs)%nat)
      as (rs & Hrs & Hle).
    { rewrite Her, extend_get; [|by eapply rep_wf|by apply same_kind_lkind].
      rewrite (lfield_tget T), HfT.
      destruct Hopt as [Hu|(d2 & vs2 & Hget2 & Hd2)].
      - apply (get_leaf_tget h O k _ HrO HsO) in Hu; [|done]. rewrite Hu. simpl.
        exists (map erase ts). by rewrite length_map.
      - destruct (rep_get_array h O k d2 vs2 HrO HsO Hget2 Hd2) as (ts2 & HfO & _ & _).
        rewrite (lfield_tget O), HfO.
        destruct (arr_extend_length (map erase ts) (Arr (map erase ts2)))
          as (rs & E & Hle). exists rs. rewrite length_map in Hle.
        split; [exact E|done]. }
    destruct (tget_arr_rep h' T' k rs Hrep HsT' Hrs) as (d' & ts' & Hmap & Hget' & Hd' & _).
    exists d', (map lvalue ts'). rewrite <- Hroot, <- (lkind_lvalue T' HcT').
    split; [done|]. split; [done|].
    rewrite !length_map. rewrite <- Hmap in Hle. by rewrite length_map in Hle.
Qed.

Lemma rep_defaults_activities :
  rep Readme.merge_store MergeSample.defaults_activities.
Proof. unfold MergeSample.defaults_activities. solve_rep. Qed.

Lemma rep_overrides_activities :
  rep Readme.merge_store MergeSample.overrides_activities.
Proof. unfold MergeSample.overrides_activities. solve_rep. Qed.

(** ['John', 'Bob'] extended by ['Jane']: still two activities. *)
Lemma X10_extend_keeps_keys_witness :
  exists h' d' vs',
    JQuery.extend 2 Readme.merge_store 4 (VRef 6) = Some h' /\
    get h' (VRef 4) (KName "activities") = VRef d' /\
    h' !! d' = Some (Array vs') /\ (2 <= length vs')%nat.
Proof.
  destruct (X10_extend_keeps_keys Readme.merge_store
              MergeSample.defaults_activities MergeSample.overrides_activities)
    as (h' & Hrun & _ & Harr).
  - exact rep_defaults_activities.
  - exact rep_overrides_activities.
  - reflexivity.
  - exact I.
  - by apply (bool_decide_unpack _).
  - by apply (bool_decide_unpack _).
  - destruct (Harr (KName "activities") 5%nat [VString "John"; VString "Bob"])
      as (d' & vs' & Hget & Hd & Hlen).
    + reflexivity.
    + reflexivity.
    + right. exists 7%nat, [VString "Jane"]. split; reflexivity.
    + exists h', d', vs'. split; [exact Hrun|]. split; [exact Hget|].
      split; [exact Hd|exact Hlen].
Defined.

(** X11. [$.extend(true, target, options)] is idempotent: run again with
    the same options on the store it left, it returns, and the target
    holds the same tree of values as after the first run. *)
Theorem X11_extend_twice (h : heap) (T O : ltree) :
  rep h T -> rep h O -> lkind T = lkind O -> is_cont O ->
  NoDup (locs T) -> Forall (fun x => x ∉ locs T) (locs O) ->
  exists h1 T1 h2 T2,
    JQuery.extend (depth O) h (root T) (lvalue O) = Some h1 /\
    JQuery.extend (depth O) h1 (root T) (lvalue O) = Some h2 /\
    rep h1 T1 /\ root T1 = root T /\
    rep h2 T2 /\ root T2 = root T /\
    erase T2 = erase T1.
Proof.
  intros HrT HrO Hk HcO Hnd Hapart.
  destruct (extend_refines_apart h T O HrT HrO Hk HcO Hnd Hapart)
    as (h1 & T1 & Hrun1 & Her1 & (Hrep1 & Hroot1 & Hk1 & _ & _ & _ & _ & Hnd1) & HrO1 & Hapart1).
  destruct (extend_refines_apart h1 T1 O Hrep1 HrO1 (eq_trans Hk1 Hk) HcO Hnd1 Hapart1)
    as (h2 & T2 & Hrun2 & Her2 & (Hrep2 & Hroot2 & _) & _).
  exists h1, T1, h2, T2. rewrite Hroot1 in Hrun2, Hroot2.
  split; [done|]. split; [done|]. split; [done|]. split; [done|].
  split; [done|]. split; [done|].
  rewrite Her2, Her1. apply extend_idempotent; [by eapply rep_wf|].
  by apply same_kind_lkind.
Qed.

(** [{yAxis: {width: 50}}] merged twice into
    [{yAxis: {width: 15, dynamicHeight: true}}]. *)
Lemma X11_extend_twice_witness :
  exists h1 h2,
    JQuery.extend 2 Readme.merge_store 0 (VRef 2) = Some h1 /\
    JQuery.extend 2 h1 0 (VRef 2) = Some h2.
Proof.
  destruct (X11_extend_twice Readme.merge_store
              Readme.defaults_yAxis Readme.overrides_yAxis)
    as (h1 & T1 & h2 & T2 & Hrun1 & Hrun2 & _).
  - exact rep_defaults_yAxis.
  - exact rep_overrides_yAxis.
  - reflexivity.
  - exact I.
  - by apply (bool_decide_unpack _).
  - by apply (bool_decide_unpack _).
  - exists h1, h2. split; [exact Hrun1|exact Hrun2].
Defined.

End DeepExtendFacts.

(* ===================================================================== *)
(** ** Bars on the time axis                                              *)
(* ===================================================================== *)

Section BarFacts.
Import GanttChart.

Lemma scaleTime_range d0 d1 w x :
  (d0 <= d1)%Z -> 0 <= w -> 0 <= D3.scaleTime d0 d1 0 w x <= w.
Proof.
  intros Hd Hw. rewrite scaleTime_unfold by done.
  pose proof (clamp_range (inject_Z d0) (inject_Z d1) (inject_Z x)). nra.
Qed.

(** The part of the domain up to a timestamp. *)
Lemma scaleTime_clip d0 d1 w x :
  (d0 < d1)%Z ->
  D3.scaleTime d0 d1 0 w x ==
  w * (inject_Z (Z.max d0 (Z.min d1 x) - d0) / inject_Z (d1 - d0)).
Proof.
  intros Hd. rewrite scaleTime_unfold by lia.
  assert (inject_Z d0 < inject_Z d1) as Hq by (by rewrite <- Zlt_Qlt).
  assert (~ inject_Z (d1 - d0) == 0) as Hne.
  { unfold Z.sub. rewrite inject_Z_plus, inject_Z_opp. lra. }
  destruct (Z_le_gt_dec x d0) as [H0|H0].
  - rewrite clamp_below by (by rewrite <- Zle_Qle).
    replace (Z.max d0 (Z.min d1 x) - d0)%Z with 0%Z by lia.
    unfold Qdiv. change (inject_Z 0) with 0. ring.
  - destruct (Z_le_gt_dec d1 x) as [H1|H1].
    + rewrite clamp_above by (first [by rewrite <- Zlt_Qlt; lia | by rewrite <- Zle_Qle]).
      replace (Z.max d0 (Z.min d1 x) - d0)%Z with (d1 - d0)%Z by lia.
      field. exact Hne.
    + rewrite clamp_inside by (rewrite <- Zlt_Qlt; lia).
      replace (Z.max d0 (Z.min d1 x) - d0)%Z with (x - d0)%Z by lia.
      unfold Z.sub. rewrite !inject_Z_plus, !inject_Z_opp. reflexivity.
Qed.

(** X12. On a chart with [startTime <= endTime] and a width that is not
    negative, every bar lies within the chart: it starts at an offset
    between 0 and the width and ends no further than the width, whatever
    the data point. *)
Theorem X12_bar_within_chart (p : parameters) (elem : element) :
  (startTime p <= endTime p)%Z -> 0 <= width p ->
  0 <= tx (elementTranslate p elem) /\
  tx (elementTranslate p elem) <= width p /\
  tx (elementTranslate p elem) + elementWidth p elem <= width p /\
  0 <= tx (elementTranslate p elem) + elementWidth p elem.
Proof.
  intros Hd Hw. unfold elementWidth, elementTranslate, xAxisScale. cbn [tx].
  pose proof (scaleTime_range (startTime p) (endTime p) (width p) (start elem) Hd Hw).
  pose proof (scaleTime_range (startTime p) (endTime p) (width p) (end_ elem) Hd Hw).
  repeat split; lra.
Qed.

(** A data point from 05:00 to 19:00 on the chart of the README. *)
Lemma X12_bar_within_chart_witness :
  tx (elementTranslate Readme.parameters_after_init
        (Readme.element_of "Bob" "Long day" "rgb(200, 200, 100)"
           (Readme.at_time 5 0) (Readme.at_time 19 0)))
  + elementWidth Readme.parameters_after_init
        (Readme.element_of "Bob" "Long day" "rgb(200, 200, 100)"
           (Readme.at_time 5 0) (Readme.at_time 19 0))
  <= width Readme.parameters_after_init.
Proof.
  destruct (X12_bar_within_chart Readme.parameters_after_init
    (Readme.element_of "Bob" "Long day" "rgb(200, 200, 100)"
       (Readme.at_time 5 0) (Readme.at_time 19 0))) as (_ & _ & H & _).
  - discriminate.
  - discriminate.
  - exact H.
Defined.

(** X13. The label of a bar is anchored at the middle of the bar and of
    the row: for a data point with [start <= end], on a chart with
    [startTime <= endTime] and a width that is not negative, its
    horizontal offset lies within the bar, so the anchor lies within the
    chart, and twice the offsets are the bar width and the band width. *)
Theorem X13_label_within_bar (p : parameters) (elem : element) :
  (start elem <= end_ elem)%Z -> (startTime p <= endTime p)%Z -> 0 <= width p ->
  0 <= tx (elementLabelTranslate p elem) /\
  tx (elementLabelTranslate p elem) <= elementWidth p elem /\
  tx (elementTranslate p elem) + tx (elementLabelTranslate p elem) <= width p /\
  2 * tx (elementLabelTranslate p elem) == elementWidth p elem /\
  exists y, ty (elementLabelTranslate p elem) = Some y /\
            2 * y == D3.bandwidth (yAxisScale p).
Proof.
  intros He Hd Hw.
  assert (0 <= elementWidth p elem) as Hwd.
  { unfold elementWidth, xAxisScale.
    pose proof (scaleTime_mono (startTime p) (endTime p) (width p) _ _ Hd Hw He). lra. }
  assert (tx (elementTranslate p elem) + elementWidth p elem <= width p) as Hin.
  { unfold elementWidth, elementTranslate, xAxisScale. cbn [tx].
    pose proof (scaleTime_range (startTime p) (endTime p) (width p) (end_ elem) Hd Hw).
    lra. }
  assert (tx (elementLabelTranslate p elem) == elementWidth p elem / 2) as Hl
    by reflexivity.
  assert (elementWidth p elem / 2 * 2 == elementWidth p elem) as Hh by (field; lra).
  split; [rewrite Hl; lra|]. split; [rewrite Hl; lra|]. split; [rewrite Hl; lra|].
  split; [rewrite Hl; lra|].
  eexists. split; [reflexivity|]. field.
Qed.

(** The first data point of the README's chart. *)
Lemma X13_label_within_bar_witness :
  tx (elementLabelTranslate Readme.parameters_after_init
        (Readme.element_of "John" "Work" "rgb(200, 200, 200)"
           (Readme.at_time 7 0) (Readme.at_time 15 0)))
  <= elementWidth Readme.parameters_after_init
        (Readme.element_of "John" "Work" "rgb(200, 200, 200)"
           (Readme.at_time 7 0) (Readme.at_time 15 0)).
Proof.
  destruct (X13_label_within_bar Readme.parameters_after_init
    (Readme.element_of "John" "Work" "rgb(200, 200, 200)"
       (Readme.at_time 7 0) (Readme.at_time 15 0))) as (_ & H & _).
  - discriminate.
  - discriminate.
  - discriminate.
  - exact H.
Defined.

(** X14. On a domain with [startTime < endTime] the width of a bar is the
    chart width times the share of the domain that the data point covers,
    its start and end cut to the domain; so a data point that ends by
    [startTime] or starts at [endTime] or later has a bar of width 0. *)
Theorem X14_bar_shows_visible_part (p : parameters) (elem : element) :
  (startTime p < endTime p)%Z ->
  let clip := fun t => Z.max (startTime p) (Z.min (endTime p) t) in
  elementWidth p elem ==
    width p * (inject_Z (clip (end_ elem) - clip (start elem))
               / inject_Z (endTime p - startTime p)) /\
  ((start elem <= end_ elem)%Z -> (end_ elem <= startTime p)%Z ->
     elementWidth p elem == 0) /\
  ((start elem <= end_ elem)%Z -> (endTime p <= start elem)%Z ->
     elementWidth p elem == 0).
Proof.
  intros Hd. cbv zeta.
  assert (~ inject_Z (endTime p - startTime p) == 0) as Hne.
  { unfold Z.sub. rewrite inject_Z_plus, inject_Z_opp.
    assert (inject_Z (startTime p) < inject_Z (endTime p)) by (by rewrite <- Zlt_Qlt).
    lra. }
  assert (elementWidth p elem ==
    width p * (inject_Z (Z.max (startTime p) (Z.min (endTime p) (end_ elem)) -
                         Z.max (startTime p) (Z.min (endTime p) (start elem)))
               / inject_Z (endTime p - startTime p))) as Hw.
  { unfold elementWidth, xAxisScale. rewrite !scaleTime_clip by done.
    set (a := Z.max (startTime p) (Z.min (endTime p) (end_ elem))).
    set (b := Z.max (startTime p) (Z.min (endTime p) (start elem))).
    replace (a - b)%Z with ((a - startTime p) - (b - startTime p))%Z by lia.
    unfold Z.sub at 5. rewrite inject_Z_plus, inject_Z_opp. field. exact Hne. }
  split; [exact Hw|]. split.
  - intros He Hs. rewrite Hw.
    replace (Z.max (startTime p) (Z.min (endTime p) (end_ elem)) -
             Z.max (startTime p) (Z.min (endTime p) (start elem)))%Z with 0%Z by lia.
    unfold Qdiv. change (inject_Z 0) with 0. ring.
  - intros He Hs. rewrite Hw.
    replace (Z.max (startTime p) (Z.min (endTime p) (end_ elem)) -
             Z.max (startTime p) (Z.min (endTime p) (start elem)))%Z with 0%Z by lia.
    unfold Qdiv. change (inject_Z 0) with 0. ring.
Qed.

(** A data point from 18:00 to 19:00 on the chart of the README, whose
    domain ends at 17:30. *)
Lemma X14_bar_shows_visible_part_witness :
  elementWidth Readme.parameters_after_init
    (Readme.element_of "Bob" "Late" "rgb(200, 200, 100)"
       (Readme.at_time 18 0) (Readme.at_time 19 0)) == 0.
Proof.
  destruct (X14_bar_shows_visible_part Readme.parameters_after_init
    (Readme.element_of "Bob" "Late" "rgb(200, 200, 100)"
       (Readme.at_time 18 0) (Readme.at_time 19 0))) as (_ & _ & H).
  - reflexivity.
  - apply H; discriminate.
Defined.

End BarFacts.

(* ===================================================================== *)
(** ** Rows when names repeat                                             *)
(* ===================================================================== *)

Section RowFacts.
Import D3.

Lemma add_names_length names : forall dom,
  (length dom <= length (add_names dom names) <= length dom + length names)%nat.
Proof.
  induction names as [|d names IH]; intros dom; simpl; [lia|].
  destruct (decide (d ∈ dom)).
  - specialize (IH dom). lia.
  - specialize (IH (dom ++ [d])). rewrite length_app in IH. simpl in IH. lia.
Qed.

Lemma add_names_length_full names : forall dom,
  length (add_names dom names) = (length dom + length names)%nat ->
  NoDup dom -> NoDup (dom ++ names).
Proof.
  induction names as [|d names IH]; intros dom Hlen Hnd; simpl in *.
  - by rewrite app_nil_r.
  - destruct (decide (d ∈ dom)) as [Hin|Hnin].
    + pose proof (add_names_length names dom). lia.
    + replace (dom ++ d :: names) with ((dom ++ [d]) ++ names)
        by (by rewrite <- app_assoc).
      apply IH.
      * rewrite Hlen, length_app. simpl. lia.
      * apply NoDup_app. split; [done|]. split; [|apply NoDup_singleton].
        intros x Hx Hx'. apply list_elem_of_singleton in Hx' as ->. done.
Qed.

Lemma add_names_keeps_NoDup names : forall dom,
  NoDup dom -> NoDup (add_names dom names).
Proof.
  induction names as [|d names IH]; intros dom Hnd; simpl; [done|].
  destruct (decide (d ∈ dom)) as [Hin|Hnin]; apply IH; [done|].
  apply NoDup_app. split; [done|]. split; [|apply NoDup_singleton].
  intros x Hx Hx'. apply list_elem_of_singleton in Hx' as ->. done.
Qed.

Lemma ordinal_domain_is_NoDup names : NoDup (ordinal_domain names).
Proof. apply add_names_keeps_NoDup, NoDup_nil_2. Qed.

Lemma ordinal_domain_length names :
  (length (ordinal_domain names) <= length names)%nat.
Proof. pose proof (add_names_length names []). simpl in *. unfold ordinal_domain. lia. Qed.

Lemma ordinal_domain_repeat names :
  ~ NoDup names -> (length (ordinal_domain names) < length names)%nat.
Proof.
  intros Hdup. pose proof (ordinal_domain_length names) as Hle.
  destruct (decide (length (ordinal_domain names) = length names)) as [Heq|]; [|lia].
  exfalso. apply Hdup.
  apply (add_names_length_full names []); [exact Heq|apply NoDup_nil_2].
Qed.

Lemma elem_of_ordinal_domain names x : x ∈ ordinal_domain names <-> x ∈ names.
Proof.
  unfold ordinal_domain. rewrite elem_of_add_names. split; [|by right].
  intros [H|H]; [by apply elem_of_nil in H|done].
Qed.

Lemma ordinal_domain_nonempty names :
  names <> [] -> (0 < length (ordinal_domain names))%nat.
Proof.
  intros Hne. destruct names as [|x names]; [done|].
  assert (x ∈ ordinal_domain (x :: names)) as Hin
    by (apply elem_of_ordinal_domain; left).
  destruct (ordinal_domain (x :: names)); [by apply elem_of_nil in Hin|simpl; lia].
Qed.

Lemma index_of_elem x l :
  x ∈ l -> exists i, index_of x l = Some i /\ (i < length l)%nat /\ l !! i = Some x.
Proof.
  induction l as [|y l IH]; intros Hin; [by apply elem_of_nil in Hin|].
  simpl. destruct (decide (x = y)) as [->|Hne].
  - exists 0%nat. simpl. split; [done|]. split; [lia|done].
  - apply elem_of_cons in Hin as [?|Hin]; [done|].
    destruct (IH Hin) as (i & -> & Hlt & Hi).
    exists (S i). simpl. split; [done|]. split; [lia|done].
Qed.

Lemma index_of_first x l i :
  index_of x l = Some i -> forall j y, (j < i)%nat -> l !! j = Some y -> y <> x.
Proof.
  revert i. induction l as [|z l IH]; intros i Hi j y Hj Hy; [done|].
  simpl in Hi. destruct (decide (x = z)) as [->|Hne].
  - injection Hi as <-. lia.
  - destruct (index_of x l) as [i'|] eqn:Hi'; [|done]. injection Hi as <-.
    destruct j as [|j]; simpl in Hy.
    + injection Hy as <-. done.
    + apply (IH i' eq_refl j y); [lia|done].
Qed.

(** The divisor of the band step is the number of distinct names, and 1
    for an empty domain. *)
Lemma band_divisor names :
  let d := nat_Q (length (ordinal_domain names)) in
  Qmax 1 (d - 0 + 0 * 2) == Qmax 1 d /\ 1 <= Qmax 1 d /\
  (names <> [] -> Qmax 1 d == d).
Proof.
  cbv zeta. set (d := nat_Q (length (ordinal_domain names))).
  assert (d - 0 + 0 * 2 == d) as Hd by ring.
  split; [by rewrite Hd|]. split; [apply Q.le_max_l|].
  intros Hne. apply Q.max_r. apply nat_Q_pos. by apply ordinal_domain_nonempty.
Qed.

(** The band scale over any list of names and a range [0, h] with
    [0 <= h]: the rows are the distinct names in the order of their first
    occurrence. *)
Lemma scaleBand_rows names h :
  0 <= h ->
  let b := scaleBand names 0 h in
  let d := nat_Q (length (ordinal_domain names)) in
  bandwidth b == h / Qmax 1 d /\
  0 <= bandwidth b /\
  (names <> [] -> bandwidth b * d == h) /\
  forall x, x ∈ names ->
    exists i y, index_of x (ordinal_domain names) = Some i /\
      (i < length (ordinal_domain names))%nat /\
      band_apply b x = Some y /\ y == nat_Q i * bandwidth b.
Proof.
  intros Hh. cbv zeta.
  destruct (band_divisor names) as (Hdiv & Hge & Hfull). cbv zeta in *.
  unfold scaleBand. rewrite Qltb_false by done.
  cbn [domain bandwidth step ordinalRange].
  set (d := nat_Q (length (ordinal_domain names))) in *.
  assert (Hbw : (h - 0) / Qmax 1 (d - 0 + 0 * 2) * (1 - 0) == h / Qmax 1 d).
  { rewrite Hdiv. field. lra. }
  split; [exact Hbw|]. split.
  { rewrite Hbw. apply Qle_shift_div_l; lra. }
  split.
  { intros Hne. rewrite Hbw, (Hfull Hne). field.
    pose proof (nat_Q_pos _ (ordinal_domain_nonempty names Hne)). fold d in H. lra. }
  intros x Hx.
  assert (Hne : names <> []) by (intros ->; by apply elem_of_nil in Hx).
  destruct (index_of_elem x (ordinal_domain names)) as (i & Hi & Hlt & _);
    [by apply elem_of_ordinal_domain|].
  unfold band_apply. cbn [domain ordinalRange]. rewrite Hi.
  rewrite length_map, length_seq, Nat.mod_small by done.
  rewrite list_lookup_fmap, lookup_seq_lt by done. simpl.
  eexists i, _. split; [done|]. split; [done|]. split; [done|].
  rewrite Hdiv, (Hfull Hne).
  pose proof (nat_Q_pos _ (ordinal_domain_nonempty names Hne)). fold d in H.
  field. lra.
Qed.

(** Over a range [0, h] with [h < 0] the scale runs from [h] to 0: the
    band width is [-h] over the divisor. *)
Lemma scaleBand_reversed names h :
  h < 0 ->
  bandwidth (scaleBand names 0 h)
    == - h / Qmax 1 (nat_Q (length (ordinal_domain names))).
Proof.
  intros Hh. destruct (band_divisor names) as (Hdiv & Hge & _). cbv zeta in *.
  unfold scaleBand. rewrite Qltb_true by done. cbn [bandwidth].
  rewrite Hdiv. field. lra.
Qed.

Lemma bandwidth_nonneg names h : 0 <= bandwidth (scaleBand names 0 h).
Proof.
  destruct (Qlt_le_dec h 0) as [Hneg|Hpos].
  - rewrite scaleBand_reversed by done.
    destruct (band_divisor names) as (_ & Hge & _). cbv zeta in Hge.
    apply Qle_shift_div_l; lra.
  - by destruct (scaleBand_rows names h Hpos) as (_ & H & _).
Qed.

End RowFacts.

(* ===================================================================== *)
(** ** Drawing again                                                      *)
(* ===================================================================== *)

Section RedrawFacts.
Import GanttChart.

Lemma computeDimensions_xAxis p : xAxis (computeDimensions p) = xAxis p.
Proof.
  unfold computeDimensions.
  destruct (YAxis.dynamicHeight (yAxis p)); simpl;
    destruct (XAxis.dynamicWidth (xAxis p)); reflexivity.
Qed.

Lemma computeDimensions_startTime p : startTime (computeDimensions p) = startTime p.
Proof.
  unfold computeDimensions.
  destruct (YAxis.dynamicHeight (yAxis p)); simpl;
    destruct (XAxis.dynamicWidth (xAxis p)); reflexivity.
Qed.

Lemma computeDimensions_endTime p : endTime (computeDimensions p) = endTime p.
Proof.
  unfold computeDimensions.
  destruct (YAxis.dynamicHeight (yAxis p)); simpl;
    destruct (XAxis.dynamicWidth (xAxis p)); reflexivity.
Qed.

Lemma after_draw_xAxis p : xAxis (after_draw p) = xAxis p.
Proof. unfold after_draw. simpl. apply computeDimensions_xAxis. Qed.

Lemma after_draw_startTime p : startTime (after_draw p) = startTime p.
Proof. unfold after_draw. simpl. apply computeDimensions_startTime. Qed.

Lemma after_draw_endTime p : endTime (after_draw p) = endTime p.
Proof. unfold after_draw. simpl. apply computeDimensions_endTime. Qed.

Lemma after_draw_names p : names_of (after_draw p) = names_of p.
Proof. unfold names_of. by rewrite after_draw_activities. Qed.

(** The element height draw leaves is the band width over the names and
    the height of the chart as drawn. *)
Lemma after_draw_bandwidth p :
  YAxis.elementHeight (yAxis (after_draw p)) =
  D3.bandwidth (D3.scaleBand (names_of p) 0 (height (after_draw p))).
Proof.
  rewrite after_draw_elementHeight. unfold yAxisScale.
  by rewrite computeDimensions_activities.
Qed.

Lemma yAxisScale_after_draw p :
  yAxisScale (after_draw p) = D3.scaleBand (names_of p) 0 (height (after_draw p)).
Proof. unfold yAxisScale. by rewrite after_draw_activities. Qed.

(** A second draw keeps the width of the first. *)
Lemma redraw_width p : width (after_draw (after_draw p)) = width (after_draw p).
Proof.
  rewrite (after_draw_width (after_draw p)), computeDimensions_width.
  rewrite after_draw_xAxis, after_draw_startTime, after_draw_endTime.
  rewrite after_draw_width, computeDimensions_width.
  by destruct (XAxis.dynamicWidth (xAxis p)).
Qed.

(** The height of a second draw. *)
Lemma redraw_height p :
  height (after_draw (after_draw p)) =
  if YAxis.dynamicHeight (yAxis p)
  then YAxis.elementHeight (yAxis (after_draw p)) * D3.nat_Q (length (names_of p))
  else height (after_draw p).
Proof.
  rewrite (after_draw_height (after_draw p)), computeDimensions_height.
  rewrite after_draw_dynamicHeight, after_draw_activities.
  unfold names_of. by rewrite length_map.
Qed.

Lemma nat_Q_lt n m : (n < m)%nat -> D3.nat_Q n < D3.nat_Q m.
Proof. intros H. unfold D3.nat_Q. rewrite <- Zlt_Qlt. lia. Qed.

Lemma bandwidth_proper names h h' :
  0 <= h -> h == h' ->
  D3.bandwidth (D3.scaleBand names 0 h) == D3.bandwidth (D3.scaleBand names 0 h').
Proof.
  intros Hh Heq.
  destruct (scaleBand_rows names h Hh) as (-> & _).
  destruct (scaleBand_rows names h') as (-> & _); [lra|].
  by rewrite Heq.
Qed.

(** X15. draw puts every data point of a listed activity in a row within
    the chart, also when activities share a name: for a height that is
    not negative the rows are the distinct names in the order of their
    first occurrence, the row of index [i] starts at [i] times the bar
    height, and no bar reaches below the chart height. *)
Theorem X15_rows_by_first_occurrence (p : parameters) :
  0 <= height (computeDimensions p) ->
  exists p' d,
    draw p = Normal (p', d) /\
    elements d = map (drawElement p') (data p) /\
    forall elem, elem ∈ data p -> activity elem ∈ names_of p ->
      exists i y,
        D3.index_of (activity elem) (D3.ordinal_domain (names_of p)) = Some i /\
        ty (transform (drawElement p' elem)) = Some y /\
        y == D3.nat_Q i * rectHeight (drawElement p' elem) /\
        0 <= y /\
        y + rectHeight (drawElement p' elem) <= chartHeight d.
Proof.
  intros Hh. eexists _, _. split; [apply draw_returns|].
  cbn [elements chartHeight]. split; [by rewrite after_draw_data|].
  intros elem _ Hin.
  cbn [drawElement transform rectHeight elementTranslate ty].
  rewrite yAxisScale_after_draw, after_draw_bandwidth.
  rewrite after_draw_height in *.
  set (h := height (computeDimensions p)) in *.
  destruct (scaleBand_rows (names_of p) h Hh) as (_ & Hnn & Hfull & Hrow).
  destruct (Hrow _ Hin) as (i & y & Hi & Hlt & Hy & Hyq).
  exists i, y. split; [done|]. split; [done|]. split; [done|].
  assert (Hne : names_of p <> []) by (intros E; rewrite E in Hin; by apply elem_of_nil in Hin).
  specialize (Hfull Hne).
  set (bw := D3.bandwidth (D3.scaleBand (names_of p) 0 h)) in *.
  pose proof (D3_nat_Q_nonneg := nat_Q_nonneg i).
  assert (D3.nat_Q i + 1 <= D3.nat_Q (length (D3.ordinal_domain (names_of p)))) as Hi1.
  { rewrite <- nat_Q_S. unfold D3.nat_Q. rewrite <- Zle_Qle. lia. }
  split.
  - rewrite Hyq. apply Qmult_le_0_compat; done.
  - rewrite Hyq, <- Hfull.
    assert (D3.nat_Q i * bw + bw == (D3.nat_Q i + 1) * bw) as -> by ring.
    rewrite (Qmult_comm bw). apply Qmult_le_compat_r; done.
Qed.

(** The chart with John listed twice: both Johns share the first row. *)
Lemma X15_rows_by_first_occurrence_witness :
  exists p' d,
    draw ChartSamples.repeated = Normal (p', d) /\
    elements d = map (drawElement p') (data ChartSamples.repeated).
Proof.
  destruct (X15_rows_by_first_occurrence ChartSamples.repeated)
    as (p' & d & Hd & He & _).
  - discriminate.
  - exists p', d. by split.
Defined.

End RedrawFacts.

Section RedrawClaims.
Import GanttChart.

(** X16. Drawing a chart of distinct activity names a second time gives
    the same dimensions and the same bar height as the first time,
    whatever the two dynamic flags, provided the height of the first
    drawing is not negative. *)
Theorem X16_redraw_stable (p : parameters) :
  NoDup (names_of p) -> 0 <= height (computeDimensions p) ->
  exists p1 d1 p2 d2,
    draw p = Normal (p1, d1) /\ draw p1 = Normal (p2, d2) /\
    chartHeight d2 == chartHeight d1 /\
    chartWidth d2 = chartWidth d1 /\
    YAxis.elementHeight (yAxis p2) == YAxis.elementHeight (yAxis p1).
Proof.
  intros Hnd Hh.
  eexists _, _, _, _. split; [apply draw_returns|]. split; [apply draw_returns|].
  cbn [chartHeight chartWidth].
  assert (Hheight : height (after_draw (after_draw p)) == height (after_draw p)).
  { rewrite redraw_height. destruct (YAxis.dynamicHeight (yAxis p)) eqn:Hdyn; [|reflexivity].
    rewrite after_draw_bandwidth, after_draw_height.
    destruct (scaleBand_rows (names_of p) _ Hh) as (_ & _ & Hfull & _).
    destruct (decide (names_of p = [])) as [Hnil|Hne].
    - rewrite computeDimensions_height, Hdyn.
      assert (length (activities p) = 0%nat) as ->.
      { unfold names_of in Hnil. by destruct (activities p). }
      rewrite Hnil. simpl length. change (D3.nat_Q 0) with 0. ring.
    - specialize (Hfull Hne). rewrite ordinal_domain_NoDup in Hfull by done.
      unfold D3.ordinal_domain in Hfull. exact Hfull. }
  split; [exact Hheight|]. split; [apply redraw_width|].
  rewrite (after_draw_bandwidth (after_draw p)), after_draw_names.
  rewrite (after_draw_bandwidth p).
  symmetry. apply bandwidth_proper; [by rewrite after_draw_height|by symmetry].
Qed.

(** The chart of the README, drawn twice. *)
Lemma X16_redraw_stable_witness :
  exists p1 d1 p2 d2,
    draw Readme.parameters_after_init = Normal (p1, d1) /\
    draw p1 = Normal (p2, d2) /\
    chartHeight d2 == chartHeight d1.
Proof.
  destruct (X16_redraw_stable Readme.parameters_after_init)
    as (p1 & d1 & p2 & d2 & H1 & H2 & H & _).
  - exact readme_names_distinct.
  - discriminate.
  - by exists p1, d1, p2, d2.
Defined.

(** X17. With a dynamic height, a positive element height and an activity
    name listed more than once, every draw makes the chart taller: the
    rows are the distinct names while the height counts every activity,
    so draw leaves an element height greater than it found, and the next
    draw computes a greater height from it. *)
Theorem X17_repeated_names_grow (p : parameters) :
  YAxis.dynamicHeight (yAxis p) = true ->
  0 < YAxis.elementHeight (yAxis p) ->
  ~ NoDup (names_of p) ->
  exists p1 d1 p2 d2,
    draw p = Normal (p1, d1) /\ draw p1 = Normal (p2, d2) /\
    YAxis.elementHeight (yAxis p1)
        * D3.nat_Q (length (D3.ordinal_domain (names_of p)))
      == YAxis.elementHeight (yAxis p) * D3.nat_Q (length (activities p)) /\
    YAxis.elementHeight (yAxis p) < YAxis.elementHeight (yAxis p1) /\
    chartHeight d1 < chartHeight d2.
Proof.
  intros Hdyn Heh Hdup.
  eexists _, _, _, _. split; [apply draw_returns|]. split; [apply draw_returns|].
  cbn [chartHeight].
  pose proof (ordinal_domain_repeat _ Hdup) as Hlt.
  assert (Hne : names_of p <> []) by (intros E; apply Hdup; rewrite E; apply NoDup_nil_2).
  pose proof (ordinal_domain_nonempty _ Hne) as Hpos.
  assert (Hlen : length (names_of p) = length (activities p))
    by (unfold names_of; by rewrite length_map).
  set (n := D3.nat_Q (length (activities p))).
  set (d := D3.nat_Q (length (D3.ordinal_domain (names_of p)))).
  assert (Hd1 : 1 <= d) by (by apply nat_Q_pos).
  assert (Hdn : d < n) by (subst d n; rewrite <- Hlen; by apply nat_Q_lt).
  assert (Hh1 : height (after_draw p) == YAxis.elementHeight (yAxis p) * n).
  { by rewrite after_draw_height, computeDimensions_height, Hdyn. }
  assert (Hh1pos : 0 <= height (after_draw p)).
  { rewrite Hh1. apply Qmult_le_0_compat; lra. }
  destruct (scaleBand_rows (names_of p) _ Hh1pos) as (_ & _ & Hfull & _).
  specialize (Hfull Hne). rewrite <- after_draw_bandwidth in Hfull. fold d in Hfull.
  set (e0 := YAxis.elementHeight (yAxis p)) in *.
  set (e1 := YAxis.elementHeight (yAxis (after_draw p))) in *.
  assert (He1 : e1 * d == e0 * n) by (by rewrite Hfull, Hh1).
  assert (He01 : e0 < e1).
  { destruct (Qlt_le_dec e0 e1) as [?|Hle]; [done|]. exfalso.
    assert (e1 * d <= e0 * d) by (apply Qmult_le_compat_r; lra).
    assert (e0 * d < e0 * n) by (apply Qmult_lt_l; lra).
    lra. }
  split; [exact He1|]. split; [exact He01|].
  rewrite redraw_height, Hdyn, Hlen. fold n. fold e1. rewrite Hh1.
  apply Qmult_lt_compat_r; lra.
Qed.

(** The chart with John listed twice and an element height of 50: the
    first draw is 200 high and leaves the element height 200/3. *)
Lemma X17_repeated_names_grow_witness :
  exists p1 d1 p2 d2,
    draw ChartSamples.repeated = Normal (p1, d1) /\ draw p1 = Normal (p2, d2) /\
    chartHeight d1 < chartHeight d2.
Proof.
  destruct (X17_repeated_names_grow ChartSamples.repeated)
    as (p1 & d1 & p2 & d2 & H1 & H2 & _ & _ & H).
  - reflexivity.
  - reflexivity.
  - intros Hnd. apply NoDup_cons in Hnd as [Hnin _]. apply Hnin.
    by apply (bool_decide_unpack _).
  - by exists p1, d1, p2, d2.
Defined.

(** X18. Without a dynamic height the configured [yAxis.elementHeight]
    has no effect: draw returns the same drawing and leaves the same
    parameters whatever its value. *)
Theorem X18_static_elementHeight_ignored (p : parameters) (v : Q) :
  YAxis.dynamicHeight (yAxis p) = false ->
  draw (set_elementHeight v p) = draw p.
Proof.
  intros Hdyn. destruct p as [nd w h acts dat e s [yw ydyn yeh] xa].
  cbn in Hdyn. subst ydyn.
  unfold draw, computeDimensions, set_elementHeight. cbn.
  destruct (XAxis.dynamicWidth xa); reflexivity.
Qed.

(** A chart of fixed height 200 with an element height of 50 or of 7. *)
Lemma X18_static_elementHeight_ignored_witness :
  draw (set_elementHeight 7 ChartSamples.fixed) = draw ChartSamples.fixed.
Proof.
  apply X18_static_elementHeight_ignored. reflexivity.
Defined.

End RedrawClaims.

(* ===================================================================== *)
(** ** The drawing at its edges                                           *)
(* ===================================================================== *)

Section DrawingEdges.
Import GanttChart.

Lemma find_first {A} (f : A -> bool) (l : list A) x :
  x ∈ l -> f x = true ->
  exists k y, l !! k = Some y /\ f y = true /\
    (forall j z, (j < k)%nat -> l !! j = Some z -> f z = false) /\
    List.find f l = Some y.
Proof.
  induction l as [|a l IH]; intros Hin Hf; [by apply elem_of_nil in Hin|].
  simpl. destruct (f a) eqn:Hfa.
  - exists 0%nat, a. split; [done|]. split; [done|]. split; [intros; lia|done].
  - apply elem_of_cons in Hin as [->|Hin]; [congruence|].
    destruct (IH Hin Hf) as (k & y & Hk & Hy & Hfirst & Hfind).
    exists (S k), y. split; [done|]. split; [done|]. split; [|done].
    intros [|j] z Hj Hz; simpl in Hz.
    + by injection Hz as <-.
    + apply (Hfirst j z); [lia|done].
Qed.

Lemma find_none {A} (f : A -> bool) (l : list A) :
  (forall x, x ∈ l -> f x = false) -> List.find f l = None.
Proof.
  induction l as [|a l IH]; intros H; [done|]. simpl.
  rewrite (H a) by left. apply IH. intros x Hx. apply H. by right.
Qed.

Lemma scaleTime_no_width d0 d1 w x : w == 0 -> D3.scaleTime d0 d1 0 w x == 0.
Proof.
  intros Hw. unfold D3.scaleTime, D3.bimap, D3.interpolateNumber.
  destruct (D3.Qltb _ _); rewrite Hw; ring.
Qed.

(** X19. Data sorted by start time, as init leaves them, are drawn from
    left to right: on a domain with [startTime <= endTime] and a width
    that is not negative, the horizontal offsets of the bars draw
    returns ascend in the order of the data. *)
Theorem X19_sorted_data_ascending_bars (p : parameters) :
  (startTime p <= endTime p)%Z ->
  0 <= width (computeDimensions p) ->
  StronglySorted (fun a b => (start a <= start b)%Z) (data p) ->
  exists p' d,
    draw p = Normal (p', d) /\
    StronglySorted Qle (map (fun r => tx (transform r)) (elements d)).
Proof.
  intros Hd Hw Hs. eexists _, _. split; [apply draw_returns|].
  cbn [elements]. rewrite after_draw_data.
  induction Hs as [|a l Hs IH Hall]; [constructor|].
  cbn [map]. constructor; [exact IH|].
  apply Forall_forall. intros q Hq.
  apply list_elem_of_In, in_map_iff in Hq as (r & <- & Hr).
  apply in_map_iff in Hr as (b & <- & Hb).
  cbn [drawElement transform elementTranslate tx]. unfold xAxisScale.
  rewrite after_draw_startTime, after_draw_endTime, after_draw_width.
  apply scaleTime_mono; [done|done|].
  rewrite Forall_forall in Hall. apply Hall. by apply list_elem_of_In.
Qed.

(** The chart of the README, whose data init has sorted by start. *)
Lemma X19_sorted_data_ascending_bars_witness :
  exists p' d,
    draw Readme.parameters_after_init = Normal (p', d) /\
    StronglySorted Qle (map (fun r => tx (transform r)) (elements d)).
Proof.
  apply X19_sorted_data_ascending_bars.
  - discriminate.
  - discriminate.
  - repeat (constructor; [|repeat (constructor; [discriminate|]); constructor]).
    constructor.
Defined.

(** X20. The tooltip of a tick of the y axis shows the description of
    the first activity of that name, which may be undefined; this never
    fails for a tick the chart has drawn. For a name that no activity
    bears, [find] gives undefined and the handler raises a TypeError. *)
Theorem X20_tooltip_of_first_activity (p : parameters) (d : string) :
  (d ∈ Tooltips.tick_data p ->
     exists k x,
       activities p !! k = Some x /\ name x = d /\
       (forall j y, (j < k)%nat -> activities p !! j = Some y -> name y <> d) /\
       Tooltips.mousemove_text p d = Normal (description x)) /\
  (d ∉ names_of p -> Tooltips.mousemove_text p d = Throw TypeError).
Proof.
  unfold Tooltips.tick_data, Tooltips.mousemove_text, yAxisScale. split.
  - cbn [D3.scaleBand D3.domain]. intros Hd.
    apply elem_of_ordinal_domain, list_elem_of_fmap in Hd as (x & -> & Hx).
    destruct (find_first (fun y => bool_decide (name y = name x)) (activities p) x Hx)
      as (k & y & Hk & Hy & Hfirst & ->); [by apply bool_decide_eq_true|].
    exists k, y. split; [done|]. split; [by apply bool_decide_eq_true in Hy|].
    split; [|done]. intros j z Hj Hz.
    specialize (Hfirst j z Hj Hz). by apply bool_decide_eq_false in Hfirst.
  - intros Hd. rewrite find_none; [done|].
    intros x Hx. apply bool_decide_eq_false. intros <-. apply Hd.
    unfold names_of. by apply list_elem_of_fmap_2.
Qed.

(** The chart with John listed twice shows John's first description; a
    tick named Zed, of another chart on the page, raises. *)
Lemma X20_tooltip_of_first_activity_witness :
  Tooltips.mousemove_text ChartSamples.repeated "John" = Normal (Some "John's schedule"%string) /\
  Tooltips.mousemove_text ChartSamples.repeated "Zed" = Throw TypeError.
Proof.
  destruct (X20_tooltip_of_first_activity ChartSamples.repeated "John") as [H1 _].
  destruct (X20_tooltip_of_first_activity ChartSamples.repeated "Zed") as [_ H2].
  split.
  - destruct H1 as (k & x & Hk & Hx & Hfirst & ->); [by apply (bool_decide_unpack _)|].
    destruct k as [|k].
    + injection Hk as <-. reflexivity.
    + exfalso. apply (Hfirst 0%nat {| name := "John"; description := Some "John's schedule" |});
        [lia|reflexivity|reflexivity].
  - apply H2. by apply (bool_decide_unpack _).
Defined.

(** X21. With a dynamic width and an interval that yields no date
    between [startTime] and [endTime], draw gives the chart the width 0:
    every bar starts at 0 and has the width 0. *)
Theorem X21_no_tick_no_width (p : parameters) :
  XAxis.dynamicWidth (xAxis p) = true ->
  D3.range (XAxis.interval (xAxis p)) (startTime p) (endTime p) = [] ->
  exists p' d,
    draw p = Normal (p', d) /\
    chartWidth d == 0 /\
    Forall (fun r => tx (transform r) == 0 /\ rectWidth r == 0) (elements d).
Proof.
  intros Hdyn Hrange. eexists _, _. split; [apply draw_returns|].
  cbn [chartWidth elements].
  assert (Hw : width (after_draw p) == 0).
  { rewrite after_draw_width, computeDimensions_width, Hdyn, Hrange.
    simpl length. change (D3.nat_Q 0) with 0. ring. }
  split; [exact Hw|].
  apply Forall_forall. intros r Hr.
  apply list_elem_of_fmap in Hr as (e & -> & _).
  cbn [drawElement transform rectWidth elementTranslate tx].
  unfold elementWidth, xAxisScale.
  rewrite !scaleTime_no_width by done. split; [reflexivity|ring].
Qed.

(** The chart of the README when its domain is the one instant 07:00. *)
Lemma X21_no_tick_no_width_witness :
  exists p' d, draw ChartSamples.one_instant = Normal (p', d) /\ chartWidth d == 0.
Proof.
  destruct (X21_no_tick_no_width ChartSamples.one_instant) as (p' & d & Hd & Hw & _).
  - reflexivity.
  - reflexivity.
  - by exists p', d.
Defined.

(** X22. With no activity configured draw still returns one bar for
    each data point, every one with an undefined row. With a dynamic
    height the chart and the bars have the height 0; with a fixed height
    that is not negative every bar is as high as the chart. *)
Theorem X22_no_activity (p : parameters) :
  activities p = [] ->
  exists p' d,
    draw p = Normal (p', d) /\
    length (elements d) = length (data p) /\
    Forall (fun r => ty (transform r) = None) (elements d) /\
    (YAxis.dynamicHeight (yAxis p) = true ->
       chartHeight d == 0 /\ Forall (fun r => rectHeight r == 0) (elements d)) /\
    (YAxis.dynamicHeight (yAxis p) = false -> 0 <= height p ->
       chartHeight d = height p /\
       Forall (fun r => rectHeight r == height p) (elements d)).
Proof.
  intros Hact. eexists _, _. split; [apply draw_returns|].
  cbn [elements chartHeight]. rewrite after_draw_data.
  assert (Hnames : names_of p = []) by (unfold names_of; by rewrite Hact).
  split; [by rewrite length_map|]. split.
  { apply Forall_forall. intros r Hr.
    apply list_elem_of_fmap in Hr as (e & -> & _).
    cbn [drawElement transform]. apply elementTranslate_unknown.
    rewrite after_draw_names, Hnames. apply not_elem_of_nil. }
  assert (Hbw : forall h, 0 <= h ->
            D3.bandwidth (D3.scaleBand (names_of p) 0 h) == h).
  { intros h Hh. destruct (scaleBand_rows (names_of p) h Hh) as (-> & _).
    rewrite Hnames. simpl length. change (D3.nat_Q 0) with 0.
    rewrite Q.max_l by discriminate. field. }
  split.
  - intros Hdyn.
    assert (Hh : height (after_draw p) == 0).
    { rewrite after_draw_height, computeDimensions_height, Hdyn, Hact.
      simpl length. change (D3.nat_Q 0) with 0. ring. }
    split; [exact Hh|].
    apply Forall_forall. intros r Hr.
    apply list_elem_of_fmap in Hr as (e & -> & _).
    cbn [drawElement rectHeight]. rewrite after_draw_bandwidth.
    rewrite Hbw by (rewrite Hh; discriminate). exact Hh.
  - intros Hdyn Hh.
    assert (Hh' : height (after_draw p) = height p).
    { by rewrite after_draw_height, computeDimensions_height, Hdyn. }
    split; [exact Hh'|].
    apply Forall_forall. intros r Hr.
    apply list_elem_of_fmap in Hr as (e & -> & _).
    cbn [drawElement rectHeight]. rewrite after_draw_bandwidth, Hh'.
    by apply Hbw.
Qed.

(** The chart of the README with a fixed height and no activity. *)
Lemma X22_no_activity_witness :
  exists p' d,
    draw ChartSamples.no_activity = Normal (p', d) /\
    length (elements d) = 4%nat /\
    Forall (fun r => rectHeight r == 200) (elements d).
Proof.
  destruct (X22_no_activity ChartSamples.no_activity)
    as (p' & d & Hd & Hlen & _ & _ & Hfixed).
  - reflexivity.
  - exists p', d. split; [exact Hd|]. split; [exact Hlen|].
    destruct Hfixed as [_ H]; [reflexivity|discriminate|exact H].
Defined.

End DrawingEdges.

(* ===================================================================== *)
(** ** The merged parameters and the caller's argument                    *)
(* ===================================================================== *)

Section ArgumentFacts.
Import Tree.

Lemma determine_time_domain_nullish h p d elems :
  get h (VRef p) data_key = VRef d -> h !! d = Some (Array elems) ->
  Exists (fun v => is_nullish v = true) elems ->
  determine_time_domain h p = Throw TypeError.
Proof.
  intros Hdata Hd Hex. apply existsb_nullish in Hex.
  unfold determine_time_domain. rewrite Hdata. simpl is_nullish. cbv iota.
  rewrite Hd. destruct elems as [|e es]; [done|]. by rewrite Hex.
Qed.

Lemma erase_leaf c v : erase c = Leaf v -> c = LLeaf v.
Proof. destruct c; simpl; congruence. Qed.

(** A null among the elements of the options' array is in the merged
    array, at its index. *)
Lemma merged_arr_null src ys i :
  wf (Arr ys) -> ys !! i = Some (Leaf VNull) ->
  exists xs, merged src (Arr ys) = Arr xs /\ xs !! i = Some (Leaf VNull).
Proof.
  intros Hwf Hi. unfold merged.
  assert (same_kind (clone_for src (Arr ys)) (Arr ys) = true) as Hk.
  { unfold clone_for. destruct (same_kind src (Arr ys)) eqn:E; [done|done]. }
  pose proof (extend_get (clone_for src (Arr ys)) (Arr ys) (KIndex i) Hwf Hk) as Hget.
  assert (tget (Arr ys) (KIndex i) = Leaf VNull) as Hy
    by (unfold tget, field; by rewrite Hi).
  rewrite Hy in Hget. cbn [merged is_undefined] in Hget.
  assert (same_kind (extend (clone_for src (Arr ys)) (Arr ys)) (Arr ys) = true) as Hk'
    by (by rewrite same_kind_extend).
  destruct (extend (clone_for src (Arr ys)) (Arr ys)) as [v|fs|xs]; try done.
  exists xs. split; [done|].
  unfold tget, field in Hget. destruct (xs !! i) as [c|]; [|done].
  simpl in Hget. by rewrite Hget.
Qed.

(** X23. init of d3.ganttChart raises a TypeError when the data array of
    its argument holds null: the deep extend copies the null into
    [this.params.data], whatever data the defaults hold, and the
    time-domain block then reads a property of it. *)
Theorem X23_init_throws_on_null_data_point (h : heap) (T O : ltree) (w : widget)
    (d : loc) (elems : list value) :
  rep h T -> rep h O -> lkind T = Some false -> lkind O = Some false ->
  NoDup (locs T) -> Forall (fun x => x ∉ locs T) (locs O) ->
  root T = defaultParameters w ->
  get h (lvalue O) data_key = VRef d -> h !! d = Some (Array elems) ->
  VNull ∈ elems ->
  GanttChartInit.init (depth O) h w (lvalue O) = Throw TypeError.
Proof.
  intros HrT HrO HkT HkO Hnd Hapart Hroot Hd Helems Hnull.
  assert (is_cont O) as HcO by (apply lkind_is_cont; congruence).
  destruct (extend_refines_apart h T O)
    as (h1 & T' & Hrun & Her & (Hrep & Hroot' & Hk' & _) & _); auto.
  { congruence. }
  destruct (rep_get_array h O data_key d elems HrO (lstores_object O _ HkO) Hd Helems)
    as (ts & HfO & <- & Hts).
  apply list_elem_of_lookup in Hnull as [i Hi].
  rewrite list_lookup_fmap in Hi.
  destruct (ts !! i) as [c|] eqn:Hc; [|done]. simpl in Hi.
  assert (c = LLeaf VNull) as ->.
  { injection Hi as Hi. destruct c as [v|l fs|l cs]; simpl in Hi; congruence. }
  assert (wf (Arr (map erase ts))) as Hwf.
  { pose proof (lfield_rep h O data_key HrO) as Hr. rewrite HfO in Hr. simpl in Hr.
    exact (rep_wf h _ Hr). }
  destruct (merged_arr_null (tget (erase T) data_key) (map erase ts) i Hwf)
    as (xs & Hm & Hxs).
  { change (map erase ts) with (erase <$> ts). by rewrite list_lookup_fmap, Hc. }
  assert (tget (erase T') data_key = Arr xs) as Hdata.
  { rewrite Her, extend_get;
      [|by eapply rep_wf|apply same_kind_lkind; [congruence|done]].
    rewrite (lfield_tget O), HfO. exact Hm. }
  assert (lkind T' = Some false) as HkT' by congruence.
  destruct (tget_arr_rep h1 T' data_key _ Hrep (lstores_object T' _ HkT') Hdata)
    as (d1 & ts1 & Hmap & Hd1 & Harr1 & Hts1).
  assert (is_cont T') as HcT' by (apply lkind_is_cont; congruence).
  rewrite (lkind_lvalue T' HcT'), Hroot', Hroot in Hd1.
  unfold GanttChartInit.init. rewrite <- Hroot, Hrun, Hroot.
  rewrite (determine_time_domain_nullish h1 _ d1 (map lvalue ts1) Hd1 Harr1); [done|].
  apply Exists_exists. exists VNull. split; [|done].
  subst xs. change (map erase ts1) with (erase <$> ts1) in Hxs.
  rewrite list_lookup_fmap in Hxs.
  destruct (ts1 !! i) as [c1|] eqn:Hc1; [|done]. simpl in Hxs.
  injection Hxs as Hxs. apply erase_leaf in Hxs as ->.
  change (lvalue (LLeaf VNull) ∈ lvalue <$> ts1). apply list_elem_of_fmap_2.
  by eapply list_elem_of_lookup_2.
Qed.

Lemma rep_null_defaults : rep NullSample.store NullSample.defaults_tree.
Proof. unfold NullSample.defaults_tree. solve_rep. Qed.

Lemma rep_null_argument : rep NullSample.store NullSample.argument_tree.
Proof. unfold NullSample.argument_tree. solve_rep. Qed.

(** A call with [{data: [{...}, null]}]. *)
Lemma X23_init_throws_on_null_data_point_witness :
  GanttChartInit.init 3 NullSample.store GanttChartInit.ganttChart (VRef 6)
  = Throw TypeError.
Proof.
  apply (X23_init_throws_on_null_data_point NullSample.store
           NullSample.defaults_tree NullSample.argument_tree
           GanttChartInit.ganttChart 7%nat [VRef 8; VNull]).
  - exact rep_null_defaults.
  - exact rep_null_argument.
  - reflexivity.
  - reflexivity.
  - by apply (bool_decide_unpack _).
  - by apply (bool_decide_unpack _).
  - reflexivity.
  - reflexivity.
  - reflexivity.
  - constructor 2. constructor 1.
Defined.

(** X24. [$.extend(true, target, options)] keeps no plain object and no
    array of its options in the target: it copies them. A value of the
    options that is neither, a Date or a function among them, is stored
    in the target as it is, in the code by reference. The plain objects
    and arrays of the options are left as they were, none of them is part
    of the merged target, and the store still holds the merged target
    whatever is written afterwards to a property of a plain object or to
    an element of an array of the options. *)
Theorem X24_extend_copies_containers (h : heap) (T O : ltree) :
  rep h T -> rep h O -> lkind T = lkind O -> is_cont O ->
  NoDup (locs T) -> Forall (fun x => x ∉ locs T) (locs O) ->
  exists h' T',
    JQuery.extend (depth O) h (root T) (lvalue O) = Some h' /\
    rep h' T' /\ root T' = root T /\ rep h' O /\
    (forall x, x ∈ locs O -> (x ∉ locs T') /\ h' !! x = h !! x) /\
    (forall k v, tget (erase O) k = Leaf v -> v <> VUndefined ->
                 get h' (VRef (root T)) k = v) /\
    (forall h2, (forall l, l ∉ locs O -> h2 !! l = h' !! l) -> rep h2 T').
Proof.
  intros HrT HrO Hk HcO Hnd Hapart.
  destruct (extend_refines_apart h T O HrT HrO Hk HcO Hnd Hapart)
    as (h' & T' & Hrun & Her & (Hrep & Hroot & Hk' & _ & Hframe & _) & HrO' & Hapart').
  rewrite Forall_forall in Hapart, Hapart'.
  exists h', T'. split; [done|]. split; [done|]. split; [done|]. split; [done|].
  split; [|split].
  - intros x Hx. split; [by apply Hapart'|].
    apply Hframe; [exact (rep_bounded h O x HrO Hx)|by apply Hapart].
  - intros k v Hleaf Hdef.
    assert (is_cont T') as HcT'.
    { apply lkind_is_cont. rewrite Hk', Hk. by apply lkind_is_cont. }
    assert (tget (erase T') k = Leaf v) as Hget.
    { rewrite Her, extend_get;
        [|by eapply rep_wf|by apply same_kind_lkind].
      rewrite Hleaf. simpl. by destruct v. }
    assert (lstores T' k) as Hs.
    { destruct T' as [?|l fs|l ts]; [done|done|].
      destruct k as [s|i]; [|done]. exfalso.
      destruct O as [?|lo fo|lo to]; [done| |].
      - simpl in Hk', Hk. congruence.
      - apply Hdef. unfold tget, field in Hleaf. simpl in Hleaf.
        unfold undefined in Hleaf. congruence. }
    rewrite <- Hroot, <- (lkind_lvalue T' HcT').
    rewrite (lfield_get h' T' k Hrep Hs).
    rewrite lfield_tget in Hget.
    destruct (default (LLeaf VUndefined) (lfield T' k)); simpl in *; congruence.
  - intros h2 Hsame. apply (rep_frame h'); [done|].
    intros l Hl. apply Hsame. intros HlO. by apply (Hapart' l).
Qed.

(** The merge of the README's call: the caller's data array, at 11, is
    no object of the parameters, and the node name is stored as given. *)
Lemma X24_extend_copies_containers_witness :
  exists h' T',
    JQuery.extend 3 Readme.store 0 (VRef 6) = Some h' /\
    rep h' T' /\ (Readme.callers_data ∉ locs T') /\
    get h' (VRef 0) (KName "node") = VString "#gantt-chart".
Proof.
  destruct (X24_extend_copies_containers Readme.store Readme.defaults_tree
              Readme.argument_tree)
    as (h' & T' & Hrun & Hrep & _ & _ & Hfresh & Hleaf & _).
  - exact rep_defaults_tree.
  - exact rep_argument_tree.
  - reflexivity.
  - exact I.
  - by apply (bool_decide_unpack _).
  - by apply (bool_decide_unpack _).
  - exists h', T'. split; [exact Hrun|]. split; [exact Hrep|]. split.
    + apply Hfresh. by apply (bool_decide_unpack _).
    + apply (Hleaf (KName "node") (VString "#gantt-chart")); [reflexivity|discriminate].
Defined.

End ArgumentFacts.

